(** * Pairwise evolutionary distances of cogent3: a shallow embedding

    The development follows [cogent3/evolve/pairwise_distance.py]:
    the diversity matrix builder, the five closed-form estimators
    (Hamming, JC69, TN93, LogDet, Paralinear), the pairwise runner with its
    duplicate bookkeeping, the assembler [_expand] with the statistic views,
    and the calculator registry [get_calculator].

    Numbers.  A diversity matrix is a NumPy [float64] array that only ever
    holds counts; it is a [list (list Z)] here.  Everything an estimator
    derives from it with [+ - * /] is a rational and is computed in [Q], so
    every guard of the source on them ([total == 0], [p >= 0.75],
    [term <= 0]) is a boolean that evaluates.  [log] and [sqrt] are
    the functions [ln] and [sqrt] of the real numbers, and the statistics an
    estimator returns are real numbers ([Q2R] of the rational ones).  Rounding,
    [nan] and [inf] of IEEE arithmetic are not modelled: where NumPy divides
    by zero (and warns), [Q] yields [0].

    Linear algebra.  [det] and [inv] are the routines of [numpy.linalg],
    which factorise the matrix in floating point; the sign of a determinant
    near zero is decided by their rounding.  They are parameters of the
    LogDet and Paralinear estimators here, and what is proved of these
    estimators holds whatever the two routines return. *)

From Stdlib Require Import ZArith QArith Qreals Reals Lra Lia Ascii String.
From stdpp Require Import base option list strings gmap.

Local Open Scope Z_scope.

(** ** Python values *)

(** A statistic is either [None] or a floating point number. *)
Inductive pyval : Type :=
| PNone
| PNum (x : R).

(** The exceptions that the modelled code raises. *)
Inductive exn : Type :=
| ValueError (msg : string)
| TypeError
| IndexError
| KeyError.

Inductive result (A : Type) : Type :=
| Ok (a : A)
| Raise (e : exn).
Arguments Ok {A} a.
Arguments Raise {A} e.

(** ** Diversity matrices *)

Abbreviation matrix := (list (list Z)) (only parsing).

(** [zeros((K, K))] *)
Definition zeros (K : nat) : matrix := replicate K (replicate K 0).

(** [matrix[a][b]], with [0] outside of the array (only used in statements
    and where the source reads coordinates it generated itself). *)
Definition entry (m : matrix) (a b : nat) : Z :=
  default 0 (m !! a ≫= λ row, row !! b).

Definition row_sum (row : list Z) : Z := foldr Z.add 0 row.

(** [matrix.sum()] *)
Definition matrix_sum (m : matrix) : Z := foldr (λ row acc, row_sum row + acc) 0 m.

(** [diag(matrix)] *)
Fixpoint diag_from (i : nat) (m : matrix) : list Z :=
  match m with
  | [] => []
  | row :: rest => default 0 (row !! i) :: diag_from (S i) rest
  end.
Definition diag (m : matrix) : list Z := diag_from 0 m.

(** [diag(matrix).sum()] *)
Definition trace (m : matrix) : Z := row_sum (diag m).

(** [matrix[a, b] += 1]; an index outside of the array raises [IndexError],
    rendered by [None]. The caller only passes non-negative indices. *)
Definition incr (m : matrix) (a b : Z) : option matrix :=
  row ← m !! Z.to_nat a;
  x ← row !! Z.to_nat b;
  Some (<[Z.to_nat a := <[Z.to_nat b := x + 1]> row]> m).

(** the loop [for i in range(len(paired)): matrix[paired[i][0], paired[i][1]] += 1] *)
Fixpoint fill_pairs (m : matrix) (paired : list (Z * Z)) : option matrix :=
  match paired with
  | [] => Some m
  | (a, b) :: rest => m' ← incr m a b; fill_pairs m' rest
  end.

(** [paired.min(axis=1) >= 0] for one row of [paired] *)
Definition jointly_valid (ab : Z * Z) : bool := 0 <=? Z.min ab.1 ab.2.

(** [_fill_diversity_matrix(matrix, seq1, seq2)].  The source mutates
    [matrix]; the updated array is returned. [array([seq1, seq2]).T] needs two
    sequences of one length, anything else makes the [min(axis=1)] fail. *)
Definition _fill_diversity_matrix (m : matrix) (seq1 seq2 : list Z) : option matrix :=
  if bool_decide (length seq1 = length seq2) then
    let paired := zip seq1 seq2 in
    let paired := filter (λ ab, jointly_valid ab = true) paired in
    fill_pairs m paired
  else None.

(** The number of alignment columns at which neither sequence holds a
    negative (invalid) index. *)
Fixpoint valid_columns (seq1 seq2 : list Z) : Z :=
  match seq1, seq2 with
  | a :: s1, b :: s2 =>
      (if (0 <=? a) && (0 <=? b) then 1 else 0) + valid_columns s1 s2
  | _, _ => 0
  end.

(** ** Rational vectors and matrices *)

Abbreviation qmatrix := (list (list Q)) (only parsing).

Definition Qsum (xs : list Q) : Q := foldr Qplus 0%Q xs.
Definition Qprod (xs : list Q) : Q := foldr Qmult 1%Q xs.

Definition qentry (m : qmatrix) (a b : nat) : Q :=
  default 0%Q (m !! a ≫= λ row, row !! b).

(** the number of columns of a two-dimensional array *)
Definition ncols {A} (m : list (list A)) : nat :=
  match m with [] => 0 | row :: _ => length row end.

(** [m.sum()], [m.sum(axis=1)] and [m.sum(axis=0)] *)
Definition qmatrix_sum (m : qmatrix) : Q := Qsum (map Qsum m).
Definition qrow_sums (m : qmatrix) : list Q := map Qsum m.
Definition qcol_sums (m : qmatrix) : list Q :=
  map (λ j, Qsum (map (λ row, default 0%Q (row !! j)) m)) (seq 0 (ncols m)).

(** the counts of a diversity matrix as floats *)
Definition to_float (m : matrix) : qmatrix := map (map inject_Z) m.

(** [a.take(indices)] on a one-dimensional array; an index that is out of
    range raises [IndexError] ([None]). *)
Definition take_at {A} (xs : list A) (indices : list nat) : option (list A) :=
  mapM (λ i, xs !! i) indices.

(** [(-1) ** k] *)
Definition sign (k : nat) : Q := if Nat.even k then 1%Q else (-1)%Q.

(** The determinant of a rational matrix, by expansion along the first row:
    the number that [numpy.linalg.det] approximates.  It stands for [det] in
    the examples, where a determinant has to be computed.  The empty matrix
    has determinant 1. *)
Fixpoint det_upto (n : nat) (m : qmatrix) : Q :=
  match n with
  | O => 1%Q
  | S n' =>
      match m with
      | [] => 1%Q
      | row :: rest =>
          Qsum (imap (λ j x, (sign j * x * det_upto n' (map (delete j) rest))%Q) row)
      end
  end.
Definition exact_det (m : qmatrix) : Q := det_upto (length m) m.

(** [m] without row [i] and column [j] *)
Definition minor (m : qmatrix) (i j : nat) : qmatrix := map (delete j) (delete i m).

(** The inverse of a rational matrix, the adjugate over the determinant:
    what [numpy.linalg.inv] approximates; it stands for [inv] in the
    examples. *)
Definition exact_inv (m : qmatrix) : qmatrix :=
  let d := exact_det m in
  let n := length m in
  map (λ i, map (λ j, (sign (i + j) * exact_det (minor m j i) / d)%Q) (seq 0 n))
      (seq 0 n).

(** [dot(a, b)] for two-dimensional arrays *)
Definition dot (a b : qmatrix) : qmatrix :=
  map (λ row,
         map (λ j, Qsum (imap (λ k x, (x * qentry b k j)%Q) row)) (seq 0 (ncols b)))
      a.

(** [m.diagonal()] *)
Definition qdiagonal (m : qmatrix) : list Q := imap (λ i row, default 0%Q (row !! i)) m.

(** ** The estimators *)

(** What an estimator returns: [(total, p, dist, variance)]. *)
Definition stats : Type := pyval * pyval * pyval * pyval.

(** [invalid = None, None, None, None] *)
Definition invalid : stats := (PNone, PNone, PNone, PNone).

Definition num_Z (z : Z) : pyval := PNum (IZR z).
Definition num_Q (q : Q) : pyval := PNum (Q2R q).

(** [_hamming(matrix)] *)
Definition _hamming (m : matrix) : stats :=
  let total := matrix_sum m in
  let dist := total - trace m in
  if total =? 0 then invalid
  else
    let p := (inject_Z dist / inject_Z total)%Q in
    (num_Z total, num_Q p, num_Z dist, PNone).

(** [_jc69_from_matrix(matrix)] *)
Definition _jc69_from_matrix (m : matrix) : stats :=
  let total := matrix_sum m in
  let diffs := total - trace m in
  if total =? 0 then invalid
  else
    let p := (inject_Z diffs / inject_Z total)%Q in
    if Qle_bool (3 # 4) p then invalid (* cannot take log *)
    else
      let factor := (1 - (4 # 3) * p)%Q in
      let dist := (- 3 * ln (Q2R factor) / 4)%R in
      let var := (p * (1 - p) / (factor * factor * inject_Z total))%Q in
      (num_Z total, num_Q p, PNum dist, num_Q var).

(** [matrix.sum(axis=0)] and [matrix.sum(axis=1)] of a diversity matrix *)
Definition col_sums (m : matrix) : list Q := qcol_sums (to_float m).
Definition row_sums (m : matrix) : list Q := qrow_sums (to_float m).

(** [_tn93_from_matrix(matrix, freqs, pur_indices, pyr_indices, pur_coords,
    pyr_coords, tv_coords)].  The coordinates index the flattened matrix.
    The argument [freqs] is overwritten before it is read.  [None] is the
    [IndexError] of a [take] with a coordinate outside of the array. *)
Definition _tn93_from_matrix (m : matrix) (freqs : list Q)
    (pur_indices pyr_indices pur_coords pyr_coords tv_coords : list nat)
  : option stats :=
  let total := matrix_sum m in
  let freqs := zip_with Qplus (col_sums m) (row_sums m) in
  let freqs := map (λ f, (f / (2 * inject_Z total))%Q) freqs in
  if total =? 0 then Some invalid
  else
    let flat := concat (to_float m) in
    changed ← take_at flat (pur_coords ++ pyr_coords ++ tv_coords);
    let p := (Qsum changed / inject_Z total)%Q in
    purs ← take_at freqs pur_indices;
    let freq_purs := Qsum purs in
    let prod_purs := Qprod purs in
    pyrs ← take_at freqs pyr_indices;
    let freq_pyrs := Qsum pyrs in
    let prod_pyrs := Qprod pyrs in
    (* purine transition diffs *)
    pur_ts ← take_at flat pur_coords;
    let pur_ts_diffs := (Qsum pur_ts / inject_Z total)%Q in
    (* pyr transition diffs *)
    pyr_ts ← take_at flat pyr_coords;
    let pyr_ts_diffs := (Qsum pyr_ts / inject_Z total)%Q in
    (* transversions *)
    tv ← take_at flat tv_coords;
    let tv_diffs := (Qsum tv / inject_Z total)%Q in
    let coeff1 := (2 * prod_purs / freq_purs)%Q in
    let coeff2 := (2 * prod_pyrs / freq_pyrs)%Q in
    let coeff3 := (2 * (freq_purs * freq_pyrs
                        - (prod_purs * freq_pyrs / freq_purs)
                        - (prod_pyrs * freq_purs / freq_pyrs)))%Q in
    let term1 := (1 - pur_ts_diffs / coeff1 - tv_diffs / (2 * freq_purs))%Q in
    let term2 := (1 - pyr_ts_diffs / coeff2 - tv_diffs / (2 * freq_pyrs))%Q in
    let term3 := (1 - tv_diffs / (2 * freq_purs * freq_pyrs))%Q in
    if Qle_bool term1 0 || Qle_bool term2 0 || Qle_bool term3 0 then
      Some invalid (* log will fail *)
    else
      let dist := (- Q2R coeff1 * ln (Q2R term1) - Q2R coeff2 * ln (Q2R term2)
                   - Q2R coeff3 * ln (Q2R term3))%R in
      let v1 := (1 / term1)%Q in
      let v2 := (1 / term2)%Q in
      let v3 := (1 / term3)%Q in
      let v4 := ((coeff1 * v1 / (2 * freq_purs))
                 + (coeff2 * v2 / (2 * freq_pyrs))
                 + (coeff3 * v3 / (2 * freq_purs * freq_pyrs)))%Q in
      let var := (v1 * v1 * pur_ts_diffs + v2 * v2 * pyr_ts_diffs
                  + v4 * v4 * tv_diffs
                  - (v1 * pur_ts_diffs + v2 * pyr_ts_diffs + v4 * tv_diffs)
                    * (v1 * pur_ts_diffs + v2 * pyr_ts_diffs + v4 * tv_diffs))%Q in
      let var := (var / inject_Z total)%Q in
      Some (num_Z total, num_Q p, PNum dist, num_Q var).

(** [frequency = matrix.copy()], then every entry that is on the diagonal
    (the mask [eye] of the shape of the matrix) and equal to zero is set
    to [0.5]. *)
Definition replace_zero_diag (m : matrix) : qmatrix :=
  imap (λ i row,
          imap (λ j x, if (x =? 0) && (i =? j)%nat then (1 # 2)%Q else inject_Z x) row)
       m.

(** [frequency /= frequency.sum()] *)
Definition normalise (f : qmatrix) : qmatrix :=
  let s := qmatrix_sum f in
  map (map (λ x, (x / s)%Q)) f.


(** What [_logdetcommon] hands to its two callers. *)
Record logdet_base : Type := LogdetBase {
  base_total : Z;
  base_p : Q;
  base_frequency : qmatrix;
  base_freqs : list Q * list Q;   (* the sums along axis 0 and along axis 1 *)
  base_var_term : Q
}.

Section Linalg.
(** [det] and [inv], imported from [numpy.linalg]: a matrix is handed to
    them and a floating point number, which is a rational, or a matrix comes
    back.  [inv] raises [LinAlgError] for a matrix whose factorisation meets
    a zero pivot, where [det] returns [0]; the source calls [inv] only on a
    matrix whose [det] it has found positive. *)
Variable det : qmatrix → Q.
Variable inv : qmatrix → qmatrix.

(** [_logdetcommon(matrix)].  The source returns [(None,) * 5] for an invalid
    matrix, and both callers only test [frequency is None]: that tuple is
    [None] here. *)
Definition _logdetcommon (m : matrix) : option logdet_base :=
  let total := matrix_sum m in
  let diffs := total - trace m in
  if total =? 0 then None
  else
    let p := (inject_Z diffs / inject_Z total)%Q in
    if diffs =? 0 then None (* seqs identical *)
    else
      let frequency := replace_zero_diag m in
      let frequency := normalise frequency in
      if Qle_bool (det frequency) 0 then None
      else
        let M_matrix := map (map (λ x, (x * x)%Q)) (inv frequency) in
        let freqs := (qcol_sums frequency, qrow_sums frequency) in
        let var_term := Qsum (qdiagonal (dot M_matrix frequency)) in
        Some (LogdetBase total p frequency freqs var_term).

(** [sqrt((freqs[0] * freqs[1]).prod())] *)
Definition sqrt_prod_freqs (freqs : list Q * list Q) : R :=
  sqrt (Q2R (Qprod (zip_with Qmult freqs.1 freqs.2))).

(** the sum of a list of real numbers *)
Definition Rsum (xs : list R) : R := foldr Rplus 0%R xs.

(** [_paralinear(matrix)] *)
Definition _paralinear (m : matrix) : stats :=
  match _logdetcommon m with
  | None => invalid
  | Some b =>
      let r := length m in
      let frequency := base_frequency b in
      let freqs := base_freqs b in
      let d_xy := (- ln (Q2R (det frequency) / sqrt_prod_freqs freqs) / INR r)%R in
      let var := ((Q2R (base_var_term b)
                   - Rsum (map (λ f, (1 / sqrt (Q2R f))%R)
                               (zip_with Qmult freqs.1 freqs.2)))
                  / (INR r * INR r * IZR (base_total b)))%R in
      (num_Z (base_total b), num_Q (base_p b), PNum d_xy, PNum var)
  end.

(** [_logdet(matrix, use_tk_adjustment=True)] *)
Definition _logdet (m : matrix) (use_tk_adjustment : bool) : stats :=
  match _logdetcommon m with
  | None => invalid
  | Some b =>
      let r := length m in
      let frequency := base_frequency b in
      let freqs := base_freqs b in
      if use_tk_adjustment then
        let coeff :=
          ((Qsum (map (λ f, (f * f)%Q) (zip_with Qplus freqs.1 freqs.2)) / 4 - 1)
           / (inject_Z (Z.of_nat r) - 1))%Q in
        let d_xy := (Q2R coeff * ln (Q2R (det frequency) / sqrt_prod_freqs freqs))%R in
        (num_Z (base_total b), num_Q (base_p b), PNum d_xy, PNone)
      else
        let d_xy := (- ln (Q2R (det frequency)) / INR r - ln (INR r))%R in
        let var := ((base_var_term b / (inject_Z (Z.of_nat r) * inject_Z (Z.of_nat r)) - 1)
                    / inject_Z (base_total b))%Q in
        (num_Z (base_total b), num_Q (base_p b), PNum d_xy, num_Q var)
  end.
End Linalg.

(** ** The pairwise runner *)

(** [Stats = namedtuple("Stats", ["length", "fraction_variable", "dist", "variance"])] *)
Record Stats : Type := MkStats {
  length_ : pyval;
  fraction_variable : pyval;
  dist : pyval;
  variance : pyval
}.

(** A pair of names, the key of every dictionary of statistics. *)
Abbreviation pair_key := (string * string)%type (only parsing).

(** The attributes of a [_PairwiseDistance] object that [run] and the views
    use, after [_convert_seqs_to_indices] has stored an alignment (before
    that [names] is [None] and [run] raises). *)
Record calculator_state : Type := MkState {
  names : list string;
  indexed_seqs : list (list Z);
  _dim : nat;
  _dists : gmap pair_key Stats;
  _dupes : option (list string);
  _duped : option (list (string * list string))
}.

(** A Python [dict] with string keys, in insertion order: [d[k] = v]
    replaces the value of a key that is present and appends a new key. *)
Fixpoint dict_set {V} (k : string) (v : V) (d : list (string * V)) : list (string * V) :=
  match d with
  | [] => [(k, v)]
  | (k', v') :: rest =>
      if decide (k' = k) then (k, v) :: rest else (k', v') :: dict_set k v rest
  end.

(** [duped[i].append(j)] on [duped = defaultdict(list)] *)
Fixpoint duped_append (i j : nat) (d : list (nat * list nat)) : list (nat * list nat) :=
  match d with
  | [] => [(i, [j])]
  | (k, v) :: rest =>
      if decide (k = i) then (k, v ++ [j]) :: rest else (k, v) :: duped_append i j rest
  end.

(** [off_diag = [(i, j) for i in range(dim) for j in range(dim) if i != j]] *)
Definition off_diag (dim : nat) : list (nat * nat) :=
  i ← seq 0 dim; j ← seq 0 dim; if decide (i ≠ j) then [(i, j)] else [].

(** [(matrix[off_diag] > 0).any()].  [off_diag] is turned into a tuple of
    two index tuples by [zip]; for [dim <= 1] there is no coordinate, the
    tuple is empty and [matrix[()]] is the whole matrix. *)
Definition any_off_diag (dim : nat) (m : matrix) : bool :=
  match off_diag dim with
  | [] => existsb (existsb (λ x, 0 <? x)) m
  | coords => existsb (λ ij, 0 <? entry m ij.1 ij.2) coords
  end.

(** a loop [for x in xs: st = body(st, x)] whose body may raise *)
Fixpoint for_each {S A} (body : S → A → option S) (st : S) (xs : list A) : option S :=
  match xs with
  | [] => Some st
  | x :: rest => st' ← body st x; for_each body st' rest
  end.

(** [range(a, b)] *)
Definition range (a b : nat) : list nat := seq a (b - a).

(** The local variables of [run] that change in its loops, and the calls of
    [ui.display] made so far (message and progress, oldest first). *)
Record loop_state : Type := MkLoop {
  dupes : gset nat;
  duped : list (nat * list nat);
  dists : gmap pair_key Stats;
  done : Z;
  displayed : list (string * Q)
}.

Section Runner.
(** [self.func] applied to the matrix and [self._func_args]; [None] when
    it raises. *)
Variable func : matrix → option stats.

(** The body of the loop over [j], for one [i]. *)
Definition compare (c : calculator_state) (to_do : Q) (i : nat) (name_1 : string)
    (s1 : list Z) (st : loop_state) (j : nat) : option loop_state :=
  if decide (j ∈ dupes st) then Some st
  else
    name_2 ← names c !! j;
    let shown := displayed st ++ [(name_1 +:+ " vs " +:+ name_2,
                                   (inject_Z (done st) / to_do)%Q)] in
    let done' := done st + 1 in
    s2 ← indexed_seqs c !! j;
    m ← _fill_diversity_matrix (zeros (_dim c)) s1 s2;
    if negb (any_off_diag (_dim c) m) then
      (* j is a duplicate of i *)
      Some (MkLoop ({[j]} ∪ dupes st) (duped_append i j (duped st)) (dists st)
              done' shown)
    else
      r ← func m;
      let '(total, p, d, var) := r in
      let result := MkStats total p d var in
      Some (MkLoop (dupes st) (duped st)
              (<[(name_2, name_1) := result]> (<[(name_1, name_2) := result]> (dists st)))
              done' shown).

(** The body of the loop over [i]. *)
Definition compare_all (c : calculator_state) (to_do : Q) (st : loop_state) (i : nat)
  : option loop_state :=
  if decide (i ∈ dupes st) then Some st
  else
    name_1 ← names c !! i;
    s1 ← indexed_seqs c !! i;
    for_each (compare c to_do i name_1 s1) st (range (i + 1) (length (names c))).

(** [to_do = (len(names) * len(names) - 1) / 2] *)
Definition to_do (c : calculator_state) : Q :=
  ((inject_Z (Z.of_nat (length (names c))) * inject_Z (Z.of_nat (length (names c))) - 1)
   / 2)%Q.

(** The two nested loops of [run], from empty [dupes] and [duped]. *)
Definition pairwise (c : calculator_state) : option loop_state :=
  for_each (compare_all c (to_do c)) (MkLoop ∅ [] (_dists c) 0 [])
    (range 0 (length (names c) - 1)).

(** [[names[i] for i in v]] *)
Definition names_of (c : calculator_state) (v : list nat) : option (list string) :=
  mapM (λ i, names c !! i) v.

(** [self._duped = {}] and the loop that fills it from [duped.items()] *)
Fixpoint named_duped (c : calculator_state) (items : list (nat * list nat))
    (acc : list (string * list string)) : option (list (string * list string)) :=
  match items with
  | [] => Some acc
  | (k, v) :: rest =>
      key ← names c !! k;
      vals ← names_of c v;
      named_duped c rest (dict_set key vals acc)
  end.

(** the cleaning loop: [del self._dists[key]] for every key that shares a
    name with [remove] *)
Definition clean (remove : list string) (d : gmap pair_key Stats) : gmap pair_key Stats :=
  filter (λ kv, (kv.1.1 ∉ remove) ∧ (kv.1.2 ∉ remove)) d.

(** [run(self)], with the progress shown on the way.  [dupes] is a set;
    the order in which its members are listed does not matter, as the
    list is only tested for emptiness and turned into the set [remove]. *)
Definition run_shown (c : calculator_state) : option (calculator_state * list (string * Q)) :=
  st ← pairwise c;
  dupe_names ← names_of c (elements (dupes st));
  let _dupes' := match dupe_names with [] => None | _ => Some dupe_names end in
  match duped st with
  | [] =>
      Some (MkState (names c) (indexed_seqs c) (_dim c) (dists st) _dupes' None,
            displayed st)
  | items =>
      named ← named_duped c items [];
      Some (MkState (names c) (indexed_seqs c) (_dim c) (clean dupe_names (dists st))
              _dupes' (Some named),
            displayed st)
  end.

Definition run (c : calculator_state) : option calculator_state :=
  fst <$> run_shown c.
End Runner.

(** ** The assembler *)

(** [self.duplicated] *)
Definition duplicated (c : calculator_state) : option (list (string * list string)) :=
  _duped c.

(** [redundants = {}] and the loops [for k in self.duplicated:
    for r in self.duplicated[k]: redundants[r] = k] *)
Definition redundants_of (d : list (string * list string)) : list (string * string) :=
  foldl (λ acc kv, foldl (λ acc r, dict_set r kv.1 acc) acc kv.2) [] d.

(** the body of [for name in names] in [_expand], for one [(add, alias)] *)
Definition expand_name (add alias : string) (pwise : gmap pair_key pyval) (name : string)
  : gmap pair_key pyval :=
  if decide (name = add) then pwise
  else
    let val := if decide (name = alias) then PNum 0
               else default PNone (pwise !! (alias, name)) in
    <[(name, add) := val]> (<[(add, name) := val]> pwise).

(** [_expand(self, pwise)] *)
Definition _expand (c : calculator_state) (pwise : gmap pair_key pyval)
  : gmap pair_key pyval :=
  match duplicated c with
  | None | Some [] => pwise (* no duplicates, nothing to do *)
  | Some d =>
      foldl (λ pwise aa, foldl (expand_name aa.1 aa.2) pwise (names c))
            pwise (redundants_of d)
  end.

(** [{k: self._dists[k].dist for k in self._dists}] and its siblings, for a
    field of [Stats] *)
Definition view (field : Stats → pyval) (c : calculator_state) : gmap pair_key pyval :=
  field <$> _dists c.

(** The dictionary [dists] of [get_pairwise_distances(include_duplicates)].
    The method hands it to [DistanceMatrix], a [DictArray] of the library,
    which is not part of the embedding (it raises for an empty
    dictionary). *)
Definition get_pairwise_distances (c : calculator_state) (include_duplicates : bool)
  : gmap pair_key pyval :=
  let d := view dist c in
  if include_duplicates then _expand c d else d.

(** NumPy's [sqrt] on a Python value: [None] has no [sqrt], the call raises
    [TypeError].  (For a negative number NumPy warns and yields [nan]; the
    real [sqrt] of the model is [0] there.) *)
Definition np_sqrt (v : pyval) : result pyval :=
  match v with
  | PNone => Raise TypeError
  | PNum x => Ok (PNum (sqrt x))
  end.

(** [{k: sqrt(self._dists[k].variance) for k in self._dists}] *)
Definition sqrt_variances (d : gmap pair_key Stats) : result (gmap pair_key pyval) :=
  map_fold (λ k s acc,
              match acc with
              | Raise e => Raise e
              | Ok acc =>
                  match np_sqrt (variance s) with
                  | Raise e => Raise e
                  | Ok v => Ok (<[k := v]> acc)
                  end
              end)
           (Ok ∅) d.

(** The dictionary [stats] of the [stderr] property: the square roots of the
    variances, then the duplicates expanded.  The property hands it to
    [_make_stat_table]; with that step it is [stderr_table] below. *)
Definition stderr (c : calculator_state) : result (gmap pair_key pyval) :=
  match sqrt_variances (_dists c) with
  | Raise e => Raise e
  | Ok stats => Ok (_expand c stats)
  end.

(** the dictionaries behind the properties [variances], [proportions],
    [lengths] and [dists] *)
Definition variances (c : calculator_state) : gmap pair_key pyval :=
  _expand c (view variance c).
Definition proportions (c : calculator_state) : gmap pair_key pyval :=
  _expand c (view fraction_variable c).
Definition lengths (c : calculator_state) : gmap pair_key pyval :=
  _expand c (view length_ c).
Definition dists_table (c : calculator_state) : gmap pair_key pyval :=
  _expand c (view dist c).

(** ** The calculator registry *)

(** The five calculator classes. *)
Inductive calculator : Type :=
| ParalinearPair
| LogDetPair
| JC69Pair
| TN93Pair
| HammingPair.

(** the items of [_calculators] *)
Definition calculator_items : list (string * calculator) :=
  [("paralinear", ParalinearPair);
   ("logdet", LogDetPair);
   ("jc69", JC69Pair);
   ("tn93", TN93Pair);
   ("hamming", HammingPair)].

(** [_calculators] *)
Definition _calculators : gmap string calculator := list_to_map calculator_items.

(** [str.lower] on one character.  A Rocq string is a sequence of bytes:
    the letters [A] to [Z] are mapped, every other byte is kept.  (Python
    also lowers letters outside of ASCII, none of them to a letter that
    occurs in a key of [_calculators].) *)
Definition lower_char (ch : ascii) : ascii :=
  let n := nat_of_ascii ch in
  if (65 <=? n)%nat && (n <=? 90)%nat then ascii_of_nat (n + 32) else ch.

(** [name.lower()] *)
Fixpoint lower (s : string) : string :=
  match s with
  | EmptyString => EmptyString
  | String ch rest => String (lower_char ch) (lower rest)
  end.

(** the character of a double quote *)
Definition quote : ascii := ascii_of_nat 34.

(** [get_calculator(name, ...)].  [Ok cls] is the call of the constructor
    of the class [cls] on the remaining arguments. *)
Definition get_calculator (name : string) : result calculator :=
  let name := lower name in
  match _calculators !! name with
  | None =>
      Raise (ValueError ("Unknown pairwise distance calculator " +:+ String quote name
                         +:+ String quote EmptyString))
  | Some calc => Ok calc
  end.

(** Two characters that differ at most in the case of a letter. *)
Definition same_letter (a b : ascii) : bool :=
  bool_decide (lower_char a = lower_char b).

(** [s] is [t] up to the case of its letters. *)
Fixpoint case_variant (s t : string) : bool :=
  match s, t with
  | EmptyString, EmptyString => true
  | String a s', String b t' => same_letter a b && case_variant s' t'
  | _, _ => false
  end.

(** ** Vocabulary of the statements *)

(** A [K] by [K] array. *)
Definition square (K : nat) (m : matrix) : Prop :=
  length m = K ∧ Forall (λ row, length row = K) m.

(** A matrix of counts: no entry is negative. *)
Definition counts (m : matrix) : Prop := Forall (Forall (λ x, 0 <= x)) m.

(** The proportion of changes [(total - trace) / total] of a matrix, as a
    real number. *)
Definition proportion (m : matrix) : R :=
  ((IZR (matrix_sum m) - IZR (trace m)) / IZR (matrix_sum m))%R.

(** The matrix of two sequences of ten sites that differ at two sites. *)
Definition two_changes_in_ten : matrix :=
  [[2; 1; 0; 0]; [0; 3; 0; 0]; [0; 0; 2; 1]; [0; 0; 0; 1]].

(** The matrix of two sequences of four sites that differ at two sites. *)
Definition two_changes_in_four : matrix :=
  [[1; 1; 0; 0]; [0; 1; 0; 0]; [0; 0; 0; 1]; [0; 0; 0; 0]].

(** The matrix of two sequences that agree at their only valid site. *)
Definition one_site : matrix :=
  [[1; 0; 0; 0]; [0; 0; 0; 0]; [0; 0; 0; 0]; [0; 0; 0; 0]].

(** A dictionary of pairs with the same entry under both orderings of
    every pair. *)
Definition symmetric {V} (d : gmap pair_key V) : Prop :=
  ∀ x y, d !! (x, y) = d !! (y, x).

(** The representative of a name under the list [redundants] of
    [(duplicate, representative)] items; a name that is no duplicate stands
    for itself. *)
Fixpoint rep (redundants : list (string * string)) (x : string) : string :=
  match redundants with
  | [] => x
  | (add, alias) :: rest => if decide (x = add) then alias else rep rest x
  end.

(** [sqrt] of a variance that is a number *)
Definition sqrt_of (s : Stats) : pyval :=
  match variance s with
  | PNone => PNone
  | PNum x => PNum (sqrt x)
  end.

(** A calculator with the Hamming estimator, [HammingPair]: [self.func] is
    [_hamming] and [self._func_args] is empty. *)
Definition hamming_func (m : matrix) : option stats := Some (_hamming m).

(** Three sequences of one site over four states, all different. *)
Definition three_distinct : calculator_state :=
  MkState ["s1"; "s2"; "s3"] [[0]; [1]; [2]] 4 ∅ None None.

(** Four sequences of two sites: [b] repeats [a] and [d] repeats [c]. *)
Definition two_twins : calculator_state :=
  MkState ["a"; "b"; "c"; "d"] [[0; 1]; [0; 1]; [2; 1]; [2; 1]] 4 ∅ None None.

(** The name at an index of [names]. *)
Definition name_at (c : calculator_state) (i : nat) : string :=
  default EmptyString (names c !! i).

(** What holds of the local state of [run] when the pairs before row [row],
    and the pairs of row [row] before column [col], have been compared:
    the keys of [duped] are different indices below [bound] that are no
    duplicates, the duplicates are the indices listed in [duped], each
    once, and every pair compared so far and free of duplicates is in the
    store under both orderings. *)
Record loop_inv (c : calculator_state) (bound row col : nat) (st : loop_state)
  : Prop := LoopInv {
  inv_keys : NoDup (duped st).*1;
  inv_vals : NoDup (concat (duped st).*2);
  inv_dupes : ∀ x, x ∈ dupes st ↔ x ∈ concat (duped st).*2;
  inv_reps : ∀ k, k ∈ (duped st).*1 → (k < bound)%nat ∧ k ∉ dupes st;
  inv_range : ∀ x, x ∈ dupes st → (x < length (names c))%nat;
  inv_complete :
    ∀ a b na nb,
      (a < b)%nat → (a < row ∨ (a = row ∧ b < col))%nat →
      a ∉ dupes st → b ∉ dupes st →
      names c !! a = Some na → names c !! b = Some nb →
      is_Some (dists st !! (na, nb)) ∧ is_Some (dists st !! (nb, na))
}.

(** the items of [redundants] when no duplicate is listed twice *)
Definition flat_redundants (d : list (string * list string)) : list (string * string) :=
  kv ← d; (λ r : string, (r, kv.1)) <$> kv.2.

(** the items of [self._duped] when the names are distinct *)
Definition named_items (c : calculator_state) (items : list (nat * list nat))
  : list (string * list string) :=
  (λ kv : nat * list nat, (name_at c kv.1, name_at c <$> kv.2)) <$> items.

(** the value that the loop over the names writes for [name] *)
Definition alias_value (alias : string) (pwise : gmap pair_key pyval) (name : string)
  : pyval :=
  if decide (name = alias) then PNum 0 else default PNone (pwise !! (alias, name)).

(** The dictionary after the items [done_] of [redundants] have been
    expanded over the names [names_], from the dictionary [pw0]: a pair with a duplicate holds the entry of the two
    representatives, and [0] when these are one name; a pair without a
    duplicate is as it was. *)
Definition expanded (names_ : list string) (pw0 : gmap pair_key pyval)
    (done_ : list (string * string)) (pwise : gmap pair_key pyval) : Prop :=
  ∀ x y, x ∈ names_ → y ∈ names_ → x ≠ y →
    pwise !! (x, y)
    = if decide (x ∈ done_.*1 ∨ y ∈ done_.*1) then
        Some (if decide (rep done_ x = rep done_ y) then PNum 0
              else default PNone (pw0 !! (rep done_ x, rep done_ y)))
      else pw0 !! (x, y).


(** The state that [_convert_seqs_to_indices] leaves for an alignment:
    one indexed sequence per name, all of one length, with indices below
    the alphabet size. *)
Definition aligned (c : calculator_state) : Prop :=
  length (indexed_seqs c) = length (names c)
  ∧ ∃ L, Forall (λ s, length s = L ∧ Forall (λ a, a < Z.of_nat (_dim c)) s)
           (indexed_seqs c).

(** The number of comparisons counted is the number of reports, and
    report number [k] shows [k] over the denominator [q]. *)
Definition counted (q : Q) (st : loop_state) : Prop :=
  done st = Z.of_nat (length (displayed st))
  ∧ ∀ k r, displayed st !! k = Some r → r.2 = (inject_Z (Z.of_nat k) / q)%Q.


(** The number of alignment columns at which the first sequence holds the
    index [a] and the second one the index [b]. *)
Definition columns_with (a b : Z) (seq1 seq2 : list Z) : Z :=
  Z.of_nat (length (filter (λ xy, xy = (a, b)) (zip seq1 seq2))).

(** ** The alphabet indexer *)

(** What an [int32] array holds after a Python integer has been stored in
    it: the integer of 32 bits, in two's complement, with the same low 32
    bits.  An integer from [-2^31] up to [2^31 - 1] is kept. *)
Definition int32 (z : Z) : Z := (z + 2 ^ 31) mod 2 ^ 32 - 2 ^ 31.

(** [get_moltype_index_array(moltype, invalid)].  Of the molecular type the
    function reads [list(moltype)], the canonical characters, and
    [moltype.All.keys()], all its characters; these are the two lists.  The
    table is an [int32] array: [fill(invalid)] and [char_to_index[o] = i]
    store [int32] values.  [max] of no character raises [ValueError] and an
    assignment [char_to_index[o] = i] outside of the array raises
    [IndexError]: both are [None]. *)
Definition get_moltype_index_array (canonical_chars all_keys : list ascii)
    (invalid : Z) : option (list Z) :=
  match all_keys with
  | [] => None
  | _ =>
      (* maximum ordinal for an allowed character *)
      let max_ord := max_list (nat_of_ascii <$> all_keys) in
      (* all non canonical_chars are invalid *)
      let char_to_index := replicate (max_ord + 1) (int32 invalid) in
      for_each
        (λ char_to_index i,
           c ← canonical_chars !! i;
           let o := nat_of_ascii c in
           if decide (o < length char_to_index)%nat
           then Some (<[o := int32 (Z.of_nat i)]> char_to_index)
           else None)
        char_to_index (range 0 (length canonical_chars))
  end.

(** [seq_to_indices(seq, char_to_index)]; [take] raises [IndexError] for
    an ordinal outside of the array. *)
Definition seq_to_indices (seq : list ascii) (char_to_index : list Z)
  : option (list Z) :=
  let ords := nat_of_ascii <$> seq in
  take_at char_to_index ords.

(** The diversity matrix of the sequences at two indices of the
    alignment, filled from the zero matrix as [run] does. *)
Definition pair_matrix (c : calculator_state) (i j : nat) : option matrix :=
  s1 ← indexed_seqs c !! i;
  s2 ← indexed_seqs c !! j;
  _fill_diversity_matrix (zeros (_dim c)) s1 s2.

(** The statistics [s] under [key] are what the estimator returns for the
    matrix of a pair of sequences, the first one earlier in the alignment,
    whose matrix has a positive entry off the diagonal. *)
Definition computed (func : matrix → option stats) (c : calculator_state)
    (key : pair_key) (s : Stats) : Prop :=
  ∃ i j n1 n2 m,
    (i < j)%nat ∧ names c !! i = Some n1 ∧ names c !! j = Some n2
    ∧ (key = (n1, n2) ∨ key = (n2, n1))
    ∧ pair_matrix c i j = Some m
    ∧ any_off_diag (_dim c) m = true
    ∧ func m = Some (length_ s, fraction_variable s, dist s, variance s).

(** The sequence at [j] comes after the one at [i] and their matrix has no
    positive entry off the diagonal. *)
Definition no_changes (c : calculator_state) (i j : nat) : Prop :=
  (i < j)%nat ∧ ∃ m, pair_matrix c i j = Some m ∧ any_off_diag (_dim c) m = false.

(** the names of [self._dupes], none for [None] *)
Definition dupe_names (c : calculator_state) : list string := default [] (_dupes c).

(** ** The table of a statistic *)

(** A cell of the rows handed to [LoadTable]: a name or a value. *)
Inductive cell : Type :=
| CName (s : string)
| CVal (v : pyval).

(** [rows[i, j] = val].  The indices that [_make_stat_table] uses are
    inside of the array. *)
Definition set_cell (rows : list (list cell)) (i j : nat) (val : cell)
  : list (list cell) :=
  alter (λ row, <[j := val]> row) i rows.

(** the body of the loop over [j] of [_make_stat_table]; [stats[(n1, n2)]]
    raises [KeyError] for a missing pair, which is [None] *)
Definition stat_row (stats : gmap pair_key pyval) (names_ : list string) (i : nat)
    (n1 : string) (rows : list (list cell)) (j : nat) : option (list (list cell)) :=
  n2 ← names_ !! j;
  val ← stats !! (n1, n2);
  Some (set_cell (set_cell rows i j (CVal val)) j i (CVal val)).

(** [_make_stat_table(stats, names)], up to the header and the rows that
    are handed to [LoadTable]: [zeros] with [dtype="O"] holds the integer
    [0], the two loops copy each statistic to both triangles, and the last
    loop puts the name in front of each row. *)
Definition _make_stat_table (stats : gmap pair_key pyval) (names_ : list string)
  : option (list string * list (list cell)) :=
  let header := "Seq1 \ Seq2" :: names_ in
  let n := length names_ in
  let rows := replicate n (replicate n (CVal (PNum 0))) in
  rows ← for_each
           (λ rows i,
              n1 ← names_ !! i;
              for_each (stat_row stats names_ i n1) rows (range (i + 1) n))
           rows (range 0 (n - 1));
  rows ← for_each
           (λ rows i, name ← names_ !! i; Some (alter (λ row, CName name :: row) i rows))
           rows (range 0 n);
  Some (header, rows).

(** The [stderr] property: the dictionary of the square roots, with the
    duplicates expanded, laid out by [_make_stat_table], whose [KeyError]
    for a missing pair goes to the caller. *)
Definition stderr_table (c : calculator_state)
  : result (list string * list (list cell)) :=
  match stderr c with
  | Raise e => Raise e
  | Ok stats =>
      match _make_stat_table stats (names c) with
      | None => Raise KeyError
      | Some t => Ok t
      end
  end.

(** the cell of row [a] under the column of name number [b] *)
Definition table_cell (rows : list (list cell)) (a b : nat) : option cell :=
  rows !! a ≫= λ row, row !! S b.

(** the cell at [(a, b)] of the array of statistics, before the names are
    put in front *)
Definition grid_cell (rows : list (list cell)) (a b : nat) : option cell :=
  rows !! a ≫= λ row, row !! b.

(** an [n] by [n] array of cells *)
Definition grid (n : nat) (rows : list (list cell)) : Prop :=
  length rows = n ∧ Forall (λ row, length row = n) rows.

(** what the array holds when the pairs before row [row], and those of row
    [row] before column [col], have been copied *)
Definition copied (stats : gmap pair_key pyval) (names_ : list string)
    (row col : nat) (rows : list (list cell)) : Prop :=
  grid (length names_) rows
  ∧ (∀ a, (a < length names_)%nat → grid_cell rows a a = Some (CVal (PNum 0)))
  ∧ ∀ a b na nb,
      (a < b)%nat → (a < row ∨ (a = row ∧ b < col))%nat →
      names_ !! a = Some na → names_ !! b = Some nb →
      ∃ v, stats !! (na, nb) = Some v
           ∧ grid_cell rows a b = Some (CVal v)
           ∧ grid_cell rows b a = Some (CVal v).

(** The result [r] of an estimator for the matrix [m] is the invalid tuple,
    or starts with the total of [m] and its proportion of changes. *)
Definition agrees (m : matrix) (r : stats) : Prop :=
  r = invalid
  ∨ ∃ d var, r = (PNum (IZR (matrix_sum m)), PNum (proportion m), d, var).

(** ** The coordinates of TN93 *)

(** [get_matrix_diff_coords(indices)] *)
Definition get_matrix_diff_coords (indices : list nat) : list (nat * nat) :=
  i ← indices; j ← indices; if decide (i ≠ j) then [(i, j)] else [].

(** [l.remove(x)]: the list without its first [x]; [ValueError], which is
    [None], when [x] is not in the list. *)
Fixpoint list_remove (x : nat * nat) (l : list (nat * nat)) : option (list (nat * nat)) :=
  match l with
  | [] => None
  | y :: rest => if decide (y = x) then Some rest else (y ::.) <$> list_remove x rest
  end.

(** [i * 4 + j], the position of [(i, j)] in a flattened matrix of four
    columns *)
Definition flatten_coord (ij : nat * nat) : nat := ij.1 * 4 + ij.2.

(** The coordinates that [TN93Pair.__init__] computes from the purine and
    the pyrimidine indices: [(pur_coords, pyr_coords, tv_coords)], in the
    order in which they are passed to [_tn93_from_matrix]. *)
Definition tn93_coords (dim : nat) (pur_indices pyr_indices : list nat)
  : option (list nat * list nat * list nat) :=
  (* matrix coordinates *)
  let pyr_coords := get_matrix_diff_coords pyr_indices in
  let pur_coords := get_matrix_diff_coords pur_indices in
  let tv_coords := get_matrix_diff_coords (seq 0 dim) in
  match for_each (λ tv coord, list_remove coord tv) tv_coords
                 (pur_coords ++ pyr_coords) with
  | None => None
  | Some tv_coords =>
      (* flattened *)
      Some (flatten_coord <$> pur_coords, flatten_coord <$> pyr_coords,
            flatten_coord <$> tv_coords)
  end.

(** ** The purines and the pyrimidines *)

(** [_same_moltype(ref, query)].  A molecular type is read through
    [list(moltype)] and [set(moltype)] only: it is the list of its states. *)
Definition _same_moltype (ref query : list ascii) : bool :=
  bool_decide (list_to_set ref =@{gset ascii} list_to_set query).

(** What the two index functions raise: the [RuntimeError] of their own,
    and the [ValueError] of [states.index] for a character that is no
    state. *)
Inductive index_error : Type :=
| RuntimeError (msg : string)
| NotInList.

(** [states.index(ch)]: the first position that holds [ch] *)
Definition index (states : list ascii) (ch : ascii) : option nat :=
  fst <$> list_find (λ s, s = ch) states.

(** [list(map(states.index, chars))] *)
Definition indices_of (states chars : list ascii) : index_error + list nat :=
  match mapM (index states) chars with
  | Some l => inr l
  | None => inl NotInList
  end.

Section Nucleic.
(** the states of the molecular types [DNA] and [RNA] of [cogent3] *)
Variables DNA RNA : list ascii.

(** [get_pyrimidine_indices(moltype)] *)
Definition get_pyrimidine_indices (moltype : list ascii) : index_error + list nat :=
  let states := moltype in
  if _same_moltype RNA moltype then indices_of states ["C"; "U"]%char
  else if _same_moltype DNA moltype then indices_of states ["C"; "T"]%char
  else inl (RuntimeError "Non-nucleic acid MolType").

(** [get_purine_indices(moltype)] *)
Definition get_purine_indices (moltype : list ascii) : index_error + list nat :=
  let states := moltype in
  if negb (_same_moltype RNA moltype) && negb (_same_moltype DNA moltype)
  then inl (RuntimeError "Non-nucleic acid MolType")
  else indices_of states ["A"; "G"]%char.
End Nucleic.

(** ** From an alignment to the indexed sequences *)

(** Of an alignment the calculator reads [alignment.names] and, for each of
    these names, the characters of [alignment.get_gapped_seq(name)]. *)
Record Alignment : Type := MkAlignment {
  aln_names : list string;
  get_gapped_seq : string → list ascii
}.

(** [_convert_seqs_to_indices(self, alignment)], given the table
    [self.char_to_indices]: it replaces the names, the indexed sequences and
    the store, and leaves the other attributes. *)
Definition _convert_seqs_to_indices (char_to_indices : list Z) (c : calculator_state)
    (alignment : Alignment) : option calculator_state :=
  let names_ := aln_names alignment in
  indexed_seqs_ ←
    for_each (λ indexed_seqs_ name,
                let seq := get_gapped_seq alignment name in
                indexed ← seq_to_indices seq char_to_indices;
                Some (indexed_seqs_ ++ [indexed]))
             [] names_;
  Some (MkState names_ indexed_seqs_ (_dim c) ∅ (_dupes c) (_duped c)).

(** [_PairwiseDistance.__init__] with an alignment, from the point where the
    label of the molecular type has been found among [valid_moltypes]: the
    index table, the alphabet size, the empty attributes and the
    conversion of the alignment. *)
Definition init (canonical_chars all_keys : list ascii) (invalid : Z)
    (alignment : Alignment) : option calculator_state :=
  char_to_indices ← get_moltype_index_array canonical_chars all_keys invalid;
  let _dim := length canonical_chars in
  _convert_seqs_to_indices char_to_indices (MkState [] [] _dim ∅ None None) alignment.

(** Every pair of names, the first one earlier in the list, has a statistic:
    the keys that the two loops of [_make_stat_table] read. *)
Definition all_pairs_in (names_ : list string) (stats : gmap pair_key pyval) : Prop :=
  ∀ a b na nb, (a < b)%nat → names_ !! a = Some na → names_ !! b = Some nb →
               is_Some (stats !! (na, nb)).

(** * Properties *)

(** ** The diversity matrix builder *)

Lemma row_sum_insert (row : list Z) (j : nat) (x y : Z) :
  row !! j = Some x → row_sum (<[j := y]> row) = row_sum row - x + y.
Proof.
  revert j. induction row as [|z row IH]; intros [|j] Hj; simplify_eq/=.
  - lia.
  - rewrite (IH j Hj). lia.
Qed.

Lemma matrix_sum_cons (row : list Z) (m : matrix) :
  matrix_sum (row :: m) = row_sum row + matrix_sum m.
Proof. reflexivity. Qed.

Lemma matrix_sum_insert (m : matrix) (i : nat) (row row' : list Z) :
  m !! i = Some row →
  matrix_sum (<[i := row']> m) = matrix_sum m - row_sum row + row_sum row'.
Proof.
  revert i. induction m as [|r m IH]; intros [|i] Hi; [done|done| |].
  - injection Hi as ->. change (<[0%nat:=row']> (row :: m)) with (row' :: m).
    rewrite !matrix_sum_cons. lia.
  - change (<[S i:=row']> (r :: m)) with (r :: <[i:=row']> m).
    rewrite !matrix_sum_cons, (IH i Hi). lia.
Qed.

Lemma zeros_square (K : nat) : square K (zeros K).
Proof.
  split; [apply length_replicate|].
  apply Forall_replicate, length_replicate.
Qed.

Lemma row_sum_replicate_0 (n : nat) : row_sum (replicate n 0) = 0.
Proof. induction n; simpl; lia. Qed.

Lemma matrix_sum_replicate (n : nat) (row : list Z) :
  row_sum row = 0 → matrix_sum (replicate n row) = 0.
Proof.
  intros H0. induction n as [|n IH]; [done|].
  change (replicate (S n) row) with (row :: replicate n row).
  rewrite matrix_sum_cons, IH, H0. done.
Qed.

Lemma matrix_sum_zeros (K : nat) : matrix_sum (zeros K) = 0.
Proof. apply matrix_sum_replicate, row_sum_replicate_0. Qed.

(** One increment inside of the array succeeds, keeps the shape and adds
    one to the sum. *)
Lemma incr_inside (K : nat) (m : matrix) (a b : Z) :
  square K m → 0 <= a < Z.of_nat K → 0 <= b < Z.of_nat K →
  ∃ m', incr m a b = Some m' ∧ square K m' ∧ matrix_sum m' = matrix_sum m + 1.
Proof.
  intros [Hlen Hrows] Ha Hb.
  destruct (lookup_lt_is_Some_2 m (Z.to_nat a)) as [row Hrow]; [lia|].
  assert (length row = K) as Hrl.
  { rewrite Forall_forall in Hrows. apply Hrows. by eapply list_elem_of_lookup_2. }
  destruct (lookup_lt_is_Some_2 row (Z.to_nat b)) as [x Hx]; [lia|].
  exists (<[Z.to_nat a := <[Z.to_nat b := x + 1]> row]> m).
  unfold incr. rewrite Hrow. simpl. rewrite Hx. simpl.
  split; [done|]. split.
  - split; [by rewrite length_insert|].
    apply Forall_insert; [done|]. by rewrite length_insert.
  - rewrite (matrix_sum_insert _ _ row) by done.
    rewrite (row_sum_insert _ _ x) by done. lia.
Qed.

Lemma fill_pairs_inside (K : nat) (paired : list (Z * Z)) (m : matrix) :
  square K m →
  Forall (λ ab, 0 <= ab.1 < Z.of_nat K ∧ 0 <= ab.2 < Z.of_nat K) paired →
  ∃ m', fill_pairs m paired = Some m' ∧ square K m'
        ∧ matrix_sum m' = matrix_sum m + Z.of_nat (length paired).
Proof.
  revert m. induction paired as [|[a b] paired IH]; intros m Hm Hin.
  - exists m. simpl. repeat split; try apply Hm. lia.
  - inversion Hin as [|? ? [Ha Hb] Hrest]; subst. simpl in Ha, Hb.
    destruct (incr_inside K m a b Hm Ha Hb) as (m1 & E1 & Hm1 & S1).
    destruct (IH m1 Hm1 Hrest) as (m2 & E2 & Hm2 & S2).
    exists m2. simpl. rewrite E1. simpl. split; [done|]. split; [done|].
    rewrite S2, S1. lia.
Qed.

Lemma jointly_valid_spec (a b : Z) :
  jointly_valid (a, b) = (0 <=? a) && (0 <=? b).
Proof.
  unfold jointly_valid. simpl.
  destruct (0 <=? a) eqn:Ea, (0 <=? b) eqn:Eb; simpl; lia.
Qed.

Lemma valid_columns_filter (seq1 seq2 : list Z) :
  valid_columns seq1 seq2
  = Z.of_nat (length (filter (λ ab, jointly_valid ab = true) (zip seq1 seq2))).
Proof.
  revert seq2. induction seq1 as [|a s1 IH]; intros [|b s2]; simpl; try done.
  rewrite filter_cons, IH, <- jointly_valid_spec.
  destruct (decide (jointly_valid (a, b) = true)) as [E|E].
  - rewrite E. simpl. lia.
  - apply not_true_is_false in E. rewrite E. simpl. lia.
Qed.

(** C9. For two index-encoded sequences of one length whose indices are
    below the alphabet size [K], filling the zero matrix succeeds, and the
    sum of all entries of the diversity matrix is the number of aligned
    positions at which both indices are non-negative. *)
Theorem fill_diversity_matrix_sum (K : nat) (seq1 seq2 : list Z) :
  length seq1 = length seq2 →
  Forall (λ a, a < Z.of_nat K) seq1 →
  Forall (λ b, b < Z.of_nat K) seq2 →
  ∃ m, _fill_diversity_matrix (zeros K) seq1 seq2 = Some m
       ∧ square K m
       ∧ matrix_sum m = valid_columns seq1 seq2.
Proof.
  intros Hlen H1 H2. unfold _fill_diversity_matrix.
  rewrite bool_decide_eq_true_2 by done.
  destruct (fill_pairs_inside K
              (filter (λ ab, jointly_valid ab = true) (zip seq1 seq2)) (zeros K))
    as (m & E & Hm & S).
  - apply zeros_square.
  - apply Forall_forall. intros [a b] Hab.
    apply list_elem_of_filter in Hab as [Hv Hz].
    rewrite jointly_valid_spec in Hv. apply andb_true_iff in Hv as [Ha Hb].
    apply elem_of_zip_l in Hz as Hza. apply elem_of_zip_r in Hz as Hzb.
    rewrite Forall_forall in H1, H2. simpl in *.
    specialize (H1 _ Hza). specialize (H2 _ Hzb). lia.
  - exists m. split; [done|]. split; [done|].
    rewrite S, matrix_sum_zeros, valid_columns_filter. lia.
Qed.

Lemma fill_diversity_matrix_sum_witness :
  ∃ m, _fill_diversity_matrix (zeros 4) [0; 3; 2; -9; 1] [0; 3; 2; 1; 0] = Some m
       ∧ square 4 m
       ∧ matrix_sum m = valid_columns [0; 3; 2; -9; 1] [0; 3; 2; 1; 0].
Proof.
  apply (fill_diversity_matrix_sum 4 [0; 3; 2; -9; 1] [0; 3; 2; 1; 0]).
  - reflexivity.
  - repeat constructor.
  - repeat constructor.
Defined.

(** ** The calculator registry *)

Lemma lower_char_idemp (a : ascii) : lower_char (lower_char a) = lower_char a.
Proof. destruct a as [[] [] [] [] [] [] [] []]; reflexivity. Qed.

Lemma case_variant_lower (s t : string) :
  case_variant s t = true → lower s = lower t.
Proof.
  revert t. induction s as [|a s IH]; intros [|b t]; simpl; try done.
  intros [Hab Hst]%andb_true_iff.
  apply bool_decide_eq_true in Hab. rewrite Hab. f_equal. by apply IH.
Qed.

Lemma case_variant_of_lower (s : string) : case_variant s (lower s) = true.
Proof.
  induction s as [|a s IH]; simpl; [done|].
  rewrite IH, andb_true_r. apply bool_decide_eq_true.
  symmetry. apply lower_char_idemp.
Qed.

Lemma calculator_items_nodup : NoDup calculator_items.*1.
Proof. apply (bool_decide_unpack _). vm_compute. exact I. Qed.

Lemma calculator_keys_lower (key : string) (cls : calculator) :
  (key, cls) ∈ calculator_items → lower key = key.
Proof.
  unfold calculator_items. rewrite !elem_of_cons, elem_of_nil.
  intros H. repeat destruct H as [H|H]; try done; by injection H as -> ->.
Qed.

(** C10. [get_calculator] lowers the name first: a name that is one of the
    five identifiers up to the case of its letters yields the class of that
    identifier, and a name that is no case variant of any of them raises
    [ValueError]; there is no third outcome. *)
Theorem get_calculator_case_insensitive (name : string) :
  (∀ key cls, (key, cls) ∈ calculator_items → case_variant name key = true →
              get_calculator name = Ok cls)
  ∧ ((∀ key cls, (key, cls) ∈ calculator_items → case_variant name key = false) →
     ∃ msg, get_calculator name = Raise (ValueError msg))
  ∧ ((∃ cls, get_calculator name = Ok cls)
     ∨ (∃ msg, get_calculator name = Raise (ValueError msg))).
Proof.
  split; [|split].
  - intros key cls Hin Hcv. unfold get_calculator.
    rewrite (case_variant_lower _ _ Hcv), (calculator_keys_lower _ _ Hin).
    unfold _calculators.
    by rewrite (elem_of_list_to_map_1 _ _ _ calculator_items_nodup Hin).
  - intros Hno. unfold get_calculator.
    destruct (_calculators !! lower name) as [cls|] eqn:E; [|by eexists].
    apply elem_of_list_to_map_2 in E.
    pose proof (case_variant_of_lower name) as Hcv.
    rewrite (Hno _ _ E) in Hcv. discriminate.
  - unfold get_calculator.
    destruct (_calculators !! lower name); [left|right]; by eexists.
Qed.

Lemma get_calculator_case_insensitive_witness :
  get_calculator "ParaLinear" = Ok ParalinearPair
  ∧ get_calculator "JC69" = Ok JC69Pair
  ∧ ∃ msg, get_calculator "k2p" = Raise (ValueError msg).
Proof.
  split; [|split].
  - apply (get_calculator_case_insensitive "ParaLinear") with (key := "paralinear").
    + left.
    + reflexivity.
  - apply (get_calculator_case_insensitive "JC69") with (key := "jc69").
    + do 2 right. left.
    + reflexivity.
  - apply (get_calculator_case_insensitive "k2p").
    intros key cls Hin. unfold calculator_items in Hin.
    rewrite !elem_of_cons, elem_of_nil in Hin.
    repeat destruct Hin as [Hin|Hin]; try done; by injection Hin as -> ->.
Defined.

(** ** From rational to real arithmetic *)

Lemma Q2R_inject_Z (z : Z) : Q2R (inject_Z z) = IZR z.
Proof. unfold Q2R. simpl. lra. Qed.

Lemma Q2R_ratio (a b : Z) :
  b ≠ 0 → Q2R (inject_Z a / inject_Z b) = (IZR a / IZR b)%R.
Proof.
  intros Hb. rewrite Q2R_div, !Q2R_inject_Z; [done|].
  intros H. apply Qeq_eqR in H. rewrite Q2R_inject_Z in H.
  change (Q2R 0) with (Q2R (inject_Z 0)) in H. rewrite Q2R_inject_Z in H.
  by apply eq_IZR in H.
Qed.

Lemma Q2R_nonzero (q : Q) : Q2R q ≠ 0%R → ¬ (q == 0)%Q.
Proof.
  intros Hq H. apply Hq. apply Qeq_eqR in H. rewrite H.
  unfold Q2R. simpl. lra.
Qed.

Lemma Qle_bool_Q2R (x y : Q) : Qle_bool x y = true ↔ (Q2R x <= Q2R y)%R.
Proof.
  rewrite Qle_bool_iff. split; [apply Qle_Rle|apply Rle_Qle].
Qed.

(** ** Counts: the trace is part of the total *)

Lemma row_sum_nonneg (row : list Z) : Forall (λ x, 0 <= x) row → 0 <= row_sum row.
Proof. induction 1; simpl; lia. Qed.

Lemma row_entry_bounds (row : list Z) (i : nat) :
  Forall (λ x, 0 <= x) row → 0 <= default 0 (row !! i) <= row_sum row.
Proof.
  intros H. revert i. induction H as [|x row Hx Hrow IH]; intros [|i]; simpl.
  - lia.
  - lia.
  - apply row_sum_nonneg in Hrow. lia.
  - specialize (IH i). lia.
Qed.

Lemma diag_from_bounds (m : matrix) (i : nat) :
  counts m → 0 <= row_sum (diag_from i m) <= matrix_sum m.
Proof.
  intros H. revert i. induction H as [|row m Hrow Hm IH]; intros i.
  - simpl. change (matrix_sum []) with 0. lia.
  - rewrite matrix_sum_cons. simpl.
    pose proof (row_entry_bounds row i Hrow). specialize (IH (S i)). lia.
Qed.

Lemma trace_bounds (m : matrix) : counts m → 0 <= trace m <= matrix_sum m.
Proof. apply diag_from_bounds. Qed.

Lemma proportion_bounds (m : matrix) :
  counts m → 0 < matrix_sum m → (0 <= proportion m <= 1)%R.
Proof.
  intros Hm Ht. destruct (trace_bounds m Hm) as [H0 H1].
  apply IZR_lt in Ht. apply IZR_le in H0, H1. unfold proportion.
  split.
  - apply Rmult_le_pos; [lra|]. left. by apply Rinv_0_lt_compat.
  - apply (Rmult_le_reg_r (IZR (matrix_sum m))); [done|].
    unfold Rdiv. rewrite Rmult_assoc, Rinv_l by lra. lra.
Qed.

(** ** Hamming *)

Lemma hamming_unfold (m : matrix) :
  matrix_sum m ≠ 0 →
  _hamming m = (PNum (IZR (matrix_sum m)), PNum (proportion m),
                PNum (IZR (matrix_sum m) - IZR (trace m)), PNone).
Proof.
  intros Ht. unfold _hamming, num_Z, num_Q, proportion.
  apply Z.eqb_neq in Ht as Hb. rewrite Hb.
  rewrite Q2R_ratio by done. by rewrite minus_IZR.
Qed.

(** C1, as the code has it. For every matrix of counts with a positive
    total, [_hamming] returns the total, the proportion of changes
    [(total - trace) / total], which lies in [[0, 1]], the number of changes
    [total - trace] as the distance (so the distance is the proportion times
    the total, between [0] and the total), and no variance. *)
Theorem hamming_returns_count (m : matrix) :
  counts m → 0 < matrix_sum m →
  ∃ total p d,
    _hamming m = (PNum total, PNum p, PNum d, PNone)
    ∧ total = IZR (matrix_sum m)
    ∧ p = proportion m
    ∧ (0 <= p <= 1)%R
    ∧ d = (IZR (matrix_sum m) - IZR (trace m))%R
    ∧ d = (p * total)%R
    ∧ (0 <= d <= total)%R.
Proof.
  intros Hm Ht.
  exists (IZR (matrix_sum m)), (proportion m), (IZR (matrix_sum m) - IZR (trace m))%R.
  rewrite hamming_unfold by lia.
  destruct (trace_bounds m Hm) as [H0 H1]. apply IZR_le in H0, H1.
  apply IZR_lt in Ht as Ht'.
  repeat split; try done; try apply (proportion_bounds m Hm Ht); try lra.
  unfold proportion. field. lra.
Qed.

Lemma hamming_returns_count_witness :
  ∃ total p d,
    _hamming two_changes_in_four
    = (PNum total, PNum p, PNum d, PNone)
    ∧ total = 4%R
    ∧ p = proportion two_changes_in_four
    ∧ (0 <= p <= 1)%R
    ∧ d = (4 - 2)%R
    ∧ d = (p * total)%R
    ∧ (0 <= d <= total)%R.
Proof.
  apply (hamming_returns_count two_changes_in_four).
  - repeat constructor; lia.
  - reflexivity.
Defined.

(** C1 as stated fails: for the matrix of two sequences that differ at two
    of four sites the distance returned is [2], which is neither the
    proportion [2/4] nor a number of [[0, 1]]. *)
Lemma hamming_dist_not_proportion :
  0 < matrix_sum two_changes_in_four
  ∧ _hamming two_changes_in_four
    = (PNum 4, PNum (2 / 4), PNum 2, PNone)
  ∧ (2 ≠ 2 / 4)%R
  ∧ ¬ (0 <= 2 <= 1)%R.
Proof.
  split; [reflexivity|]. split; [|split; lra].
  rewrite hamming_unfold by (vm_compute; discriminate).
  unfold proportion.
  change (matrix_sum _) with 4. change (trace _) with 2.
  repeat f_equal; lra.
Qed.

(** ** JC69 *)

Lemma Q2R_proportion (m : matrix) :
  matrix_sum m ≠ 0 →
  Q2R (inject_Z (matrix_sum m - trace m) / inject_Z (matrix_sum m)) = proportion m.
Proof.
  intros Ht. rewrite Q2R_ratio by done. by rewrite minus_IZR.
Qed.

Lemma Q2R_three_quarters : Q2R (3 # 4) = (3 / 4)%R.
Proof. unfold Q2R. simpl. lra. Qed.

Lemma Q2R_factor (q : Q) : Q2R (1 - (4 # 3) * q) = (1 - 4 / 3 * Q2R q)%R.
Proof.
  rewrite Q2R_minus, Q2R_mult. unfold Q2R at 1 2. simpl. lra.
Qed.

Lemma jc69_saturated (m : matrix) :
  matrix_sum m ≠ 0 → (3 / 4 <= proportion m)%R → _jc69_from_matrix m = invalid.
Proof.
  intros Ht Hp. unfold _jc69_from_matrix.
  apply Z.eqb_neq in Ht as Hb. rewrite Hb.
  rewrite <- Q2R_proportion, <- Q2R_three_quarters in Hp by done.
  apply Qle_bool_Q2R in Hp. by rewrite Hp.
Qed.

Lemma jc69_unfold (m : matrix) :
  matrix_sum m ≠ 0 → (proportion m < 3 / 4)%R →
  _jc69_from_matrix m
  = (PNum (IZR (matrix_sum m)), PNum (proportion m),
     PNum (- (3 / 4) * ln (1 - 4 / 3 * proportion m)),
     PNum (proportion m * (1 - proportion m)
           / ((1 - 4 / 3 * proportion m) * (1 - 4 / 3 * proportion m)
              * IZR (matrix_sum m)))).
Proof.
  intros Ht Hp. unfold _jc69_from_matrix, num_Z, num_Q. cbv zeta.
  apply Z.eqb_neq in Ht as Hb. rewrite Hb.
  assert (IZR (matrix_sum m) ≠ 0%R) as Ht' by (by apply not_0_IZR).
  pose proof (Q2R_proportion m Ht) as Ep.
  set (p := (inject_Z (matrix_sum m - trace m) / inject_Z (matrix_sum m))%Q) in *.
  destruct (Qle_bool (3 # 4) p) eqn:E.
  { apply Qle_bool_Q2R in E. rewrite Q2R_three_quarters, Ep in E. lra. }
  rewrite Q2R_div.
  2:{ apply Q2R_nonzero. rewrite !Q2R_mult, Q2R_factor, Q2R_inject_Z, Ep.
      apply Rmult_integral_contrapositive_currified; [|done].
      apply Rmult_integral_contrapositive_currified; lra. }
  rewrite !Q2R_mult, !Q2R_factor, Q2R_minus, Q2R_inject_Z, Ep.
  replace (Q2R 1) with 1%R by (unfold Q2R; simpl; lra).
  repeat f_equal. lra.
Qed.

Lemma ln_nonpos (x : R) : (0 < x <= 1)%R → (ln x <= 0)%R.
Proof.
  intros [H0 [H1| ->]]; [|rewrite ln_1; lra].
  left. rewrite <- ln_1. by apply ln_increasing.
Qed.

Lemma ln_neg (x : R) : (0 < x < 1)%R → (ln x < 0)%R.
Proof. intros [H0 H1]. rewrite <- ln_1. by apply ln_increasing. Qed.

(** C2, as the code has it. For every matrix of counts with a positive
    total and [p = (total - trace) / total]: [_jc69_from_matrix] returns the
    invalid tuple when [p >= 0.75]; when [p < 0.75] it returns the total, [p],
    the distance [-(3/4) ln (1 - (4/3) p)], whose logarithm has a positive
    argument, and the variance [p (1 - p) / ((1 - (4/3) p)² total)].  The
    distance is never negative; it is positive when [p > 0] and it is [0]
    when [p = 0]. *)
Theorem jc69_boundary (m : matrix) :
  counts m → 0 < matrix_sum m →
  ((3 / 4 <= proportion m)%R → _jc69_from_matrix m = invalid)
  ∧ ((proportion m < 3 / 4)%R →
     ∃ d var,
       _jc69_from_matrix m
       = (PNum (IZR (matrix_sum m)), PNum (proportion m), PNum d, PNum var)
       ∧ (0 < 1 - 4 / 3 * proportion m)%R
       ∧ d = (- (3 / 4) * ln (1 - 4 / 3 * proportion m))%R
       ∧ var = (proportion m * (1 - proportion m)
                / ((1 - 4 / 3 * proportion m) * (1 - 4 / 3 * proportion m)
                   * IZR (matrix_sum m)))%R
       ∧ (0 <= d)%R
       ∧ ((0 < proportion m)%R → (0 < d)%R)
       ∧ (proportion m = 0%R → d = 0%R)).
Proof.
  intros Hm Ht. split.
  - apply jc69_saturated. lia.
  - intros Hp. eexists _, _. split; [apply jc69_unfold; [lia|done]|].
    destruct (proportion_bounds m Hm Ht) as [Hp0 _].
    split; [lra|]. split; [done|]. split; [done|].
    split; [|split].
    + pose proof (ln_nonpos (1 - 4 / 3 * proportion m)). lra.
    + intros Hpos. pose proof (ln_neg (1 - 4 / 3 * proportion m)). lra.
    + intros ->. replace (1 - 4 / 3 * 0)%R with 1%R by lra. rewrite ln_1. lra.
Qed.

Lemma jc69_boundary_witness :
  counts two_changes_in_ten
  ∧ 0 < matrix_sum two_changes_in_ten
  ∧ ∃ d var,
      _jc69_from_matrix two_changes_in_ten
      = (PNum 10, PNum (proportion two_changes_in_ten), PNum d, PNum var)
      ∧ (0 < d)%R.
Proof.
  assert (counts two_changes_in_ten) as Hm by (repeat constructor; lia).
  assert (0 < matrix_sum two_changes_in_ten) as Ht by reflexivity.
  assert (proportion two_changes_in_ten = (2 / 10)%R) as Ep.
  { unfold proportion. change (matrix_sum _) with 10. change (trace _) with 8. lra. }
  split; [done|]. split; [done|].
  destruct (jc69_boundary two_changes_in_ten Hm Ht) as [_ H].
  destruct H as (d & var & E & _ & _ & _ & _ & Hd & _); [rewrite Ep; lra|].
  exists d, var. split; [exact E|]. apply Hd. rewrite Ep. lra.
Defined.

(** C2 as stated fails where [p = 0]: for a matrix with one site on the
    diagonal the total is positive and [p < 0.75], and the distance returned
    is [0], which is not positive. *)
Lemma jc69_zero_distance :
  0 < matrix_sum one_site
  ∧ (proportion one_site < 3 / 4)%R
  ∧ _jc69_from_matrix one_site
    = (PNum 1, PNum 0, PNum 0, PNum 0)
  ∧ ¬ (0 < 0)%R.
Proof.
  assert (proportion one_site = 0%R) as E.
  { unfold proportion. change (matrix_sum _) with 1. change (trace _) with 1. lra. }
  split; [reflexivity|]. split; [rewrite E; lra|]. split; [|lra].
  rewrite jc69_unfold by (rewrite ?E; first [lra | vm_compute; discriminate]).
  rewrite E. change (matrix_sum _) with 1.
  replace (1 - 4 / 3 * 0)%R with 1%R by lra. rewrite ln_1.
  repeat f_equal; lra.
Qed.

(** ** No valid site *)

Lemma logdetcommon_no_site (det : qmatrix → Q) (inv : qmatrix → qmatrix) (m : matrix) :
  matrix_sum m = 0 → _logdetcommon det inv m = None.
Proof. intros H. unfold _logdetcommon. by rewrite H. Qed.

(** C6. For a matrix whose total is zero each of the five estimators
    returns (without raising) the tuple [invalid] of four [None], the one
    that JC69 returns for a saturated pair and TN93 for a failing
    logarithm. *)
Theorem zero_sites_invalid (det : qmatrix → Q) (inv : qmatrix → qmatrix)
    (m : matrix) :
  matrix_sum m = 0 →
  _hamming m = invalid
  ∧ _jc69_from_matrix m = invalid
  ∧ (∀ freqs pur_indices pyr_indices pur_coords pyr_coords tv_coords,
       _tn93_from_matrix m freqs pur_indices pyr_indices pur_coords pyr_coords tv_coords
       = Some invalid)
  ∧ (∀ use_tk_adjustment, _logdet det inv m use_tk_adjustment = invalid)
  ∧ _paralinear det inv m = invalid.
Proof.
  intros H. repeat split.
  - unfold _hamming. by rewrite H.
  - unfold _jc69_from_matrix. by rewrite H.
  - intros. unfold _tn93_from_matrix. by rewrite H.
  - intros. unfold _logdet. by rewrite logdetcommon_no_site.
  - unfold _paralinear. by rewrite logdetcommon_no_site.
Qed.

Lemma zero_sites_invalid_witness :
  _hamming (zeros 4) = invalid
  ∧ _jc69_from_matrix (zeros 4) = invalid
  ∧ (∀ freqs pur_indices pyr_indices pur_coords pyr_coords tv_coords,
       _tn93_from_matrix (zeros 4) freqs pur_indices pyr_indices pur_coords pyr_coords
         tv_coords
       = Some invalid)
  ∧ (∀ use_tk_adjustment, _logdet exact_det exact_inv (zeros 4) use_tk_adjustment = invalid)
  ∧ _paralinear exact_det exact_inv (zeros 4) = invalid.
Proof. apply (zero_sites_invalid exact_det exact_inv (zeros 4)). reflexivity. Defined.

(** ** The base of LogDet and Paralinear *)














(** ** Loops *)

Lemma for_each_invariant {S A} (P : S → Prop) (body : S → A → option S)
    (xs : list A) (st st' : S) :
  (∀ s x s', P s → body s x = Some s' → P s') →
  P st → for_each body st xs = Some st' → P st'.
Proof.
  intros Hbody. revert st. induction xs as [|x xs IH]; intros st HP H; simpl in H.
  - by injection H as <-.
  - destruct (body st x) as [s1|] eqn:E; [|done]. simpl in H.
    eapply IH; [|exact H]. by eapply Hbody.
Qed.

(** ** Symmetry of the store and of the views *)

Lemma symmetric_insert_both {V} (d : gmap pair_key V) (a b : string) (v : V) :
  symmetric d → symmetric (<[(b, a) := v]> (<[(a, b) := v]> d)).
Proof.
  intros Hd x y. rewrite !lookup_insert.
  repeat case_decide; simplify_eq; first [done | apply Hd].
Qed.

Lemma symmetric_fmap {V W} (f : V → W) (d : gmap pair_key V) :
  symmetric d → symmetric (f <$> d).
Proof. intros Hd x y. by rewrite !lookup_fmap, Hd. Qed.

Lemma symmetric_clean (remove : list string) (d : gmap pair_key Stats) :
  symmetric d → symmetric (clean remove d).
Proof.
  intros Hd x y. unfold clean. apply option_eq. intros s.
  rewrite !map_lookup_filter_Some, Hd. simpl. tauto.
Qed.

Lemma symmetric_expand_name (add alias : string) (pwise : gmap pair_key pyval)
    (name : string) :
  symmetric pwise → symmetric (expand_name add alias pwise name).
Proof.
  intros Hd. unfold expand_name. case_decide; [done|].
  by apply symmetric_insert_both.
Qed.

Lemma symmetric_foldl {V A} (f : gmap pair_key V → A → gmap pair_key V)
    (xs : list A) (d : gmap pair_key V) :
  (∀ d x, symmetric d → symmetric (f d x)) →
  symmetric d → symmetric (foldl f d xs).
Proof.
  intros Hf. revert d. induction xs as [|x xs IH]; intros d Hd; simpl; [done|].
  apply IH. by apply Hf.
Qed.

Lemma symmetric_expand (c : calculator_state) (pwise : gmap pair_key pyval) :
  symmetric pwise → symmetric (_expand c pwise).
Proof.
  intros Hd. unfold _expand. destruct (duplicated c) as [[|kv d]|]; try done.
  apply symmetric_foldl; [|done]. intros d' [add alias] Hd'.
  apply symmetric_foldl; [|done]. intros. by apply symmetric_expand_name.
Qed.

Section RunnerFacts.
Variable func : matrix → option stats.

Lemma compare_symmetric (c : calculator_state) (q : Q) (i : nat) (name_1 : string)
    (s1 : list Z) (st st' : loop_state) (j : nat) :
  symmetric (dists st) → compare func c q i name_1 s1 st j = Some st' →
  symmetric (dists st').
Proof.
  intros Hd H. unfold compare in H.
  case_decide; [by injection H as <-|].
  destruct (names c !! j) as [name_2|]; [simpl in H|done].
  destruct (indexed_seqs c !! j) as [s2|]; [simpl in H|done].
  destruct (_fill_diversity_matrix _ s1 s2) as [m|]; [simpl in H|done].
  destruct (negb (any_off_diag (_dim c) m)); [by injection H as <-|].
  destruct (func m) as [[[[total p] d] var]|]; [simpl in H|done].
  injection H as <-. simpl. by apply symmetric_insert_both.
Qed.

Lemma compare_all_symmetric (c : calculator_state) (q : Q) (st st' : loop_state)
    (i : nat) :
  symmetric (dists st) → compare_all func c q st i = Some st' →
  symmetric (dists st').
Proof.
  intros Hd H. unfold compare_all in H.
  case_decide; [by injection H as <-|].
  destruct (names c !! i) as [name_1|]; [simpl in H|done].
  destruct (indexed_seqs c !! i) as [s1|]; [simpl in H|done].
  revert H. apply (for_each_invariant (λ s, symmetric (dists s))); [|exact Hd].
  intros s x s'. apply compare_symmetric.
Qed.

Lemma pairwise_symmetric (c : calculator_state) (st : loop_state) :
  symmetric (_dists c) → pairwise func c = Some st → symmetric (dists st).
Proof.
  intros Hd. unfold pairwise.
  apply (for_each_invariant (λ s, symmetric (dists s))); [|exact Hd].
  intros s x s'. apply compare_all_symmetric.
Qed.

(** What a run that returns has computed. *)
Lemma run_shown_inv (c c' : calculator_state) (shown : list (string * Q)) :
  run_shown func c = Some (c', shown) →
  ∃ st dupe_names,
    pairwise func c = Some st
    ∧ names_of c (elements (dupes st)) = Some dupe_names
    ∧ shown = displayed st
    ∧ names c' = names c
    ∧ ((duped st = [] ∧ _dists c' = dists st ∧ _duped c' = None)
       ∨ (duped st ≠ []
          ∧ ∃ named, named_duped c (duped st) [] = Some named
                     ∧ _dists c' = clean dupe_names (dists st)
                     ∧ _duped c' = Some named)).
Proof.
  unfold run_shown. intros H.
  destruct (pairwise func c) as [st|]; [|simpl in H; discriminate H].
  cbn [mbind option_bind] in H.
  destruct (names_of c (elements (dupes st))) as [dn|] eqn:En;
    [|simpl in H; discriminate H].
  cbn [mbind option_bind] in H.
  exists st, dn. split; [done|]. split; [done|].
  destruct (duped st) as [|kv items] eqn:Ed.
  - injection H as <- <-. repeat split; try done. by left.
  - destruct (named_duped c (kv :: items) []) as [named|] eqn:Enamed;
      [|simpl in H; discriminate H].
    cbn [mbind option_bind] in H.
    injection H as <- <-. repeat split; try done. right. split; [done|].
    by exists named.
Qed.

Lemma run_inv (c c' : calculator_state) :
  run func c = Some c' → ∃ shown, run_shown func c = Some (c', shown).
Proof.
  unfold run. destruct (run_shown func c) as [[c1 shown]|]; [|done].
  intros [= <-]. by exists shown.
Qed.

Lemma run_symmetric (c c' : calculator_state) :
  symmetric (_dists c) → run func c = Some c' → symmetric (_dists c').
Proof.
  intros Hd [shown H]%run_inv.
  apply run_shown_inv in H as (st & dn & Hp & _ & _ & _ & Hcase).
  apply (pairwise_symmetric _ _ Hd) in Hp.
  destruct Hcase as [(_ & -> & _)|(_ & named & _ & -> & _)]; [done|].
  by apply symmetric_clean.
Qed.
End RunnerFacts.

(** ** The standard errors *)

Lemma sqrt_variances_spec (d : gmap pair_key Stats) :
  match sqrt_variances d with
  | Ok stats =>
      stats = sqrt_of <$> d ∧ ∀ k s, d !! k = Some s → variance s ≠ PNone
  | Raise e => e = TypeError ∧ ∃ k s, d !! k = Some s ∧ variance s = PNone
  end.
Proof.
  unfold sqrt_variances.
  apply (map_fold_weak_ind
           (λ r d, match r with
                   | Ok stats =>
                       stats = sqrt_of <$> d
                       ∧ ∀ k s, d !! k = Some s → variance s ≠ PNone
                   | Raise e =>
                       e = TypeError ∧ ∃ k s, d !! k = Some s ∧ variance s = PNone
                   end)).
  - split; [by rewrite fmap_empty|]. intros k s. by rewrite lookup_empty.
  - intros k s m r Hk Hr. destruct r as [stats|e].
    + destruct Hr as [-> Hall]. destruct (variance s) as [|x] eqn:Ev; simpl.
      * split; [done|]. exists k, s. by rewrite lookup_insert_eq.
      * split.
        -- rewrite fmap_insert. unfold sqrt_of at 2. by rewrite Ev.
        -- intros k' s'. rewrite lookup_insert. case_decide.
           ++ intros [= <-]. by rewrite Ev.
           ++ apply Hall.
    + destruct Hr as [-> (k' & s' & Hk' & Hs')]. split; [done|].
      exists k', s'. split; [|done]. rewrite lookup_insert_ne; [done|].
      intros ->. by rewrite Hk in Hk'.
Qed.

Lemma stderr_spec (c : calculator_state) :
  match stderr c with
  | Ok stats =>
      stats = _expand c (sqrt_of <$> _dists c)
      ∧ ∀ k s, _dists c !! k = Some s → variance s ≠ PNone
  | Raise e => e = TypeError ∧ ∃ k s, _dists c !! k = Some s ∧ variance s = PNone
  end.
Proof.
  unfold stderr. pose proof (sqrt_variances_spec (_dists c)) as H.
  destruct (sqrt_variances (_dists c)) as [stats|e]; [|done].
  destruct H as [-> H]. done.
Qed.

(** C3. A run that starts from a symmetric store (the empty one that
    [_convert_seqs_to_indices] leaves, or the one of an earlier run) ends
    with a symmetric store, and every view of it is symmetric, before and
    after the duplicates are expanded: the views of the four fields and the
    standard errors, when these are produced. *)
Theorem distance_matrix_symmetric (func : matrix → option stats)
    (c c' : calculator_state) :
  symmetric (_dists c) → run func c = Some c' →
  symmetric (_dists c')
  ∧ (∀ field, symmetric (view field c') ∧ symmetric (_expand c' (view field c')))
  ∧ (∀ include_duplicates, symmetric (get_pairwise_distances c' include_duplicates))
  ∧ (∀ stats, stderr c' = Ok stats → symmetric stats).
Proof.
  intros Hd Hrun. pose proof (run_symmetric func c c' Hd Hrun) as Hs.
  split; [done|]. split; [|split].
  - intros field. split; [by apply symmetric_fmap|].
    by apply symmetric_expand, symmetric_fmap.
  - intros [|]; unfold get_pairwise_distances; simpl.
    + by apply symmetric_expand, symmetric_fmap.
    + by apply symmetric_fmap.
  - intros stats E. pose proof (stderr_spec c') as H. rewrite E in H.
    destruct H as [-> _]. by apply symmetric_expand, symmetric_fmap.
Qed.

Lemma distance_matrix_symmetric_witness :
  ∃ c', run hamming_func two_twins = Some c'
        ∧ symmetric (_dists c')
        ∧ symmetric (dists_table c')
        ∧ symmetric (lengths c').
Proof.
  destruct (run hamming_func two_twins) as [c'|] eqn:E;
    [|vm_compute in E; discriminate E].
  exists c'. split; [done|].
  destruct (distance_matrix_symmetric hamming_func two_twins c') as (H1 & H2 & _).
  - intros x y. reflexivity.
  - exact E.
  - split; [exact H1|]. split; apply H2.
Defined.

(** ** The standard errors of a Hamming run *)

(** C7 fails on the code. After a Hamming run over three different
    sequences every stored variance is [None]: the variance view shows
    [None] for the pair, and the standard error view raises [TypeError]. *)
Theorem stderr_hamming_raises :
  ∃ c', run hamming_func three_distinct = Some c'
        ∧ variances c' !! ("s1", "s2") = Some PNone
        ∧ stderr c' = Raise TypeError.
Proof.
  eexists. split; [vm_compute; reflexivity|]. split; vm_compute; reflexivity.
Qed.

(** ** Progress *)

(** C8 fails on the code. For three sequences there are [3] comparisons,
    and the progress shown before each of them is [0], [1/4] and [2/4], the
    number of comparisons made so far over [(3 * 3 - 1) / 2 = 4]; over
    [3 * (3 - 1) / 2 = 3] it would be [0], [1/3] and [2/3]. *)
Theorem progress_three_distinct :
  ∃ c' shown,
    run_shown hamming_func three_distinct = Some (c', shown)
    ∧ (λ r, (r.1, Qred r.2)) <$> shown
      = [("s1 vs s2", 0%Q); ("s1 vs s3", (1 # 4)%Q); ("s2 vs s3", (1 # 2)%Q)]
    ∧ (to_do three_distinct == 4)%Q
    ∧ ¬ (1 # 4 == 1 / 3)%Q.
Proof.
  eexists _, _. split; [vm_compute; reflexivity|].
  split; [vm_compute; reflexivity|]. split; [reflexivity|]. discriminate.
Qed.

(** ** The assembler: what [_expand] leaves for a duplicate *)

Section Expand.
Variable names_ : list string.
Variable pw0 : gmap pair_key pyval.

Lemma expand_name_other (add alias : string) (pwise : gmap pair_key pyval)
    (name x y : string) :
  (x, y) ≠ (add, name) → (x, y) ≠ (name, add) →
  expand_name add alias pwise name !! (x, y) = pwise !! (x, y).
Proof.
  intros H1 H2. unfold expand_name. case_decide; [done|].
  by rewrite !lookup_insert_ne.
Qed.

Lemma expand_name_written (add alias : string) (pwise : gmap pair_key pyval)
    (name : string) :
  name ≠ add →
  expand_name add alias pwise name !! (add, name) = Some (alias_value alias pwise name)
  ∧ expand_name add alias pwise name !! (name, add)
    = Some (alias_value alias pwise name).
Proof.
  intros Hn. unfold expand_name, alias_value. rewrite decide_False by done.
  split; [|by rewrite lookup_insert_eq].
  rewrite lookup_insert_ne by congruence. by rewrite lookup_insert_eq.
Qed.

(** The loop over the names leaves every key alone that does not pair
    [add] with one of the names. *)
Lemma expand_names_other (add alias : string) (ns : list string)
    (pwise : gmap pair_key pyval) (x y : string) :
  (x = add → y ∈ ns → y = add) → (y = add → x ∈ ns → x = add) →
  foldl (expand_name add alias) pwise ns !! (x, y) = pwise !! (x, y).
Proof.
  revert pwise. induction ns as [|n ns IH]; intros pwise Hx Hy; simpl; [done|].
  rewrite IH.
  - destruct (decide (n = add)) as [->|Hn].
    + unfold expand_name. by rewrite decide_True.
    + apply expand_name_other.
      * intros [= -> ->]. apply Hn. apply Hx; [done|left].
      * intros [= -> ->]. apply Hn. apply Hy; [done|left].
  - intros Hxa Hin. apply Hx; [done|by right].
  - intros Hya Hin. apply Hy; [done|by right].
Qed.

(** The loop over the names writes, for every name but [add], the value
    of the representative under both orderings. *)
Lemma expand_names_written (add alias : string) (ns : list string)
    (pwise : gmap pair_key pyval) (y : string) :
  alias ≠ add → y ∈ ns → y ≠ add →
  foldl (expand_name add alias) pwise ns !! (add, y)
  = Some (alias_value alias pwise y)
  ∧ foldl (expand_name add alias) pwise ns !! (y, add)
    = Some (alias_value alias pwise y).
Proof.
  intros Ha. revert pwise. induction ns as [|n ns IH]; intros pwise Hin Hy.
  - by apply elem_of_nil in Hin.
  - simpl. destruct (decide (y ∈ ns)) as [Hyn|Hyn].
    + destruct (IH (expand_name add alias pwise n) Hyn Hy) as [H1 H2].
      rewrite H1, H2. unfold alias_value.
      rewrite (expand_name_other add alias pwise n alias y); [done| |];
        intros [= ]; congruence.
    + apply elem_of_cons in Hin as [->|Hin]; [|done].
      rewrite !expand_names_other by (intros; congruence).
      by apply expand_name_written.
Qed.

Hypothesis pw0_symmetric : symmetric pw0.

Lemma rep_not_add (redundants : list (string * string)) (x : string) :
  x ∉ redundants.*1 → rep redundants x = x.
Proof.
  induction redundants as [|[a al] r IH]; simpl; [done|].
  intros H. apply not_elem_of_cons in H as [H1 H2].
  rewrite decide_False by done. by apply IH.
Qed.

Lemma rep_snoc (redundants : list (string * string)) (add alias x : string) :
  add ∉ redundants.*1 →
  rep (redundants ++ [(add, alias)]) x
  = if decide (x = add) then alias else rep redundants x.
Proof.
  intros Hadd. induction redundants as [|[a al] r IH]; simpl.
  - done.
  - simpl in Hadd. apply not_elem_of_cons in Hadd as [H1 H2].
    destruct (decide (x = a)) as [->|Hxa].
    + by rewrite decide_False.
    + by apply IH.
Qed.

Lemma rep_elem (redundants : list (string * string)) (add alias : string) :
  NoDup redundants.*1 → (add, alias) ∈ redundants → rep redundants add = alias.
Proof.
  induction redundants as [|[a al] r IH]; simpl; intros Hnd Hin.
  - by apply elem_of_nil in Hin.
  - apply NoDup_cons in Hnd as [Ha Hnd].
    apply elem_of_cons in Hin as [[= -> ->]|Hin].
    + by rewrite decide_True.
    + rewrite decide_False; [by apply IH|].
      intros ->. apply Ha. apply list_elem_of_fmap. by exists (a, alias).
Qed.

Lemma expanded_step (done_ : list (string * string)) (add alias : string)
    (pwise : gmap pair_key pyval) :
  add ∉ done_.*1 → alias ∉ done_.*1 → alias ≠ add → alias ∈ names_ →
  expanded names_ pw0 done_ pwise →
  expanded names_ pw0 (done_ ++ [(add, alias)]) (foldl (expand_name add alias) pwise names_).
Proof.
  intros Hadd Hal Hne Hin Hinv x y Hx Hy Hxy.
  rewrite !rep_snoc by done. rewrite fmap_app. simpl.
  assert (∀ z, z ∈ done_.*1 ++ [add] ↔ z ∈ done_.*1 ∨ z = add) as Hmem.
  { intros z. rewrite elem_of_app, list_elem_of_singleton. done. }
  assert (rep done_ alias = alias) as Hra by (by apply rep_not_add).
  assert (∀ n, n ∈ names_ → n ≠ add →
               alias_value alias pwise n
               = if decide (alias = rep done_ n) then PNum 0
                 else default PNone (pw0 !! (alias, rep done_ n))) as Hval.
  { intros n Hn Hna. unfold alias_value.
    destruct (decide (n = alias)) as [->|Hnal].
    - by rewrite Hra, decide_True.
    - rewrite (Hinv alias n) by done. rewrite Hra.
      destruct (decide (n ∈ done_.*1)) as [Hnd|Hnd].
      + rewrite decide_True by (by right). simpl. done.
      + rewrite decide_False by tauto.
        rewrite (rep_not_add done_ n) by done. rewrite decide_False by done. done. }
  destruct (decide (x = add)) as [->|Hxa]; [|destruct (decide (y = add)) as [->|Hya]].
  - rewrite (decide_True (P := _ ∨ _)) by (rewrite !Hmem; tauto).
    rewrite (decide_False (P := y = add)) by done.
    destruct (expand_names_written add alias names_ pwise y) as [-> _]; try done.
    by rewrite Hval.
  - rewrite (decide_True (P := _ ∨ _)) by (rewrite !Hmem; tauto).
    destruct (expand_names_written add alias names_ pwise x) as [_ ->]; try done.
    rewrite Hval by done. f_equal.
    destruct (decide (alias = rep done_ x)) as [->|Hd].
    + by rewrite decide_True.
    + rewrite decide_False by done. by rewrite pw0_symmetric.
  - rewrite expand_names_other by (intros; congruence).
    rewrite (Hinv x y) by done.
    destruct (decide (x ∈ done_.*1 ∨ y ∈ done_.*1)) as [Hd|Hd].
    + rewrite (decide_True (P := _ ∨ _)) by (rewrite !Hmem; tauto). done.
    + rewrite (decide_False (P := _ ∨ _)) by (rewrite !Hmem; tauto). done.
Qed.

Lemma expanded_all (redundants : list (string * string)) :
  NoDup redundants.*1 →
  (∀ add alias, (add, alias) ∈ redundants →
                 (alias ∉ redundants.*1) ∧ alias ∈ names_) →
  expanded names_ pw0 redundants
    (foldl (λ pwise aa, foldl (expand_name aa.1 aa.2) pwise names_) pw0 redundants).
Proof.
  induction redundants as [|[add alias] r IH] using rev_ind; intros Hnd Hal.
  - by intros x y _ _ _.
  - rewrite fmap_app in Hnd. apply NoDup_app in Hnd as (Hnd & Hdisj & _).
    rewrite foldl_app. simpl.
    destruct (Hal add alias) as [Hal1 Hal2]; [apply elem_of_app; right; left|].
    rewrite fmap_app, elem_of_app in Hal1. simpl in Hal1.
    apply expanded_step.
    + intros H. apply (Hdisj add H). left.
    + tauto.
    + intros ->. apply Hal1. right. left.
    + done.
    + apply IH; [done|]. intros a al Ha.
      destruct (Hal a al) as [H1 H2]; [apply elem_of_app; by left|].
      split; [|done]. rewrite fmap_app, elem_of_app in H1. tauto.
Qed.

(** The duplicate invariant, for any well-formed list of redundants. *)
Lemma expanded_duplicate (redundants : list (string * string)) (A B : string) :
  NoDup redundants.*1 →
  (∀ add alias, (add, alias) ∈ redundants →
                 (alias ∉ redundants.*1) ∧ alias ∈ names_) →
  (∀ x y, x ∈ names_ → y ∈ names_ → x ≠ y →
          x ∉ redundants.*1 → y ∉ redundants.*1 → is_Some (pw0 !! (x, y))) →
  (B, A) ∈ redundants → B ∈ names_ →
  let pwise :=
    foldl (λ pwise aa, foldl (expand_name aa.1 aa.2) pwise names_) pw0 redundants in
  pwise !! (A, B) = Some (PNum 0)
  ∧ pwise !! (B, A) = Some (PNum 0)
  ∧ ∀ C, C ∈ names_ → C ≠ A → C ≠ B →
         pwise !! (B, C) = pwise !! (A, C) ∧ is_Some (pwise !! (A, C)).
Proof.
  intros Hnd Hal Hcomplete HBA HB pwise.
  pose proof (expanded_all redundants Hnd Hal) as Hinv. fold pwise in Hinv.
  destruct (Hal B A HBA) as [HA1 HA2].
  assert (B ∈ redundants.*1) as HB1.
  { apply list_elem_of_fmap. by exists (B, A). }
  assert (A ≠ B) as HAB by (by intros ->).
  assert (rep redundants A = A) as HrA by (by apply rep_not_add).
  assert (rep redundants B = A) as HrB by (by apply rep_elem).
  split; [|split].
  - rewrite (Hinv A B) by done. rewrite decide_True by tauto.
    by rewrite HrA, HrB, decide_True.
  - rewrite (Hinv B A) by done. rewrite decide_True by tauto.
    by rewrite HrA, HrB, decide_True.
  - intros C HC HCA HCB.
    rewrite (Hinv B C), (Hinv A C) by done.
    rewrite decide_True by tauto. rewrite HrA, HrB.
    destruct (decide (A ∈ redundants.*1 ∨ C ∈ redundants.*1)) as [Hd|Hd].
    + done.
    + rewrite (rep_not_add redundants C) by tauto.
      rewrite decide_False by done.
      destruct (Hcomplete A C) as [v Hv]; try done; try tauto.
      rewrite Hv. done.
Qed.
End Expand.

(** ** The runner: duplicates *)

Lemma duped_append_keys (i j : nat) (d : list (nat * list nat)) :
  (duped_append i j d).*1 = if decide (i ∈ d.*1) then d.*1 else d.*1 ++ [i].
Proof.
  induction d as [|[k v] d IH]; [done|].
  cbn [duped_append]. destruct (decide (k = i)) as [->|Hk].
  - rewrite !fmap_cons. cbn [fst]. rewrite decide_True; [done|left].
  - rewrite !fmap_cons, IH. cbn [fst].
    destruct (decide (i ∈ d.*1)) as [Hi|Hi].
    + rewrite decide_True; [done|by right].
    + rewrite decide_False; [done|].
      intros [->|H]%elem_of_cons; done.
Qed.

Lemma duped_append_vals (i j : nat) (d : list (nat * list nat)) :
  concat (duped_append i j d).*2 ≡ₚ j :: concat d.*2.
Proof.
  induction d as [|[k v] d IH]; [done|].
  cbn [duped_append]. destruct (decide (k = i)) as [->|Hk].
  - rewrite !fmap_cons. cbn [snd concat].
    rewrite <- (assoc (++)). simpl. by rewrite <- Permutation_middle.
  - rewrite !fmap_cons. cbn [snd concat].
    rewrite IH. by rewrite <- Permutation_middle.
Qed.

Lemma for_each_range {S} (P : nat → S → Prop) (body : S → nat → option S)
    (a b : nat) (st st' : S) :
  (a ≤ b)%nat → P a st →
  (∀ k s s', (a ≤ k < b)%nat → P k s → body s k = Some s' → P (Datatypes.S k) s') →
  for_each body st (range a b) = Some st' → P b st'.
Proof.
  unfold range. intros Hab. remember (b - a)%nat as n eqn:Hn.
  revert a st Hab Hn. induction n as [|n IH]; intros a st Hab Hn HP Hbody H.
  - simpl in H. injection H as <-. by replace b with a by lia.
  - simpl in H. destruct (body st a) as [s1|] eqn:E; [simpl in H|done].
    apply (IH (Datatypes.S a) s1); try done; try lia.
    + apply (Hbody a st); [lia|done|done].
    + intros k s s' Hk. apply Hbody. lia.
Qed.

Lemma loop_inv_next_row (c : calculator_state) (i : nat) (st : loop_state) :
  loop_inv c (S i) i (length (names c)) st →
  loop_inv c (S i) (S i) 0 st.
Proof.
  intros [H1 H2 H3 H4 H5 H6]. split; try done.
  intros a b na nb Hab Hv Ha Hb Hna Hnb.
  apply (H6 a b); try done.
  apply lookup_lt_Some in Hnb. lia.
Qed.

Lemma loop_inv_skip_row (c : calculator_state) (i : nat) (st : loop_state) :
  i ∈ dupes st → loop_inv c i i 0 st → loop_inv c (S i) (S i) 0 st.
Proof.
  intros Hi [H1 H2 H3 H4 H5 H6]. split; try done.
  - intros k Hk. destruct (H4 k Hk). split; [lia|done].
  - intros a b na nb Hab Hv Ha Hb Hna Hnb.
    apply (H6 a b); try done.
    destruct (decide (a = i)) as [->|]; [done|lia].
Qed.

Lemma loop_inv_enter_row (c : calculator_state) (i : nat) (st : loop_state) :
  loop_inv c i i 0 st → loop_inv c (S i) i (S i) st.
Proof.
  intros [H1 H2 H3 H4 H5 H6]. split; try done.
  - intros k Hk. destruct (H4 k Hk). split; [lia|done].
  - intros a b na nb Hab Hv Ha Hb Hna Hnb.
    apply (H6 a b); try done. lia.
Qed.

Section RunnerDuplicates.
Variable func : matrix → option stats.

Lemma compare_inv (c : calculator_state) (q : Q) (i : nat) (name_1 : string)
    (s1 : list Z) (st st' : loop_state) (j : nat) :
  (i < j)%nat → names c !! i = Some name_1 →
  loop_inv c (S i) i j st ∧ i ∉ dupes st →
  compare func c q i name_1 s1 st j = Some st' →
  loop_inv c (S i) i (S j) st' ∧ i ∉ dupes st'.
Proof.
  intros Hij Hn1 [[H1 H2 H3 H4 H5 H6] Hi] H. unfold compare in H.
  destruct (decide (j ∈ dupes st)) as [Hj|Hj].
  { injection H as <-. split; [|done]. split; try done.
    intros a b na nb Hab Hv Ha Hb Hna Hnb. apply (H6 a b); try done.
    destruct (decide (b = j)) as [->|]; [done|lia]. }
  destruct (names c !! j) as [name_2|] eqn:Hn2; [simpl in H|done].
  destruct (indexed_seqs c !! j) as [s2|]; [simpl in H|done].
  destruct (_fill_diversity_matrix _ s1 s2) as [m|]; [simpl in H|done].
  destruct (negb (any_off_diag (_dim c) m)).
  - injection H as <-. simpl.
    assert (∀ x, x ∈ ({[j]} ∪ dupes st : gset nat) ↔ x = j ∨ x ∈ dupes st) as Hu.
    { intros x. by rewrite elem_of_union, elem_of_singleton. }
    split; [|rewrite Hu; intros [?|?]; [lia|done]].
    split; simpl.
    + rewrite duped_append_keys. case_decide; [done|].
      apply NoDup_app. split; [done|]. split; [|apply NoDup_singleton].
      intros x Hx ->%list_elem_of_singleton. done.
    + rewrite duped_append_vals. apply NoDup_cons. split; [|done].
      by rewrite <- H3.
    + intros x. by rewrite duped_append_vals, elem_of_cons, <- H3, Hu.
    + intros k. rewrite duped_append_keys, Hu. intros Hk.
      assert (k = i ∨ k ∈ (duped st).*1) as [->|Hk'].
      { case_decide; [by right|]. apply elem_of_app in Hk as [Hk|Hk]; [by right|].
        apply list_elem_of_singleton in Hk. by left. }
      * split; [lia|]. intros [?|?]; [lia|done].
      * destruct (H4 k Hk') as [Hk1 Hk2]. split; [done|].
        intros [?|?]; [lia|done].
    + intros x [->|Hx]%Hu; [|by apply H5].
      by apply lookup_lt_Some in Hn2.
    + intros a b na nb Hab Hv Ha Hb Hna Hnb. rewrite Hu in Ha, Hb.
      apply (H6 a b); try done; try tauto.
      destruct (decide (b = j)) as [->|]; [tauto|lia].
  - destruct (func m) as [[[[total p] d] var]|]; [simpl in H|done].
    injection H as <-. simpl. split; [|done]. split; simpl; try done.
    intros a b na nb Hab Hv Ha Hb Hna Hnb.
    rewrite !lookup_insert_is_Some'.
    destruct (decide (a = i ∧ b = j)) as [[-> ->]|Hne].
    + rewrite Hn1 in Hna. rewrite Hn2 in Hnb. simplify_eq. split; tauto.
    + destruct (H6 a b na nb) as [E1 E2]; try done; [lia|]. split; tauto.
Qed.

Lemma compare_all_inv (c : calculator_state) (q : Q) (st st' : loop_state) (i : nat) :
  (S i ≤ length (names c))%nat →
  loop_inv c i i 0 st →
  compare_all func c q st i = Some st' →
  loop_inv c (S i) (S i) 0 st'.
Proof.
  intros Hi Hinv H. unfold compare_all in H.
  destruct (decide (i ∈ dupes st)) as [Hd|Hd].
  { injection H as <-. by apply loop_inv_skip_row. }
  destruct (names c !! i) as [name_1|] eqn:Hn1; [simpl in H|done].
  destruct (indexed_seqs c !! i) as [s1|]; [simpl in H|done].
  apply loop_inv_next_row.
  apply (for_each_range (λ j s, loop_inv c (S i) i j s ∧ i ∉ dupes s)) in H.
  - by destruct H.
  - lia.
  - split; [|done]. replace (i + 1)%nat with (S i) by lia.
    by apply loop_inv_enter_row.
  - intros j s s' Hj HP Hc. eapply compare_inv; [| |exact HP|exact Hc]; [lia|done].
Qed.

Lemma pairwise_inv (c : calculator_state) (st : loop_state) :
  pairwise func c = Some st →
  loop_inv c (length (names c) - 1) (length (names c) - 1) 0 st.
Proof.
  unfold pairwise. intros H.
  apply (for_each_range (λ i s, loop_inv c i i 0 s)) in H; [done|lia| |].
  - split; simpl.
    + constructor.
    + constructor.
    + intros x. split; intros Hx; [by apply elem_of_empty in Hx|by apply elem_of_nil in Hx].
    + intros k Hk. by apply elem_of_nil in Hk.
    + intros x Hx. by apply elem_of_empty in Hx.
    + intros a b na nb Hab Hv. lia.
  - intros i s s' Hi. apply compare_all_inv. lia.
Qed.
End RunnerDuplicates.

(** ** From indices to names *)

Lemma name_at_lookup (c : calculator_state) (i : nat) (x : string) :
  names c !! i = Some x → name_at c i = x.
Proof. intros H. unfold name_at. by rewrite H. Qed.

Lemma lookup_name_at (c : calculator_state) (i : nat) :
  (i < length (names c))%nat → names c !! i = Some (name_at c i).
Proof.
  intros Hi. destruct (lookup_lt_is_Some_2 (names c) i Hi) as [x Hx].
  by rewrite (name_at_lookup c i x Hx).
Qed.

Lemma name_at_inj (c : calculator_state) (a b : nat) :
  NoDup (names c) → (a < length (names c))%nat → (b < length (names c))%nat →
  name_at c a = name_at c b → a = b.
Proof.
  intros Hnd Ha Hb E. apply lookup_name_at in Ha, Hb. rewrite <- E in Hb.
  by eapply NoDup_lookup.
Qed.

Lemma names_of_Some (c : calculator_state) (v : list nat) (l : list string) :
  names_of c v = Some l → l = name_at c <$> v.
Proof.
  unfold names_of. rewrite mapM_Some. induction 1 as [|i x v l Hx _ IH]; [done|].
  rewrite fmap_cons, (name_at_lookup c i x Hx). by f_equal.
Qed.

Lemma dict_set_fresh {V} (k : string) (v : V) (d : list (string * V)) :
  k ∉ d.*1 → dict_set k v d = d ++ [(k, v)].
Proof.
  induction d as [|[k' v'] d IH]; [done|].
  rewrite fmap_cons. cbn [fst dict_set]. intros [H1 H2]%not_elem_of_cons.
  rewrite decide_False by done. by rewrite IH.
Qed.

Lemma named_items_keys (c : calculator_state) (items : list (nat * list nat)) :
  (named_items c items).*1 = name_at c <$> items.*1.
Proof.
  unfold named_items. induction items as [|[k v] items IH]; [done|].
  rewrite !fmap_cons. cbn [fst]. by rewrite IH.
Qed.

Lemma named_items_vals (c : calculator_state) (items : list (nat * list nat)) :
  concat (named_items c items).*2 = name_at c <$> concat items.*2.
Proof.
  unfold named_items. induction items as [|[k v] items IH]; [done|].
  rewrite !fmap_cons. cbn [snd concat]. by rewrite fmap_app, IH.
Qed.

Lemma named_duped_fresh (c : calculator_state) (items : list (nat * list nat))
    (acc named : list (string * list string)) :
  NoDup (acc.*1 ++ (name_at c <$> items.*1)) →
  named_duped c items acc = Some named →
  named = acc ++ named_items c items.
Proof.
  revert acc. induction items as [|[k v] items IH]; intros acc Hnd H.
  - simpl in H. injection H as <-. unfold named_items. simpl. by rewrite app_nil_r.
  - cbn [named_duped] in H.
    destruct (names c !! k) as [key|] eqn:Hk; [|simpl in H; discriminate H].
    cbn [mbind option_bind] in H.
    destruct (names_of c v) as [vals|] eqn:Hv; [|simpl in H; discriminate H].
    cbn [mbind option_bind] in H.
    apply name_at_lookup in Hk. apply names_of_Some in Hv. subst key vals.
    rewrite fmap_cons in Hnd. cbn [fst] in Hnd. rewrite fmap_cons in Hnd.
    assert (name_at c k ∉ acc.*1) as Hfresh.
    { apply NoDup_app in Hnd as (_ & Hdisj & _). intros Hin.
      apply (Hdisj _ Hin). left. }
    rewrite dict_set_fresh in H by done.
    apply IH in H.
    + rewrite H. unfold named_items. rewrite fmap_cons. cbn [fst snd].
      by rewrite <- (assoc (++)).
    + rewrite fmap_app. simpl. rewrite <- (assoc (++)). done.
Qed.

Lemma redundants_row_fresh (k : string) (v : list string)
    (acc : list (string * string)) :
  NoDup (acc.*1 ++ v) →
  foldl (λ acc r, dict_set r k acc) acc v = acc ++ ((λ r : string, (r, k)) <$> v).
Proof.
  revert acc. induction v as [|r v IH]; intros acc Hnd; simpl.
  - by rewrite app_nil_r.
  - assert (r ∉ acc.*1) as Hfresh.
    { apply NoDup_app in Hnd as (_ & Hdisj & _). intros Hin.
      apply (Hdisj _ Hin). left. }
    rewrite dict_set_fresh by done. rewrite IH.
    + by rewrite <- (assoc (++)).
    + rewrite fmap_app. simpl. by rewrite <- (assoc (++)).
Qed.

Lemma flat_redundants_keys (d : list (string * list string)) :
  (flat_redundants d).*1 = concat d.*2.
Proof.
  unfold flat_redundants. induction d as [|[k v] d IH]; [done|].
  rewrite bind_cons, fmap_app, IH, fmap_cons. cbn [fst snd concat]. f_equal.
  rewrite <- list_fmap_compose. clear. induction v as [|r v IH]; [done|].
  rewrite fmap_cons. simpl. by f_equal.
Qed.

Lemma redundants_fresh (d : list (string * list string))
    (acc : list (string * string)) :
  NoDup (acc.*1 ++ concat d.*2) →
  foldl (λ acc kv, foldl (λ acc r, dict_set r kv.1 acc) acc kv.2) acc d
  = acc ++ flat_redundants d.
Proof.
  revert acc. induction d as [|[k v] d IH]; intros acc Hnd.
  - simpl. by rewrite app_nil_r.
  - rewrite fmap_cons in Hnd. cbn [snd concat] in Hnd.
    cbn [foldl fst snd]. rewrite redundants_row_fresh.
    + rewrite IH.
      * unfold flat_redundants. rewrite bind_cons. by rewrite <- (assoc (++)).
      * rewrite fmap_app, <- (assoc (++)).
        replace (((λ r : string, (r, k)) <$> v).*1) with v; [done|].
        clear. induction v as [|r v IH]; [done|].
        rewrite !fmap_cons. simpl. by f_equal.
    + rewrite (assoc (++)) in Hnd. by apply NoDup_app in Hnd as (? & _ & _).
Qed.

Lemma redundants_of_fresh (d : list (string * list string)) :
  NoDup (concat d.*2) → redundants_of d = flat_redundants d.
Proof. intros Hnd. unfold redundants_of. by rewrite redundants_fresh. Qed.

Lemma flat_redundants_elem (d : list (string * list string)) (add alias : string) :
  (add, alias) ∈ flat_redundants d ↔ ∃ v, (alias, v) ∈ d ∧ add ∈ v.
Proof.
  unfold flat_redundants. rewrite list_elem_of_bind. split.
  - intros ([k v] & Hin & Hkv). apply list_elem_of_fmap in Hin as (r & [= -> ->] & Hr).
    by exists v.
  - intros (v & Hv & Hadd). exists (alias, v). split; [|done].
    apply list_elem_of_fmap. by exists add.
Qed.

Lemma named_items_elem (c : calculator_state) (items : list (nat * list nat))
    (key : string) (vals : list string) :
  (key, vals) ∈ named_items c items
  ↔ ∃ k v, (k, v) ∈ items ∧ key = name_at c k ∧ vals = name_at c <$> v.
Proof.
  unfold named_items. rewrite list_elem_of_fmap. split.
  - intros ([k v] & [= -> ->] & Hin). by exists k, v.
  - intros (k & v & Hin & -> & ->). by exists (k, v).
Qed.

Lemma elem_of_vals (items : list (nat * list nat)) (k j : nat) (v : list nat) :
  (k, v) ∈ items → j ∈ v → j ∈ concat items.*2.
Proof.
  intros Hin Hj. induction items as [|[k' v'] items IH].
  - by apply elem_of_nil in Hin.
  - rewrite fmap_cons. cbn [snd concat]. apply elem_of_app.
    apply elem_of_cons in Hin as [[= <- <-]|Hin]; [by left|right; by apply IH].
Qed.

Lemma elem_of_vals_inv (items : list (nat * list nat)) (j : nat) :
  j ∈ concat items.*2 → ∃ k v, (k, v) ∈ items ∧ j ∈ v.
Proof.
  induction items as [|[k v] items IH].
  - intros H. by apply elem_of_nil in H.
  - rewrite fmap_cons. cbn [snd concat]. intros [H|H]%elem_of_app.
    + exists k, v. split; [left|done].
    + destruct (IH H) as (k' & v' & Hin & Hj). exists k', v'. split; [by right|done].
Qed.

Lemma elem_of_keys (items : list (nat * list nat)) (k : nat) (v : list nat) :
  (k, v) ∈ items → k ∈ items.*1.
Proof. intros Hin. apply list_elem_of_fmap. by exists (k, v). Qed.

Lemma expand_with_duplicates (c : calculator_state) (d : list (string * list string))
    (pwise : gmap pair_key pyval) :
  duplicated c = Some d → d ≠ [] →
  _expand c pwise
  = foldl (λ pwise aa, foldl (expand_name aa.1 aa.2) pwise (names c))
          pwise (redundants_of d).
Proof. unfold _expand. intros -> Hd. by destruct d. Qed.

(** C4. After a run over distinct names that starts from a symmetric
    store, let [B] be listed in [self.duplicated] under the representative
    [A].  In every statistic expanded by [_expand] the entries of [(A, B)]
    and [(B, A)] are [0], and for every other name [C] the entry of
    [(B, C)] is present and is the entry of [(A, C)]. *)
Theorem duplicate_rows_alias (func : matrix → option stats)
    (c c' : calculator_state) (d : list (string * list string))
    (A B : string) (dups : list string) (field : Stats → pyval) :
  NoDup (names c) → symmetric (_dists c) →
  run func c = Some c' →
  duplicated c' = Some d → (A, dups) ∈ d → B ∈ dups →
  _expand c' (view field c') !! (A, B) = Some (PNum 0)
  ∧ _expand c' (view field c') !! (B, A) = Some (PNum 0)
  ∧ ∀ C, C ∈ names c' → C ≠ A → C ≠ B →
         _expand c' (view field c') !! (B, C) = _expand c' (view field c') !! (A, C)
         ∧ is_Some (_expand c' (view field c') !! (A, C)).
Proof.
  intros Hnd Hsym Hrun Hd HA HB.
  apply run_inv in Hrun as [shown Hrun].
  apply run_shown_inv in Hrun as (st & dn & Hp & Hdn & _ & Hnames & Hcase).
  destruct Hcase as [(_ & _ & Hnone)|(Hne & named & Hnamed & Hdists & Hduped)].
  { unfold duplicated in Hd. rewrite Hnone in Hd. discriminate Hd. }
  assert (d = named) as -> by (unfold duplicated in Hd; congruence).
  pose proof (pairwise_inv func c st Hp) as [I1 I2 I3 I4 I5 I6].
  pose proof (pairwise_symmetric func c st Hsym Hp) as Hs.
  apply names_of_Some in Hdn.
  assert (∀ k, k ∈ (duped st).*1 → (k < length (names c))%nat) as Hkeys.
  { intros k Hk. destruct (I4 k Hk). lia. }
  assert (∀ j, j ∈ concat (duped st).*2 → (j < length (names c))%nat) as Hvals.
  { intros j Hj. apply I5. by apply I3. }
  assert (named = named_items c (duped st)) as ->.
  { apply (named_duped_fresh c (duped st) []); [|done]. simpl.
    apply NoDup_fmap_2_strong; [|done]. intros a b Ha Hb.
    apply name_at_inj; auto. }
  assert (NoDup (concat (named_items c (duped st)).*2)) as Hnd2.
  { rewrite named_items_vals. apply NoDup_fmap_2_strong; [|done].
    intros a b Ha Hb. apply name_at_inj; auto. }
  rewrite (expand_with_duplicates c' _ _ Hd)
    by (intros E; rewrite E in HA; by apply elem_of_nil in HA).
  rewrite (redundants_of_fresh _ Hnd2). rewrite Hnames.
  apply named_items_elem in HA as (k & v & Hkv & -> & ->).
  apply list_elem_of_fmap in HB as (j & -> & Hj).
  pose proof (elem_of_keys _ _ _ Hkv) as Hk.
  pose proof (elem_of_vals _ _ _ _ Hkv Hj) as Hjv.
  assert (∀ x, x ∈ (flat_redundants (named_items c (duped st))).*1
               ↔ ∃ a, a ∈ dupes st ∧ x = name_at c a) as Hadds.
  { intros x. rewrite flat_redundants_keys, named_items_vals, list_elem_of_fmap.
    split; intros (a & H1 & H2).
    - exists a. split; [by apply I3|done].
    - exists a. split; [done|by apply I3]. }
  apply expanded_duplicate.
  - unfold view. rewrite Hdists. by apply symmetric_fmap, symmetric_clean.
  - by rewrite flat_redundants_keys.
  - intros add alias (vals & Hin & Hadd)%flat_redundants_elem.
    apply named_items_elem in Hin as (k' & v' & Hkv' & -> & ->).
    pose proof (elem_of_keys _ _ _ Hkv') as Hk'.
    split.
    + rewrite Hadds. intros (a & Ha & E).
      apply name_at_inj in E; auto. subst a. by destruct (I4 k' Hk').
    + apply list_elem_of_lookup. exists k'. apply lookup_name_at. auto.
  - intros x y Hx Hy Hxy Hxa Hya.
    apply list_elem_of_lookup in Hx as [a Ha]. apply list_elem_of_lookup in Hy as [b Hb].
    assert (a ∉ dupes st) as Had.
    { intros H. apply Hxa, Hadds. exists a. split; [done|].
      symmetry. by apply name_at_lookup. }
    assert (b ∉ dupes st) as Hbd.
    { intros H. apply Hya, Hadds. exists b. split; [done|].
      symmetry. by apply name_at_lookup. }
    assert (is_Some (dists st !! (x, y))) as [s Hsome].
    { destruct (decide (a < b)%nat) as [Hlt|Hge].
      - destruct (I6 a b x y) as [H1 _]; try done.
        apply lookup_lt_Some in Hb. lia.
      - assert (b < a)%nat as Hlt by (assert (a ≠ b) by congruence; lia).
        destruct (I6 b a y x) as [_ H2]; try done.
        apply lookup_lt_Some in Ha. lia. }
    unfold view. rewrite Hdists, lookup_fmap.
    assert (∀ z e, names c !! e = Some z → e ∉ dupes st → z ∉ dn) as Hclean.
    { intros z e Hz He. rewrite Hdn. intros (e' & E & He')%list_elem_of_fmap.
      apply elem_of_elements in He'.
      rewrite <- (name_at_lookup c e z Hz) in E.
      apply name_at_inj in E; auto; [by subst e'|by apply lookup_lt_Some in Hz]. }
    unfold clean. erewrite map_lookup_filter_Some_2; [by eexists|exact Hsome|].
    simpl. split; eapply Hclean; eauto.
  - apply flat_redundants_elem. exists (name_at c <$> v). split.
    + apply named_items_elem. by exists k, v.
    + apply list_elem_of_fmap. by exists j.
  - apply list_elem_of_lookup. exists j. apply lookup_name_at. auto.
Qed.

Lemma duplicate_rows_alias_witness :
  ∃ c', run hamming_func two_twins = Some c'
        ∧ lengths c' !! ("c", "d") = Some (PNum 0)
        ∧ lengths c' !! ("d", "a") = lengths c' !! ("c", "a").
Proof.
  destruct (run hamming_func two_twins) as [c'|] eqn:E;
    [|vm_compute in E; discriminate E].
  exists c'. split; [done|].
  assert (duplicated c' = Some [("a", ["b"]); ("c", ["d"])]) as Hd.
  { vm_compute in E. injection E as <-. reflexivity. }
  assert (names c' = ["a"; "b"; "c"; "d"]) as Hn.
  { vm_compute in E. injection E as <-. reflexivity. }
  destruct (duplicate_rows_alias hamming_func two_twins c'
              [("a", ["b"]); ("c", ["d"])] "c" "d" ["d"] length_)
    as (H1 & _ & H2).
  - apply (bool_decide_unpack _). vm_compute. exact I.
  - intros x y. reflexivity.
  - exact E.
  - exact Hd.
  - right. left.
  - left.
  - split; [exact H1|]. apply H2; [rewrite Hn; left|discriminate|discriminate].
Defined.

(** ** A run over an alignment returns *)

Lemma for_each_total {S A} (body : S → A → option S) (xs : list A) (st : S) :
  (∀ s x, x ∈ xs → is_Some (body s x)) → is_Some (for_each body st xs).
Proof.
  revert st. induction xs as [|x xs IH]; intros st Hbody; simpl; [by eexists|].
  destruct (Hbody st x) as [s1 E]; [left|]. rewrite E. simpl.
  apply IH. intros s y Hy. apply Hbody. by right.
Qed.

Lemma elem_of_range (a b k : nat) : k ∈ range a b → (a ≤ k < b)%nat.
Proof. unfold range. rewrite elem_of_seq. lia. Qed.

Lemma fill_diversity_matrix_total (K : nat) (seq1 seq2 : list Z) :
  length seq1 = length seq2 →
  Forall (λ a, a < Z.of_nat K) seq1 →
  Forall (λ b, b < Z.of_nat K) seq2 →
  ∃ m, _fill_diversity_matrix (zeros K) seq1 seq2 = Some m ∧ square K m.
Proof.
  intros Hlen H1 H2. unfold _fill_diversity_matrix.
  rewrite bool_decide_eq_true_2 by done.
  destruct (fill_pairs_inside K
              (filter (λ ab, jointly_valid ab = true) (zip seq1 seq2)) (zeros K))
    as (m & E & Hsq & _).
  - apply zeros_square.
  - apply Forall_forall. intros [a b] Hab.
    apply list_elem_of_filter in Hab as [Hv Hz].
    rewrite jointly_valid_spec in Hv. apply andb_true_iff in Hv as [Ha Hb].
    apply elem_of_zip_l in Hz as Hza. apply elem_of_zip_r in Hz as Hzb.
    rewrite Forall_forall in H1, H2. simpl in *.
    specialize (H1 _ Hza). specialize (H2 _ Hzb). lia.
  - by exists m.
Qed.

Lemma named_duped_total (c : calculator_state) (items : list (nat * list nat))
    (acc : list (string * list string)) :
  (∀ k, k ∈ items.*1 → (k < length (names c))%nat) →
  (∀ j, j ∈ concat items.*2 → (j < length (names c))%nat) →
  is_Some (named_duped c items acc).
Proof.
  revert acc. induction items as [|[k v] items IH]; intros acc Hk Hv.
  - by eexists.
  - cbn [named_duped].
    rewrite lookup_name_at by (apply Hk; rewrite fmap_cons; left).
    cbn [mbind option_bind].
    assert (is_Some (names_of c v)) as [vals ->].
    { apply mapM_is_Some_2, Forall_forall. intros j Hj.
      apply lookup_lt_is_Some_2, Hv. rewrite fmap_cons. cbn [snd concat].
      apply elem_of_app. by left. }
    cbn [mbind option_bind]. apply IH.
    + intros k' Hk'. apply Hk. rewrite fmap_cons. by right.
    + intros j Hj. apply Hv. rewrite fmap_cons. cbn [snd concat].
      apply elem_of_app. by right.
Qed.

Section RunReturns.
Variable func : matrix → option stats.
Variable dim : nat.
Hypothesis func_total : ∀ m, square dim m → is_Some (func m).

Lemma compare_total (c : calculator_state) (q : Q) (i : nat) (name_1 : string)
    (s1 : list Z) (L : nat) (st : loop_state) (j : nat) :
  length (indexed_seqs c) = length (names c) →
  Forall (λ s, length s = L ∧ Forall (λ a, a < Z.of_nat (_dim c)) s) (indexed_seqs c) →
  s1 ∈ indexed_seqs c → (j < length (names c))%nat → _dim c = dim →
  is_Some (compare func c q i name_1 s1 st j).
Proof.
  intros Hlen Hall Hs1 Hj Hdim. unfold compare. case_decide; [by eexists|].
  destruct (lookup_lt_is_Some_2 (names c) j Hj) as [name_2 ->].
  cbn [mbind option_bind].
  destruct (lookup_lt_is_Some_2 (indexed_seqs c) j) as [s2 Hs2]; [lia|].
  rewrite Hs2. cbn [mbind option_bind].
  rewrite Forall_forall in Hall.
  destruct (Hall s1 Hs1) as [Hl1 Hb1].
  destruct (Hall s2) as [Hl2 Hb2]; [by eapply list_elem_of_lookup_2|].
  destruct (fill_diversity_matrix_total (_dim c) s1 s2) as (m & -> & Hsq);
    [congruence|done|done|].
  cbn [mbind option_bind].
  destruct (negb (any_off_diag (_dim c) m)); [by eexists|].
  rewrite Hdim in Hsq.
  destruct (func_total m Hsq) as [[[[total p] d] var] ->]. by eexists.
Qed.

Lemma compare_all_total (c : calculator_state) (q : Q) (st : loop_state) (i : nat) :
  aligned c → _dim c = dim → (i < length (names c))%nat →
  is_Some (compare_all func c q st i).
Proof.
  intros [Hlen [L Hall]] Hdim Hi. unfold compare_all. case_decide; [by eexists|].
  destruct (lookup_lt_is_Some_2 (names c) i Hi) as [name_1 ->].
  cbn [mbind option_bind].
  destruct (lookup_lt_is_Some_2 (indexed_seqs c) i) as [s1 Hs1]; [lia|].
  rewrite Hs1. cbn [mbind option_bind].
  apply for_each_total. intros s j Hj%elem_of_range.
  apply (compare_total c q i name_1 s1 L); try done; [|lia].
  by eapply list_elem_of_lookup_2.
Qed.

Lemma pairwise_total (c : calculator_state) :
  aligned c → _dim c = dim → is_Some (pairwise func c).
Proof.
  intros Hc Hdim. unfold pairwise. apply for_each_total.
  intros s i Hi%elem_of_range. apply compare_all_total; [done|done|lia].
Qed.

(** A run over an alignment, with an estimator that returns on the square
    matrices of the alphabet size, returns. *)
Lemma run_returns (c : calculator_state) :
  aligned c → _dim c = dim → is_Some (run func c).
Proof.
  intros Hc Hdim. destruct (pairwise_total c Hc Hdim) as [st Hp].
  pose proof (pairwise_inv func c st Hp) as [I1 I2 I3 I4 I5 I6].
  unfold run, run_shown. rewrite Hp. cbn [mbind option_bind].
  assert (is_Some (names_of c (elements (dupes st)))) as [dn ->].
  { apply mapM_is_Some_2, Forall_forall. intros j Hj%elem_of_elements.
    by apply lookup_lt_is_Some_2, I5. }
  cbn [mbind option_bind].
  destruct (duped st) as [|kv items] eqn:Ed; [by eexists|].
  destruct (named_duped_total c (kv :: items) []) as [named ->].
  - intros k Hk. destruct (I4 k Hk). lia.
  - intros j Hj. by apply I5, I3.
  - by eexists.
Qed.
End RunReturns.

(** ** Progress, in general *)

Section Progress.
Variable func : matrix → option stats.

Lemma compare_counted (c : calculator_state) (q : Q) (i : nat) (name_1 : string)
    (s1 : list Z) (st st' : loop_state) (j : nat) :
  counted q st → compare func c q i name_1 s1 st j = Some st' → counted q st'.
Proof.
  intros [Hd Hr] H. unfold compare in H.
  case_decide; [by injection H as <-|].
  destruct (names c !! j) as [name_2|]; [simpl in H|done].
  destruct (indexed_seqs c !! j) as [s2|]; [simpl in H|done].
  destruct (_fill_diversity_matrix _ s1 s2) as [m|]; [simpl in H|done].
  assert (counted q (MkLoop (dupes st) (duped st) (dists st) (done st + 1)
                       (displayed st ++ [(name_1 +:+ " vs " +:+ name_2,
                                          (inject_Z (done st) / q)%Q)]))) as Hnew.
  { split; simpl.
    - rewrite length_app. simpl. lia.
    - intros k r Hk. apply lookup_app_Some in Hk as [Hk|[Hge Hk]]; [by apply Hr|].
      apply list_lookup_singleton_Some in Hk as [Hk <-]. simpl.
      rewrite Hd. do 2 f_equal. lia. }
  destruct Hnew as [Hd' Hr'].
  destruct (negb (any_off_diag (_dim c) m)); [by injection H as <-|].
  destruct (func m) as [[[[total p] d] var]|]; [simpl in H|done].
  by injection H as <-.
Qed.

End Progress.

(** X20. Whatever the estimator and the alignment, the progress shown with
    comparison number [k] of a run, counted from [0], is [k] over [to_do],
    the value of [(len(names) * len(names) - 1) / 2]. *)
Theorem progress_reports (func : matrix → option stats) (c c' : calculator_state)
    (shown : list (string * Q)) :
  run_shown func c = Some (c', shown) →
  ∀ k r, shown !! k = Some r → r.2 = (inject_Z (Z.of_nat k) / to_do c)%Q.
Proof.
  intros H. apply run_shown_inv in H as (st & dn & Hp & _ & -> & _).
  revert Hp. unfold pairwise.
  intros Hp. apply (for_each_invariant (counted (to_do c))) in Hp as [_ Hr]; [done| |].
  - intros s i s' Hs Hi. unfold compare_all in Hi.
    case_decide; [by injection Hi as <-|].
    destruct (names c !! i) as [name_1|]; [simpl in Hi|done].
    destruct (indexed_seqs c !! i) as [s1|]; [simpl in Hi|done].
    revert Hi. apply (for_each_invariant (counted (to_do c))); [|done].
    intros s2 j s3. apply compare_counted.
  - split; simpl; [done|]. intros k r Hk. by rewrite lookup_nil in Hk.
Qed.

Lemma progress_reports_witness :
  ∃ c' shown,
    run_shown hamming_func three_distinct = Some (c', shown)
    ∧ ∀ k r, shown !! k = Some r
             → r.2 = (inject_Z (Z.of_nat k) / to_do three_distinct)%Q.
Proof.
  destruct (run_shown hamming_func three_distinct) as [[c' shown]|] eqn:E;
    [|vm_compute in E; discriminate E].
  exists c', shown. split; [done|].
  apply (progress_reports hamming_func three_distinct c' shown E).
Defined.

(** ** The diversity matrix builder, entry by entry *)

Lemma entry_zeros (K a b : nat) : entry (zeros K) a b = 0.
Proof.
  unfold entry, zeros. destruct (replicate K (replicate K 0) !! a) as [row|] eqn:E;
    [|done].
  apply lookup_replicate in E as [-> _]. simpl.
  destruct (replicate K 0 !! b) as [x|] eqn:E; [|done].
  by apply lookup_replicate in E as [-> _].
Qed.

Lemma incr_entry (m m' : matrix) (x y : Z) (a b : nat) :
  0 <= x → 0 <= y → incr m x y = Some m' →
  entry m' a b
  = entry m a b + (if decide ((x, y) = (Z.of_nat a, Z.of_nat b)) then 1 else 0).
Proof.
  intros Hx Hy H. unfold incr in H.
  destruct (m !! Z.to_nat x) as [row|] eqn:Hrow; [simpl in H|done].
  destruct (row !! Z.to_nat y) as [v|] eqn:Hv; [simpl in H|done].
  injection H as <-. unfold entry.
  destruct (decide (a = Z.to_nat x)) as [->|Ha].
  - rewrite list_lookup_insert_eq by (by eapply lookup_lt_Some).
    rewrite Hrow. simpl.
    destruct (decide (b = Z.to_nat y)) as [->|Hb].
    + rewrite list_lookup_insert_eq by (by eapply lookup_lt_Some).
      rewrite Hv. simpl. rewrite decide_True; [done|]. f_equal; lia.
    + rewrite list_lookup_insert_ne by done.
      rewrite decide_False; [lia|]. intros [= H1 H2]. lia.
  - rewrite list_lookup_insert_ne by done.
    rewrite decide_False; [lia|]. intros [= H1 H2]. lia.
Qed.

Lemma fill_pairs_entry (paired : list (Z * Z)) (m m' : matrix) (a b : nat) :
  Forall (λ xy, 0 <= xy.1 ∧ 0 <= xy.2) paired →
  fill_pairs m paired = Some m' →
  entry m' a b
  = entry m a b
    + Z.of_nat (length (filter (λ xy, xy = (Z.of_nat a, Z.of_nat b)) paired)).
Proof.
  intros Hall. revert m. induction Hall as [|[x y] paired [Hx Hy] _ IH]; intros m H.
  - simpl in H. injection H as <-. simpl. lia.
  - simpl in H. destruct (incr m x y) as [m1|] eqn:E; [simpl in H|done].
    rewrite (IH m1 H), (incr_entry m m1 x y a b Hx Hy E), filter_cons.
    destruct (decide ((x, y) = (Z.of_nat a, Z.of_nat b))); simpl; lia.
Qed.

Lemma jointly_valid_filter (seq1 seq2 : list Z) :
  Forall (λ xy, 0 <= xy.1 ∧ 0 <= xy.2)
         (filter (λ ab, jointly_valid ab = true) (zip seq1 seq2)).
Proof.
  apply Forall_forall. intros [x y] [Hv _]%list_elem_of_filter.
  rewrite jointly_valid_spec in Hv. apply andb_true_iff in Hv as [Hx Hy].
  simpl. lia.
Qed.

Lemma filter_valid_columns (a b : nat) (l : list (Z * Z)) :
  filter (λ xy, xy = (Z.of_nat a, Z.of_nat b)) (filter (λ ab, jointly_valid ab = true) l)
  = filter (λ xy, xy = (Z.of_nat a, Z.of_nat b)) l.
Proof.
  induction l as [|[x y] l IH]; [done|].
  rewrite (filter_cons (λ ab, jointly_valid ab = true)).
  destruct (decide (jointly_valid (x, y) = true)) as [Hv|Hv].
  - rewrite !filter_cons, IH. done.
  - rewrite IH, filter_cons. rewrite decide_False; [done|].
    intros [= -> ->]. apply Hv. rewrite jointly_valid_spec.
    apply andb_true_iff. split; apply Z.leb_le; lia.
Qed.

Lemma incr_raises (K : nat) (m : matrix) (x y : Z) :
  square K m → 0 <= x → 0 <= y →
  incr m x y = None ↔ Z.of_nat K <= x ∨ Z.of_nat K <= y.
Proof.
  intros Hm Hx Hy. split.
  - intros H.
    destruct (decide (x < Z.of_nat K ∧ y < Z.of_nat K)) as [[H1 H2]|Hn]; [|lia].
    destruct (incr_inside K m x y Hm) as (m' & E & _); [lia|lia|]. congruence.
  - intros Hout. destruct Hm as [Hlen Hrows]. unfold incr.
    destruct (m !! Z.to_nat x) as [row|] eqn:Hrow; [simpl|done].
    assert (length row = K) as Hrl.
    { rewrite Forall_forall in Hrows. apply Hrows. by eapply list_elem_of_lookup_2. }
    apply lookup_lt_Some in Hrow.
    destruct (row !! Z.to_nat y) as [v|] eqn:Hv; [|done].
    apply lookup_lt_Some in Hv. lia.
Qed.

Lemma fill_pairs_raises (K : nat) (paired : list (Z * Z)) (m : matrix) :
  square K m → Forall (λ xy, 0 <= xy.1 ∧ 0 <= xy.2) paired →
  fill_pairs m paired = None
  ↔ Exists (λ xy, Z.of_nat K <= xy.1 ∨ Z.of_nat K <= xy.2) paired.
Proof.
  intros Hm Hall. revert m Hm.
  induction Hall as [|[x y] paired [Hx Hy] _ IH]; intros m Hm.
  - simpl. split; [done|]. by intros H%Exists_nil.
  - simpl. rewrite Exists_cons. simpl in *.
    destruct (incr m x y) as [m1|] eqn:E; simpl.
    + destruct (decide (x < Z.of_nat K ∧ y < Z.of_nat K)) as [[H1 H2]|Hn].
      * destruct (incr_inside K m x y Hm) as (m' & E' & Hm' & _); [lia|lia|].
        assert (m' = m1) as -> by congruence.
        rewrite (IH m1 Hm'). split; [tauto|]. intros [?|?]; [lia|done].
      * assert (incr m x y = None) as E' by (apply (incr_raises K); [done..|lia]).
        congruence.
    + split; [|done]. intros _. left. by apply (incr_raises K m).
Qed.

Lemma columns_with_swap (a b : Z) (seq1 seq2 : list Z) :
  columns_with b a seq2 seq1 = columns_with a b seq1 seq2.
Proof.
  unfold columns_with. f_equal. revert seq2.
  induction seq1 as [|x s1 IH]; intros [|y s2]; try done.
  simpl. rewrite !filter_cons.
  destruct (decide ((y, x) = (b, a))) as [[= -> ->]|Hn].
  - rewrite decide_True by done. simpl. by rewrite IH.
  - rewrite decide_False by (intros [= -> ->]; done). apply IH.
Qed.

Lemma fill_diversity_matrix_entries_aux (K : nat) (seq1 seq2 : list Z) (m : matrix) :
  _fill_diversity_matrix (zeros K) seq1 seq2 = Some m →
  ∀ a b : nat, entry m a b = columns_with (Z.of_nat a) (Z.of_nat b) seq1 seq2.
Proof.
  unfold _fill_diversity_matrix. case_bool_decide as Hlen; [|done]. intros Hfill a b.
  rewrite (fill_pairs_entry _ _ _ a b (jointly_valid_filter seq1 seq2) Hfill).
  rewrite entry_zeros, filter_valid_columns. unfold columns_with. lia.
Qed.

(** X1. When filling the zero matrix returns, the entry at [(a, b)] is
    the number of columns that hold [a] in the first and [b] in the second
    sequence, every entry outside of the [K] by [K] array being [0]; the
    matrix of the swapped pair is the transpose. *)
Theorem fill_diversity_matrix_entries (K : nat) (seq1 seq2 : list Z) (m : matrix) :
  _fill_diversity_matrix (zeros K) seq1 seq2 = Some m →
  (∀ a b : nat, entry m a b = columns_with (Z.of_nat a) (Z.of_nat b) seq1 seq2)
  ∧ ∃ m', _fill_diversity_matrix (zeros K) seq2 seq1 = Some m'
          ∧ ∀ a b : nat, entry m' a b = entry m b a.
Proof.
  intros Hfill. split; [by apply (fill_diversity_matrix_entries_aux K)|].
  destruct (_fill_diversity_matrix (zeros K) seq2 seq1) as [m'|] eqn:E.
  - exists m'. split; [done|]. intros a b.
    rewrite (fill_diversity_matrix_entries_aux K seq2 seq1 m' E).
    rewrite (fill_diversity_matrix_entries_aux K seq1 seq2 m Hfill).
    apply columns_with_swap.
  - exfalso. revert E Hfill. unfold _fill_diversity_matrix.
    case_bool_decide as Hlen; [|by rewrite bool_decide_eq_false_2 by congruence].
    rewrite bool_decide_eq_true_2 by congruence. intros E Hfill.
    apply (fill_pairs_raises K _ _ (zeros_square K) (jointly_valid_filter seq2 seq1))
      in E.
    apply Exists_exists in E as ([b a] & [Hv Hin]%list_elem_of_filter & Hout).
    assert (fill_pairs (zeros K)
              (filter (λ ab, jointly_valid ab = true) (zip seq1 seq2)) = None) as E'.
    { apply (fill_pairs_raises K); [apply zeros_square|apply jointly_valid_filter|].
      apply Exists_exists. exists (a, b). split; [|simpl in *; lia].
      apply list_elem_of_filter. split.
      - rewrite jointly_valid_spec in *. rewrite andb_comm. done.
      - apply list_elem_of_lookup in Hin as [i Hi].
        apply lookup_zip_with_Some in Hi as (x & y & [= <- <-] & H1 & H2).
        apply list_elem_of_lookup. exists i. apply lookup_zip_with_Some.
        by exists a, b. }
    congruence.
Qed.

Lemma fill_diversity_matrix_entries_witness :
  ∃ m, _fill_diversity_matrix (zeros 4) [0; 3; 2; -9; 1] [0; 3; 2; 1; 0] = Some m
       ∧ entry m 1 0 = 1 ∧ entry m 2 2 = 1 ∧ entry m 0 1 = 0.
Proof.
  eexists. split; [vm_compute; reflexivity|].
  destruct (fill_diversity_matrix_entries 4 [0; 3; 2; -9; 1] [0; 3; 2; 1; 0]
              [[1; 0; 0; 0]; [1; 0; 0; 0]; [0; 0; 1; 0]; [0; 0; 0; 1]]) as [H _];
    [vm_compute; reflexivity|].
  repeat split; rewrite H; reflexivity.
Defined.

(** X2. Filling the zero matrix raises exactly when the sequences differ
    in length or some column has two non-negative indices of which one is
    not below the alphabet size. *)
Theorem fill_diversity_matrix_raises (K : nat) (seq1 seq2 : list Z) :
  _fill_diversity_matrix (zeros K) seq1 seq2 = None
  ↔ length seq1 ≠ length seq2
    ∨ ∃ i a b, seq1 !! i = Some a ∧ seq2 !! i = Some b ∧ 0 <= a ∧ 0 <= b
               ∧ (Z.of_nat K <= a ∨ Z.of_nat K <= b).
Proof.
  unfold _fill_diversity_matrix. case_bool_decide as Hlen.
  - rewrite (fill_pairs_raises K _ _ (zeros_square K) (jointly_valid_filter seq1 seq2)).
    rewrite Exists_exists. split.
    + intros ([a b] & [Hv Hin]%list_elem_of_filter & Hout). right.
      rewrite jointly_valid_spec in Hv. apply andb_true_iff in Hv as [Ha Hb].
      apply list_elem_of_lookup in Hin as [i Hi].
      apply lookup_zip_with_Some in Hi as (a' & b' & [= <- <-] & H1 & H2).
      exists i, a, b. simpl in Hout. repeat split; try done; lia.
    + intros [?|(i & a & b & H1 & H2 & Ha & Hb & Hout)]; [done|].
      exists (a, b). split; [|done]. apply list_elem_of_filter. split.
      * rewrite jointly_valid_spec. apply andb_true_iff.
        split; apply Z.leb_le; lia.
      * apply list_elem_of_lookup. exists i. apply lookup_zip_with_Some.
        by exists a, b.
  - split; [by left|done].
Qed.

(** ** The duplicate test *)

Lemma elem_of_off_diag (dim i j : nat) :
  (i, j) ∈ off_diag dim ↔ (i < dim)%nat ∧ (j < dim)%nat ∧ i ≠ j.
Proof.
  unfold off_diag. rewrite list_elem_of_bind. split.
  - intros (i' & Hin & Hi'). apply list_elem_of_bind in Hin as (j' & Hin & Hj').
    apply elem_of_seq in Hi', Hj'. case_decide; [|by apply elem_of_nil in Hin].
    apply list_elem_of_singleton in Hin as [= -> ->]. repeat split; [lia|lia|done].
  - intros (Hi & Hj & Hij). exists i. split; [|apply elem_of_seq; lia].
    apply list_elem_of_bind. exists j. split; [|apply elem_of_seq; lia].
    rewrite decide_True by done. left.
Qed.

Lemma any_off_diag_false (dim : nat) (m : matrix) :
  (2 ≤ dim)%nat →
  any_off_diag dim m = false
  ↔ ∀ i j, (i < dim)%nat → (j < dim)%nat → i ≠ j → entry m i j <= 0.
Proof.
  intros Hdim. unfold any_off_diag.
  destruct (off_diag dim) as [|c coords] eqn:E.
  { assert ((0%nat, 1%nat) ∈ off_diag dim) as H by (apply elem_of_off_diag; lia).
    rewrite E in H. by apply elem_of_nil in H. }
  rewrite <- E. clear E. rewrite <- not_true_iff_false, existsb_exists. split.
  - intros Hno i j Hi Hj Hij.
    destruct (decide (entry m i j <= 0)) as [|Hpos]; [done|].
    exfalso. apply Hno. exists (i, j). split.
    + apply list_elem_of_In, elem_of_off_diag. done.
    + simpl. apply Z.ltb_lt. lia.
  - intros Hall ([i j] & Hin & Hpos). simpl in Hpos. apply Z.ltb_lt in Hpos.
    apply list_elem_of_In, elem_of_off_diag in Hin as (Hi & Hj & Hij).
    specialize (Hall i j Hi Hj Hij). lia.
Qed.

Lemma columns_with_zero (a b : Z) (seq1 seq2 : list Z) :
  columns_with a b seq1 seq2 <= 0
  ↔ ∀ i, seq1 !! i = Some a → seq2 !! i = Some b → False.
Proof.
  unfold columns_with.
  destruct (filter (λ xy, xy = (a, b)) (zip seq1 seq2)) as [|xy l] eqn:E.
  - split; [|simpl; lia]. intros _ i H1 H2.
    assert ((a, b) ∈ filter (λ xy, xy = (a, b)) (zip seq1 seq2)) as Hin.
    { apply list_elem_of_filter. split; [done|].
      apply list_elem_of_lookup. exists i. apply lookup_zip_with_Some.
      by exists a, b. }
    rewrite E in Hin. by apply elem_of_nil in Hin.
  - split; [simpl; lia|]. intros Hno. exfalso.
    assert (xy ∈ filter (λ xy, xy = (a, b)) (zip seq1 seq2)) as Hin
        by (rewrite E; left).
    apply list_elem_of_filter in Hin as [-> Hin].
    apply list_elem_of_lookup in Hin as [i Hi].
    apply lookup_zip_with_Some in Hi as (a' & b' & [= <- <-] & H1 & H2).
    by apply (Hno i).
Qed.

Lemma fill_valid_columns_in_range (K : nat) (seq1 seq2 : list Z) (m : matrix)
    (i : nat) (a b : Z) :
  _fill_diversity_matrix (zeros K) seq1 seq2 = Some m →
  seq1 !! i = Some a → seq2 !! i = Some b → 0 <= a → 0 <= b →
  a < Z.of_nat K ∧ b < Z.of_nat K.
Proof.
  unfold _fill_diversity_matrix. case_bool_decide as Hlen; [|done].
  intros Hfill H1 H2 Ha Hb.
  destruct (decide (a < Z.of_nat K ∧ b < Z.of_nat K)) as [|Hout]; [done|].
  assert (fill_pairs (zeros K)
            (filter (λ ab, jointly_valid ab = true) (zip seq1 seq2)) = None) as E.
  { apply (fill_pairs_raises K); [apply zeros_square|apply jointly_valid_filter|].
    apply Exists_exists. exists (a, b). split; [|simpl; lia].
    apply list_elem_of_filter. split.
    - rewrite jointly_valid_spec. apply andb_true_iff. split; apply Z.leb_le; lia.
    - apply list_elem_of_lookup. exists i. apply lookup_zip_with_Some.
      by exists a, b. }
  congruence.
Qed.

(** X3. For an alphabet of at least two states, the diversity matrix of
    two sequences has no positive entry off the diagonal, which is the test
    that [run] uses for a duplicate, exactly when the sequences hold the
    same index at every column where both indices are valid. *)
Theorem duplicate_test_iff (K : nat) (seq1 seq2 : list Z) (m : matrix) :
  (2 ≤ K)%nat →
  _fill_diversity_matrix (zeros K) seq1 seq2 = Some m →
  any_off_diag K m = false
  ↔ ∀ i a b, seq1 !! i = Some a → seq2 !! i = Some b → 0 <= a → 0 <= b → a = b.
Proof.
  intros HK Hfill. rewrite (any_off_diag_false K m HK). split.
  - intros Hoff i a b H1 H2 Ha Hb.
    destruct (decide (a = b)) as [|Hab]; [done|]. exfalso.
    destruct (fill_valid_columns_in_range K seq1 seq2 m i a b) as [Ha' Hb']; try done.
    specialize (Hoff (Z.to_nat a) (Z.to_nat b)).
    rewrite (fill_diversity_matrix_entries_aux K seq1 seq2 m Hfill) in Hoff.
    rewrite !Z2Nat.id in Hoff by done.
    apply (proj1 (columns_with_zero a b seq1 seq2)) with (i := i); try done.
    apply Hoff; lia.
  - intros Hsame i j Hi Hj Hij.
    rewrite (fill_diversity_matrix_entries_aux K seq1 seq2 m Hfill).
    apply columns_with_zero. intros k H1 H2.
    specialize (Hsame k _ _ H1 H2). lia.
Qed.

Lemma duplicate_test_iff_witness :
  ∃ m, _fill_diversity_matrix (zeros 4) [0; 3; -9; 1] [0; 3; 2; 1] = Some m
       ∧ any_off_diag 4 m = false.
Proof.
  eexists. split; [vm_compute; reflexivity|].
  apply (duplicate_test_iff 4 [0; 3; -9; 1] [0; 3; 2; 1]).
  - lia.
  - vm_compute. reflexivity.
  - intros [|[|[|[|[|i]]]]] a b H1 H2 Ha Hb; simpl in H1, H2; simplify_eq; try done.
Defined.

(** ** The alphabet indexer *)

Lemma nat_of_ascii_inj (a b : ascii) : nat_of_ascii a = nat_of_ascii b → a = b.
Proof.
  intros H. rewrite <- (ascii_nat_embedding a), <- (ascii_nat_embedding b).
  by rewrite H.
Qed.

Lemma int32_small (z : Z) : - 2 ^ 31 <= z < 2 ^ 31 → int32 z = z.
Proof. intros Hz. unfold int32. rewrite Z.mod_small; lia. Qed.

Lemma int32_le (z : Z) : - 2 ^ 31 <= z → int32 z <= z.
Proof.
  intros Hz. unfold int32.
  assert ((z + 2 ^ 31) mod 2 ^ 32 <= z + 2 ^ 31); [|lia].
  apply Z.mod_le; lia.
Qed.

(** there are 256 characters *)
Lemma NoDup_ascii_length (l : list ascii) : NoDup l → (length l ≤ 256)%nat.
Proof.
  intros Hnd.
  assert (nat_of_ascii <$> l ⊆+ seq 0 256) as Hsub.
  { apply NoDup_submseteq.
    - apply NoDup_fmap_2; [|done]. intros a b. apply nat_of_ascii_inj.
    - intros o (c & -> & _)%list_elem_of_fmap. apply elem_of_seq.
      pose proof (nat_ascii_bounded c). lia. }
  apply submseteq_length in Hsub. by rewrite length_fmap, length_seq in Hsub.
Qed.

(** the table after the first [i] canonical characters have been entered *)
Lemma index_array_loop (canonical_chars : list ascii) (v0 : Z) (n : nat)
    (tbl0 tbl : list Z) :
  NoDup canonical_chars →
  tbl0 = replicate n v0 →
  for_each
    (λ char_to_index i,
       c ← canonical_chars !! i;
       let o := nat_of_ascii c in
       if decide (o < length char_to_index)%nat
       then Some (<[o := int32 (Z.of_nat i)]> char_to_index)
       else None)
    tbl0 (range 0 (length canonical_chars)) = Some tbl →
  length tbl = n
  ∧ (∀ j c, canonical_chars !! j = Some c →
            tbl !! nat_of_ascii c = Some (Z.of_nat j))
  ∧ (∀ o, (o < n)%nat → (∀ c, c ∈ canonical_chars → nat_of_ascii c ≠ o) →
          tbl !! o = Some v0).
Proof.
  intros Hnd -> H. pose proof (NoDup_ascii_length _ Hnd) as Hshort.
  apply (for_each_range
           (λ i t, length t = n
                   ∧ (∀ j c, (j < i)%nat → canonical_chars !! j = Some c →
                             t !! nat_of_ascii c = Some (Z.of_nat j))
                   ∧ (∀ o, (o < n)%nat →
                           (∀ c, c ∈ canonical_chars → nat_of_ascii c ≠ o) →
                           t !! o = Some v0))) in H.
  - destruct H as (H1 & H2 & H3). split; [done|]. split; [|done].
    intros j c Hj. apply H2; [|done]. by apply lookup_lt_Some in Hj.
  - lia.
  - split; [apply length_replicate|]. split; [intros j c Hj; lia|].
    intros o Ho _. by apply lookup_replicate_2.
  - intros i t t' Hi (H1 & H2 & H3) Hstep.
    destruct (canonical_chars !! i) as [c|] eqn:Hc; [simpl in Hstep|done].
    case_decide as Hlt; [|done]. injection Hstep as <-.
    rewrite (int32_small (Z.of_nat i)) by lia.
    split; [by rewrite length_insert|]. split.
    + intros j c' Hj Hc'. destruct (decide (j = i)) as [->|Hji].
      * assert (c' = c) as -> by congruence. by rewrite list_lookup_insert_eq.
      * rewrite list_lookup_insert_ne; [apply H2; [lia|done]|].
        intros E%nat_of_ascii_inj. subst c'. apply Hji.
        by eapply NoDup_lookup.
    + intros o Ho Hno. rewrite list_lookup_insert_ne; [by apply H3|].
      apply Hno. by eapply list_elem_of_lookup_2.
Qed.

(** X4. For distinct canonical characters, the table that
    [get_moltype_index_array] returns has one entry for each ordinal up to
    the largest ordinal of the characters of the type, holds the position of
    every canonical character at its ordinal, and at the ordinal of every
    other character of the type what [int32] keeps of [invalid]: [invalid]
    itself when it is from [-2^31] up to [2^31 - 1], as the default [-9]
    is. *)
Theorem index_array_entries (canonical_chars all_keys : list ascii) (invalid : Z)
    (char_to_index : list Z) :
  NoDup canonical_chars →
  get_moltype_index_array canonical_chars all_keys invalid = Some char_to_index →
  length char_to_index = S (max_list (nat_of_ascii <$> all_keys))
  ∧ (∀ i c, canonical_chars !! i = Some c →
            char_to_index !! nat_of_ascii c = Some (Z.of_nat i))
  ∧ (∀ c, c ∈ all_keys → c ∉ canonical_chars →
          char_to_index !! nat_of_ascii c = Some (int32 invalid))
  ∧ (- 2 ^ 31 <= invalid < 2 ^ 31 → int32 invalid = invalid).
Proof.
  intros Hnd H. unfold get_moltype_index_array in H.
  destruct all_keys as [|k ks]; [done|]. cbv iota in H.
  set (all_keys := k :: ks) in *.
  apply (index_array_loop canonical_chars (int32 invalid)
           (max_list (nat_of_ascii <$> all_keys) + 1)) in H; [|done|done].
  destruct H as (H1 & H2 & H3). split; [lia|]. split; [done|].
  split; [|apply int32_small].
  intros c Hc Hnc. apply H3.
  - assert (nat_of_ascii c ≤ max_list (nat_of_ascii <$> all_keys))%nat; [|lia].
    apply max_list_elem_of_le. apply list_elem_of_fmap. by exists c.
  - intros c' Hc' E%nat_of_ascii_inj. by subst c'.
Qed.

Lemma index_array_entries_witness :
  ∃ char_to_index,
    get_moltype_index_array ["T"; "C"; "A"; "G"]%char
                            ["T"; "C"; "A"; "G"; "-"; "N"; "?"]%char (-9)
    = Some char_to_index
    ∧ char_to_index !! nat_of_ascii "A" = Some 2
    ∧ char_to_index !! nat_of_ascii "N" = Some (-9).
Proof.
  eexists. split; [vm_compute; reflexivity|].
  destruct (index_array_entries ["T"; "C"; "A"; "G"]%char
              ["T"; "C"; "A"; "G"; "-"; "N"; "?"]%char (-9)
              (<[84%nat := 0]> (<[67%nat := 1]> (<[65%nat := 2]> (<[71%nat := 3]>
                 (replicate 85 (-9)))))))
    as (_ & H2 & H3 & H4).
  - apply (bool_decide_unpack _). vm_compute. exact I.
  - vm_compute. reflexivity.
  - split.
    + apply (H2 2%nat). reflexivity.
    + rewrite <- H4 at 2 by lia.
      apply H3; apply (bool_decide_unpack _); vm_compute; exact I.
Defined.

(** X5. With a negative [invalid] that an [int32] holds, from [-2^31] on,
    encoding a sequence with the table of distinct canonical characters
    yields one index per character: a
    canonical character gets its position, which is below the alphabet size
    and leads back to the character, and every other character gets
    [invalid]. *)
Theorem seq_to_indices_decodes (canonical_chars all_keys seq : list ascii)
    (invalid : Z) (char_to_index indices : list Z) :
  NoDup canonical_chars → - 2 ^ 31 <= invalid < 0 →
  get_moltype_index_array canonical_chars all_keys invalid = Some char_to_index →
  seq_to_indices seq char_to_index = Some indices →
  length indices = length seq
  ∧ ∀ k c, seq !! k = Some c →
      ∃ v, indices !! k = Some v
           ∧ ((c ∈ canonical_chars ∧ 0 <= v < Z.of_nat (length canonical_chars)
               ∧ canonical_chars !! Z.to_nat v = Some c)
              ∨ ((c ∉ canonical_chars) ∧ v = invalid)).
Proof.
  intros Hnd Hinv Htbl Hseq. unfold seq_to_indices, take_at in Hseq.
  apply mapM_Some in Hseq.
  unfold get_moltype_index_array in Htbl.
  destruct all_keys as [|k0 ks]; [done|]. cbv iota in Htbl.
  set (all_keys := k0 :: ks) in *.
  apply (index_array_loop canonical_chars (int32 invalid)
           (max_list (nat_of_ascii <$> all_keys) + 1)) in Htbl; [|done|done].
  destruct Htbl as (H1 & H2 & H3). rewrite int32_small in H3 by lia.
  split.
  { apply Forall2_length in Hseq. by rewrite length_fmap in Hseq. }
  intros k c Hk.
  assert ((nat_of_ascii <$> seq) !! k = Some (nat_of_ascii c)) as Hord
      by (rewrite list_lookup_fmap, Hk; reflexivity).
  destruct (Forall2_lookup_l _ _ _ _ _ Hseq Hord) as (v & Hv & Hlook).
  exists v. split; [done|].
  destruct (decide (c ∈ canonical_chars)) as [Hc|Hc].
  - left. split; [done|]. apply list_elem_of_lookup in Hc as [i Hi].
    rewrite (H2 i c Hi) in Hlook. injection Hlook as <-.
    apply lookup_lt_Some in Hi as Hlt. rewrite Nat2Z.id. split; [lia|done].
  - right. split; [done|].
    rewrite H3 in Hlook; [congruence| |].
    + apply lookup_lt_Some in Hlook. lia.
    + intros c' Hc' E%nat_of_ascii_inj. by subst c'.
Qed.

Lemma seq_to_indices_decodes_witness :
  ∃ indices,
    seq_to_indices ["A"; "T"; "-"; "G"]%char
      (<[84%nat := 0]> (<[67%nat := 1]> (<[65%nat := 2]> (<[71%nat := 3]>
         (replicate 85 (-9))))))
    = Some indices
    ∧ length indices = 4%nat.
Proof.
  eexists. split; [vm_compute; reflexivity|].
  apply (seq_to_indices_decodes ["T"; "C"; "A"; "G"]%char
           ["T"; "C"; "A"; "G"; "-"; "N"; "?"]%char ["A"; "T"; "-"; "G"]%char (-9)
           (<[84%nat := 0]> (<[67%nat := 1]> (<[65%nat := 2]> (<[71%nat := 3]>
              (replicate 85 (-9))))))).
  - apply (bool_decide_unpack _). vm_compute. exact I.
  - lia.
  - vm_compute. reflexivity.
  - vm_compute. reflexivity.
Defined.

(** ** The runner: where the stored statistics come from *)

Lemma duped_append_elem (i j : nat) (d : list (nat * list nat)) (k x : nat)
    (v : list nat) :
  (k, v) ∈ duped_append i j d → x ∈ v →
  (∃ v0, (k, v0) ∈ d ∧ x ∈ v0) ∨ (k = i ∧ x = j).
Proof.
  induction d as [|[k' v'] d IH]; cbn [duped_append].
  - intros Hin%list_elem_of_singleton Hx. injection Hin as -> ->.
    apply list_elem_of_singleton in Hx. by right.
  - destruct (decide (k' = i)) as [->|Hk].
    + intros [[= -> ->]|Hin]%elem_of_cons Hx.
      * apply elem_of_app in Hx as [Hx|Hx].
        -- left. exists v'. split; [left|done].
        -- apply list_elem_of_singleton in Hx. by right.
      * left. exists v. split; [by right|done].
    + intros [[= -> ->]|Hin]%elem_of_cons Hx.
      * left. exists v'. split; [left|done].
      * destruct (IH Hin Hx) as [(v0 & H1 & H2)|H]; [|by right].
        left. exists v0. split; [by right|done].
Qed.

Lemma duped_append_nonempty (i j : nat) (d : list (nat * list nat)) :
  Forall (λ kv, kv.2 ≠ []) d → Forall (λ kv, kv.2 ≠ []) (duped_append i j d).
Proof.
  induction 1 as [|[k v] d Hv Hd IH]; cbn [duped_append].
  - by repeat constructor.
  - destruct (decide (k = i)) as [->|Hk].
    + constructor; [|done]. simpl. by destruct v.
    + by constructor.
Qed.

Section Provenance.
Variable func : matrix → option stats.

Lemma pairwise_duped_nonempty (c : calculator_state) (st : loop_state) :
  pairwise func c = Some st → Forall (λ kv, kv.2 ≠ []) (duped st).
Proof.
  unfold pairwise.
  apply (for_each_invariant (λ s0, Forall (λ kv, kv.2 ≠ []) (duped s0))).
  - intros s0 i s' HP Hi. unfold compare_all in Hi.
    case_decide; [by injection Hi as <-|].
    destruct (names c !! i) as [name_1|]; [simpl in Hi|done].
    destruct (indexed_seqs c !! i) as [s1|]; [simpl in Hi|done].
    revert Hi.
    apply (for_each_invariant (λ s0, Forall (λ kv, kv.2 ≠ []) (duped s0))); [|done].
    intros s2 j s3 HP2 Hc. unfold compare in Hc.
    case_decide; [by injection Hc as <-|].
    destruct (names c !! j) as [name_2|]; [simpl in Hc|done].
    destruct (indexed_seqs c !! j) as [s2'|]; [simpl in Hc|done].
    destruct (_fill_diversity_matrix _ s1 s2') as [m|]; [simpl in Hc|done].
    destruct (negb (any_off_diag (_dim c) m)).
    + injection Hc as <-. simpl. by apply duped_append_nonempty.
    + destruct (func m) as [[[[total p] d] var]|]; [simpl in Hc|done].
      by injection Hc as <-.
  - constructor.
Qed.

Lemma compare_provenance (G : pair_key → Stats → Prop) (c : calculator_state)
    (q : Q) (i : nat) (name_1 : string) (s1 : list Z) (st st' : loop_state)
    (j : nat) :
  (∀ key s, computed func c key s → G key s) →
  (i < j)%nat → names c !! i = Some name_1 → indexed_seqs c !! i = Some s1 →
  (∀ key s, dists st !! key = Some s → G key s)
  ∧ (∀ k v x, (k, v) ∈ duped st → x ∈ v → no_changes c k x) →
  compare func c q i name_1 s1 st j = Some st' →
  (∀ key s, dists st' !! key = Some s → G key s)
  ∧ (∀ k v x, (k, v) ∈ duped st' → x ∈ v → no_changes c k x).
Proof.
  intros HG Hij Hn1 Hs1 [Hd Hdup] H. unfold compare in H.
  case_decide; [by injection H as <-|].
  destruct (names c !! j) as [name_2|] eqn:Hn2; [simpl in H|done].
  destruct (indexed_seqs c !! j) as [s2|] eqn:Hs2; [simpl in H|done].
  destruct (_fill_diversity_matrix _ s1 s2) as [m|] eqn:Hm; [simpl in H|done].
  assert (pair_matrix c i j = Some m) as Hpm.
  { unfold pair_matrix. rewrite Hs1. simpl. rewrite Hs2. simpl. done. }
  destruct (any_off_diag (_dim c) m) eqn:Hoff; simpl in H.
  - destruct (func m) as [[[[total p] d] var]|] eqn:Hf; [simpl in H|done].
    injection H as <-. simpl. split; [|done].
    intros key s.
    assert (computed func c (name_1, name_2) (MkStats total p d var)
            ∧ computed func c (name_2, name_1) (MkStats total p d var)) as [C1 C2].
    { split; exists i, j, name_1, name_2, m; repeat split; try done;
        [by left|by right]. }
    rewrite lookup_insert.
    case_decide as E1; [subst key; intros [= <-]; by apply HG|].
    rewrite lookup_insert.
    case_decide as E2; [subst key; intros [= <-]; by apply HG|].
    apply Hd.
  - injection H as <-. simpl. split; [done|].
    intros k v x Hin Hx.
    destruct (duped_append_elem i j _ k x v Hin Hx) as [(v0 & H1 & H2)|[-> ->]].
    + by eapply Hdup.
    + split; [done|]. by exists m.
Qed.

Lemma pairwise_provenance (G : pair_key → Stats → Prop) (c : calculator_state)
    (st : loop_state) :
  (∀ key s, computed func c key s → G key s) →
  (∀ key s, _dists c !! key = Some s → G key s) →
  pairwise func c = Some st →
  (∀ key s, dists st !! key = Some s → G key s)
  ∧ (∀ k v x, (k, v) ∈ duped st → x ∈ v → no_changes c k x).
Proof.
  intros HG Hstart. unfold pairwise.
  apply (for_each_invariant
           (λ s0, (∀ key s, dists s0 !! key = Some s → G key s)
                  ∧ (∀ k v x, (k, v) ∈ duped s0 → x ∈ v → no_changes c k x))).
  - intros s0 i s' HP Hi. unfold compare_all in Hi.
    case_decide; [by injection Hi as <-|].
    destruct (names c !! i) as [name_1|] eqn:Hn1; [simpl in Hi|done].
    destruct (indexed_seqs c !! i) as [s1|] eqn:Hs1; [simpl in Hi|done].
    destruct (decide (i + 1 ≤ length (names c))%nat) as [Hle|Hgt].
    + revert Hi.
      apply (for_each_range
               (λ _ s0, (∀ key s, dists s0 !! key = Some s → G key s)
                        ∧ (∀ k v x, (k, v) ∈ duped s0 → x ∈ v → no_changes c k x)));
        [done|done|].
      intros j s2 s3 Hj. apply compare_provenance; [done|lia|done|done].
    + unfold range in Hi. replace (length (names c) - (i + 1))%nat with 0%nat in Hi
        by lia.
      simpl in Hi. by injection Hi as <-.
  - simpl. split; [done|].
    intros k v x Hin. by apply elem_of_nil in Hin.
Qed.

(** the whole of what a run that returns has computed *)
Lemma run_inv_full (c c' : calculator_state) :
  run func c = Some c' →
  ∃ st dn,
    pairwise func c = Some st
    ∧ dn = name_at c <$> elements (dupes st)
    ∧ names c' = names c
    ∧ indexed_seqs c' = indexed_seqs c
    ∧ _dim c' = _dim c
    ∧ _dupes c' = match dn with [] => None | _ => Some dn end
    ∧ loop_inv c (length (names c) - 1) (length (names c) - 1) 0 st
    ∧ ((duped st = [] ∧ _dists c' = dists st ∧ _duped c' = None)
       ∨ (duped st ≠ []
          ∧ ∃ named, named_duped c (duped st) [] = Some named
                     ∧ _dists c' = clean dn (dists st)
                     ∧ _duped c' = Some named)).
Proof.
  unfold run, run_shown. intros H.
  destruct (pairwise func c) as [st|] eqn:Hp; [|simpl in H; discriminate H].
  cbn [mbind option_bind] in H.
  destruct (names_of c (elements (dupes st))) as [dn|] eqn:En;
    [|simpl in H; discriminate H].
  cbn [mbind option_bind] in H.
  exists st, dn. split; [done|].
  split; [by apply names_of_Some|].
  pose proof (pairwise_inv func c st Hp) as Hinv.
  destruct (duped st) as [|kv items] eqn:Ed.
  - simpl in H. injection H as <-. simpl.
    do 5 (split; [done|]). by left.
  - destruct (named_duped c (kv :: items) []) as [named|] eqn:Enamed;
      [|simpl in H; discriminate H].
    cbn [mbind option_bind fmap option_fmap option_map] in H.
    injection H as <-. simpl.
    do 5 (split; [done|]). right. split; [done|]. by exists named.
Qed.

(** what [self.duplicated] holds after a run over distinct names *)
Lemma run_duplicated_items (c c' : calculator_state) (d : list (string * list string)) :
  NoDup (names c) → run func c = Some c' → duplicated c' = Some d →
  ∃ st, pairwise func c = Some st
        ∧ d = named_items c (duped st)
        ∧ loop_inv c (length (names c) - 1) (length (names c) - 1) 0 st
        ∧ _dupes c' = Some (name_at c <$> elements (dupes st))
        ∧ _dists c' = clean (name_at c <$> elements (dupes st)) (dists st).
Proof.
  intros Hnd Hrun Hd.
  apply run_inv_full in Hrun
    as (st & dn & Hp & -> & Hn & _ & _ & Hdupes & Hinv & Hcase).
  destruct Hcase as [(_ & _ & Hnone)|(Hne & named & Hnamed & Hdists & Hduped)].
  { unfold duplicated in Hd. congruence. }
  assert (d = named) as -> by (unfold duplicated in Hd; congruence).
  exists st. split; [done|]. destruct Hinv as [I1 I2 I3 I4 I5 I6].
  assert (named = named_items c (duped st)) as ->.
  { apply (named_duped_fresh c (duped st) []); [|done]. simpl.
    apply NoDup_fmap_2_strong; [|done]. intros a b Ha Hb.
    destruct (I4 a Ha), (I4 b Hb). apply name_at_inj; auto; lia. }
  split; [done|]. split; [done|]. split; [|done].
  rewrite Hdupes.
  destruct (elements (dupes st)) as [|x l] eqn:E; [|done].
  exfalso. apply elements_empty_inv in E.
  pose proof (pairwise_duped_nonempty c st Hp) as Hne'.
  destruct (duped st) as [|[k v] items] eqn:Ed; [done|].
  apply Forall_cons in Hne' as [Hv _]. simpl in Hv.
  destruct v as [|j v]; [done|].
  assert (j ∈ dupes st) as Hj.
  { apply I3. rewrite fmap_cons. cbn [snd concat]. left. }
  apply (proj1 (elem_of_equiv_empty (dupes st)) E j Hj).
Qed.

Lemma run_store_complete (c c' : calculator_state) (x y : string) :
  NoDup (names c) → run func c = Some c' →
  x ∈ names c → y ∈ names c → x ≠ y →
  x ∉ dupe_names c' → y ∉ dupe_names c' →
  is_Some (_dists c' !! (x, y)).
Proof.
  intros Hnd Hrun Hx Hy Hxy Hxd Hyd.
  apply run_inv_full in Hrun
    as (st & dn & Hp & Hdn & Hn & _ & _ & Hdupes & [I1 I2 I3 I4 I5 I6] & Hcase).
  assert (dupe_names c' = dn) as Hdn'.
  { unfold dupe_names. rewrite Hdupes. by destruct dn. }
  rewrite Hdn' in Hxd, Hyd.
  apply list_elem_of_lookup in Hx as [a Ha]. apply list_elem_of_lookup in Hy as [b Hb].
  assert (∀ e z, names c !! e = Some z → z ∉ dn → e ∉ dupes st) as Hnot.
  { intros e z He Hz Hin. apply Hz. rewrite Hdn. apply list_elem_of_fmap.
    exists e. split; [symmetry; by apply name_at_lookup|by apply elem_of_elements]. }
  assert (is_Some (dists st !! (x, y))) as [s Hs].
  { destruct (decide (a < b)%nat) as [Hlt|Hge].
    - destruct (I6 a b x y) as [H1 _]; eauto.
      apply lookup_lt_Some in Hb. lia.
    - assert (b < a)%nat as Hlt by (assert (a ≠ b) by congruence; lia).
      destruct (I6 b a y x) as [_ H2]; eauto.
      apply lookup_lt_Some in Ha. lia. }
  destruct Hcase as [(_ & -> & _)|(_ & named & _ & -> & _)]; [by exists s|].
  exists s. unfold clean. by apply map_lookup_filter_Some_2.
Qed.

Lemma stored_entry_names (c c' : calculator_state) (key : pair_key) (s : Stats) :
  _dists c = ∅ → run func c = Some c' → _dists c' !! key = Some s →
  ∃ i j n1 n2, (i < j)%nat ∧ names c !! i = Some n1 ∧ names c !! j = Some n2
               ∧ (key = (n1, n2) ∨ key = (n2, n1)).
Proof.
  intros Hempty Hrun Hk.
  apply run_inv_full in Hrun as (st & dn & Hp & _ & _ & _ & _ & _ & _ & Hcase).
  destruct (pairwise_provenance (computed func c) c st) as [Hd _]; [done| |done|].
  { intros k0 s0. by rewrite Hempty, lookup_empty. }
  assert (dists st !! key = Some s) as Hk'.
  { destruct Hcase as [(_ & E & _)|(_ & named & _ & E & _)]; rewrite E in Hk;
      [done|]. by apply map_lookup_filter_Some_1_1 in Hk. }
  destruct (Hd key s Hk') as (i & j & n1 & n2 & m & Hij & H1 & H2 & Hkey & _).
  by exists i, j, n1, n2.
Qed.
End Provenance.

(** X6. After a run from the empty store, every entry of the store is
    what the estimator returned for the diversity matrix of the two named
    sequences, taken in the order of the alignment, and that matrix has a
    positive entry off the diagonal. *)
Theorem stored_statistics_computed (func : matrix → option stats)
    (c c' : calculator_state) :
  _dists c = ∅ → run func c = Some c' →
  ∀ key s, _dists c' !! key = Some s → computed func c key s.
Proof.
  intros Hempty Hrun.
  apply run_inv_full in Hrun as (st & dn & Hp & _ & _ & _ & _ & _ & _ & Hcase).
  destruct (pairwise_provenance func (computed func c) c st) as [Hd _]; [done| |done|].
  { intros key s. by rewrite Hempty, lookup_empty. }
  intros key s Hk.
  destruct Hcase as [(_ & E & _)|(_ & named & _ & E & _)]; rewrite E in Hk.
  - by apply Hd.
  - apply map_lookup_filter_Some_1_1 in Hk. by apply Hd.
Qed.

Lemma stored_statistics_computed_witness :
  ∃ c', run hamming_func three_distinct = Some c'
        ∧ ∀ key s, _dists c' !! key = Some s → computed hamming_func three_distinct key s.
Proof.
  destruct (run hamming_func three_distinct) as [c'|] eqn:E;
    [|vm_compute in E; discriminate E].
  exists c'. split; [done|].
  apply (stored_statistics_computed hamming_func three_distinct c'); [reflexivity|exact E].
Defined.

(** X7. After a run over distinct names, a name listed in
    [self.duplicated] under a representative comes later in the alignment
    than the representative, and the diversity matrix of the two sequences
    has no positive entry off the diagonal. *)
Theorem duplicates_have_no_changes (func : matrix → option stats)
    (c c' : calculator_state) (d : list (string * list string))
    (A B : string) (dups : list string) :
  NoDup (names c) → run func c = Some c' →
  duplicated c' = Some d → (A, dups) ∈ d → B ∈ dups →
  ∃ i j, names c !! i = Some A ∧ names c !! j = Some B ∧ no_changes c i j.
Proof.
  intros Hnd Hrun Hd HA HB.
  destruct (run_duplicated_items func c c' d Hnd Hrun Hd)
    as (st & Hp & -> & [I1 I2 I3 I4 I5 I6] & _).
  destruct (pairwise_provenance func (λ _ _, True) c st) as [_ Hdup]; [done..|].
  apply named_items_elem in HA as (k & v & Hkv & -> & ->).
  apply list_elem_of_fmap in HB as (j & -> & Hj).
  exists k, j. split; [|split].
  - apply lookup_name_at. destruct (I4 k (elem_of_keys _ _ _ Hkv)). lia.
  - apply lookup_name_at, I5, I3. by eapply elem_of_vals.
  - by eapply Hdup.
Qed.

Lemma duplicates_have_no_changes_witness :
  ∃ i j, names two_twins !! i = Some "c" ∧ names two_twins !! j = Some "d"
         ∧ no_changes two_twins i j.
Proof.
  destruct (run hamming_func two_twins) as [c'|] eqn:E;
    [|vm_compute in E; discriminate E].
  apply (duplicates_have_no_changes hamming_func two_twins c'
           [("a", ["b"]); ("c", ["d"])] "c" "d" ["d"]).
  - apply (bool_decide_unpack _). vm_compute. exact I.
  - exact E.
  - vm_compute in E. injection E as <-. reflexivity.
  - right. left.
  - left.
Defined.

(** X8. After a run over distinct names, [self.duplicated] lists every
    representative once, every duplicate once and with at least one
    duplicate per representative, no representative is a duplicate, and the
    duplicates listed are the names of [self._dupes]. *)
Theorem duplicated_partition (func : matrix → option stats)
    (c c' : calculator_state) (d : list (string * list string)) :
  NoDup (names c) → run func c = Some c' → duplicated c' = Some d →
  NoDup d.*1
  ∧ NoDup (concat d.*2)
  ∧ Forall (λ kv, kv.2 ≠ []) d
  ∧ (∀ x, x ∈ d.*1 → x ∉ concat d.*2)
  ∧ (∀ x, x ∈ concat d.*2 ↔ x ∈ dupe_names c')
  ∧ (∀ x, x ∈ d.*1 ∨ x ∈ concat d.*2 → x ∈ names c').
Proof.
  intros Hnd Hrun Hd.
  destruct (run_duplicated_items func c c' d Hnd Hrun Hd)
    as (st & Hp & -> & [I1 I2 I3 I4 I5 I6] & Hdupes & _).
  pose proof (pairwise_duped_nonempty func c st Hp) as Hne.
  assert (names c' = names c) as Hn.
  { by apply run_inv_full in Hrun as (? & ? & _ & _ & ? & _). }
  assert (∀ k, k ∈ (duped st).*1 → (k < length (names c))%nat) as Hkeys.
  { intros k Hk. destruct (I4 k Hk). lia. }
  assert (∀ j, j ∈ concat (duped st).*2 → (j < length (names c))%nat) as Hvals.
  { intros j Hj. by apply I5, I3. }
  rewrite named_items_keys, named_items_vals. unfold dupe_names. rewrite Hdupes, Hn.
  split; [|split; [|split; [|split; [|split]]]].
  - apply NoDup_fmap_2_strong; [|done]. intros a b Ha Hb. apply name_at_inj; auto.
  - apply NoDup_fmap_2_strong; [|done]. intros a b Ha Hb. apply name_at_inj; auto.
  - unfold named_items. apply Forall_fmap. eapply Forall_impl; [exact Hne|].
    intros [k v] Hv. simpl in *. by destruct v.
  - intros x (k & -> & Hk)%list_elem_of_fmap (j & E & Hj)%list_elem_of_fmap.
    apply name_at_inj in E; auto. subst j.
    destruct (I4 k Hk) as [_ Hnot]. by apply Hnot, I3.
  - intros x. simpl. rewrite !list_elem_of_fmap. split.
    + intros (j & -> & Hj). exists j. split; [done|]. by apply elem_of_elements, I3.
    + intros (j & -> & Hj). exists j. split; [done|]. by apply I3, elem_of_elements.
  - intros x [(k & -> & Hk)%list_elem_of_fmap|(j & -> & Hj)%list_elem_of_fmap].
    + apply list_elem_of_lookup. exists k. apply lookup_name_at. auto.
    + apply list_elem_of_lookup. exists j. apply lookup_name_at. auto.
Qed.

Lemma duplicated_partition_witness :
  ∃ c' d, run hamming_func two_twins = Some c' ∧ duplicated c' = Some d
          ∧ NoDup d.*1 ∧ NoDup (concat d.*2).
Proof.
  destruct (run hamming_func two_twins) as [c'|] eqn:E;
    [|vm_compute in E; discriminate E].
  exists c', [("a", ["b"]); ("c", ["d"])].
  assert (duplicated c' = Some [("a", ["b"]); ("c", ["d"])]) as Hd.
  { vm_compute in E. injection E as <-. reflexivity. }
  split; [done|]. split; [done|].
  destruct (duplicated_partition hamming_func two_twins c'
              [("a", ["b"]); ("c", ["d"])]) as (H1 & H2 & _).
  - apply (bool_decide_unpack _). vm_compute. exact I.
  - exact E.
  - exact Hd.
  - split; [exact H1|exact H2].
Defined.

(** X9. After a run over distinct names from the empty store, the store
    holds an entry for a pair exactly when its two names are different
    names of the alignment and neither is in [self._dupes]. *)
Theorem store_keys (func : matrix → option stats) (c c' : calculator_state)
    (x y : string) :
  NoDup (names c) → _dists c = ∅ → run func c = Some c' →
  is_Some (_dists c' !! (x, y))
  ↔ x ∈ names c ∧ y ∈ names c ∧ x ≠ y
    ∧ (x ∉ dupe_names c') ∧ (y ∉ dupe_names c').
Proof.
  intros Hnd Hempty Hrun. split.
  - intros [s Hs].
    pose proof (stored_entry_names func c c' (x, y) s Hempty Hrun Hs)
      as (i & j & n1 & n2 & Hij & H1 & H2 & Hkey).
    assert (n1 ≠ n2) as Hne.
    { intros ->. assert (i = j) by (by eapply NoDup_lookup). lia. }
    apply list_elem_of_lookup_2 in H1 as H1', H2 as H2'.
    assert ((x ∉ dupe_names c') ∧ (y ∉ dupe_names c')) as [Hx Hy].
    { apply run_inv_full in Hrun
        as (st & dn & Hp & Hdn & Hn & _ & _ & Hdupes & [I1 I2 I3 I4 I5 I6] & Hcase).
      assert (dupe_names c' = dn) as ->.
      { unfold dupe_names. rewrite Hdupes. by destruct dn. }
      destruct Hcase as [(Hd & _ & _)|(_ & named & _ & E & _)].
      - assert (dn = []) as ->; [|split; apply not_elem_of_nil].
        rewrite Hdn. assert (elements (dupes st) = []) as ->; [|done].
        apply elements_empty_iff, elem_of_equiv_empty. intros e He%I3.
        rewrite Hd in He.
        by apply elem_of_nil in He.
      - rewrite E in Hs. unfold clean in Hs.
        apply map_lookup_filter_Some_1_2 in Hs. exact Hs. }
    destruct Hkey as [[= -> ->]|[= -> ->]]; repeat split; try done;
      by apply not_eq_sym.
  - intros (Hx & Hy & Hxy & Hxd & Hyd). by eapply run_store_complete.
Qed.

Lemma store_keys_witness :
  ∃ c', run hamming_func two_twins = Some c'
        ∧ is_Some (_dists c' !! ("a", "c"))
        ∧ ¬ is_Some (_dists c' !! ("a", "b")).
Proof.
  destruct (run hamming_func two_twins) as [c'|] eqn:E;
    [|vm_compute in E; discriminate E].
  exists c'. split; [done|].
  assert (NoDup (names two_twins)) as Hnd
      by (apply (bool_decide_unpack _); vm_compute; exact I).
  assert (dupe_names c' = ["d"; "b"]) as Hd.
  { vm_compute in E. injection E as <-. reflexivity. }
  split.
  - apply (store_keys hamming_func two_twins c' "a" "c" Hnd eq_refl E).
    rewrite Hd. repeat split; try (apply (bool_decide_unpack _); vm_compute; exact I).
  - intros H.
    apply (store_keys hamming_func two_twins c' "a" "b" Hnd eq_refl E) in H
      as (_ & _ & _ & _ & Hb).
    apply Hb. rewrite Hd. right. left.
Defined.

(** ** The table of a statistic *)


Lemma set_cell_grid (n : nat) (rows : list (list cell)) (i j : nat) (v : cell) :
  grid n rows → grid n (set_cell rows i j v).
Proof.
  intros [Hlen Hrows]. unfold set_cell. split; [by rewrite length_alter|].
  apply Forall_alter; [done|]. intros row _ Hl. by rewrite length_insert.
Qed.

Lemma set_cell_same (n : nat) (rows : list (list cell)) (i j : nat) (v : cell) :
  grid n rows → (i < n)%nat → (j < n)%nat →
  grid_cell (set_cell rows i j v) i j = Some v.
Proof.
  intros [Hlen Hrows] Hi Hj. unfold grid_cell, set_cell.
  destruct (lookup_lt_is_Some_2 rows i) as [row Hrow]; [lia|].
  rewrite list_lookup_alter_eq, Hrow. simpl.
  apply list_lookup_insert_eq.
  rewrite Forall_forall in Hrows. rewrite (Hrows row); [done|].
  by eapply list_elem_of_lookup_2.
Qed.

Lemma set_cell_other (rows : list (list cell)) (i j a b : nat) (v : cell) :
  (a, b) ≠ (i, j) → grid_cell (set_cell rows i j v) a b = grid_cell rows a b.
Proof.
  intros Hne. unfold grid_cell, set_cell.
  destruct (decide (a = i)) as [->|Ha].
  - rewrite list_lookup_alter_eq. destruct (rows !! i) as [row|]; [simpl|done].
    apply list_lookup_insert_ne. congruence.
  - by rewrite list_lookup_alter_ne.
Qed.

Lemma stat_row_copied (stats : gmap pair_key pyval) (names_ : list string)
    (i : nat) (n1 : string) (rows rows' : list (list cell)) (j : nat) :
  (i < j)%nat → names_ !! i = Some n1 →
  copied stats names_ i j rows →
  stat_row stats names_ i n1 rows j = Some rows' →
  copied stats names_ i (S j) rows'.
Proof.
  intros Hij Hn1 (Hg & Hdiag & Hc) H. unfold stat_row in H.
  destruct (names_ !! j) as [n2|] eqn:Hn2; [simpl in H|done].
  destruct (stats !! (n1, n2)) as [val|] eqn:Hval; [simpl in H|done].
  injection H as <-.
  apply lookup_lt_Some in Hn1 as Hi. apply lookup_lt_Some in Hn2 as Hj.
  pose proof (set_cell_grid _ rows i j (CVal val) Hg) as Hg1.
  split; [by apply set_cell_grid|]. split.
  - intros a Ha. rewrite !set_cell_other by (intros [= ]; lia). by apply Hdiag.
  - intros a b na nb Hab Hv Hna Hnb.
    destruct (decide (a = i ∧ b = j)) as [[-> ->]|Hne].
    + assert (na = n1) as -> by congruence. assert (nb = n2) as -> by congruence.
      exists val. split; [done|]. split.
      * rewrite set_cell_other by (intros [= ]; lia).
        by apply (set_cell_same (length names_)).
      * by apply (set_cell_same (length names_)).
    + destruct (Hc a b na nb) as (v & H1 & H2 & H3); try done; [lia|].
      exists v. split; [done|].
      rewrite !set_cell_other; [done|..]; intros [= ]; lia.
Qed.

Lemma stat_rows_copied (stats : gmap pair_key pyval) (names_ : list string)
    (rows : list (list cell)) :
  for_each
    (λ rows i,
       n1 ← names_ !! i;
       for_each (stat_row stats names_ i n1) rows (range (i + 1) (length names_)))
    (replicate (length names_) (replicate (length names_) (CVal (PNum 0))))
    (range 0 (length names_ - 1)) = Some rows →
  copied stats names_ (length names_ - 1) 0 rows.
Proof.
  intros H.
  apply (for_each_range (λ i r, copied stats names_ i 0 r)) in H; [done|lia| |].
  - split; [|split].
    + split; [apply length_replicate|]. apply Forall_replicate, length_replicate.
    + intros a Ha. unfold grid_cell. rewrite lookup_replicate_2 by done. simpl.
      by apply lookup_replicate_2.
    + intros a b na nb Hab Hv. lia.
  - intros i r r' Hi Hinv Hstep.
    destruct (names_ !! i) as [n1|] eqn:Hn1; [simpl in Hstep|done].
    apply (for_each_range (λ j r, copied stats names_ i j r)) in Hstep.
    + destruct Hstep as (Hg & Hd & Hc). split; [done|]. split; [done|].
      intros a b na nb Hab Hv Hna Hnb. apply Hc; try done.
      apply lookup_lt_Some in Hnb. lia.
    + lia.
    + destruct Hinv as (Hg & Hd & Hc). split; [done|]. split; [done|].
      intros a b na nb Hab Hv Hna Hnb. apply Hc; try done. lia.
    + intros j r1 r2 Hj Hinv1 Hrow.
      eapply stat_row_copied; [| |exact Hinv1|exact Hrow]; [lia|done].
Qed.

Lemma name_column (names_ : list string) (rows0 rows : list (list cell)) :
  length rows0 = length names_ →
  for_each
    (λ rows i, name ← names_ !! i; Some (alter (λ row, CName name :: row) i rows))
    rows0 (range 0 (length names_)) = Some rows →
  length rows = length names_
  ∧ ∀ a na row, names_ !! a = Some na → rows0 !! a = Some row →
                rows !! a = Some (CName na :: row).
Proof.
  intros Hlen H.
  apply (for_each_range
           (λ k r, length r = length names_
                   ∧ ∀ a na row, names_ !! a = Some na → rows0 !! a = Some row →
                       r !! a = Some (if decide (a < k)%nat then CName na :: row
                                      else row))) in H.
  - destruct H as [H1 H2]. split; [done|]. intros a na row Hna Hrow.
    rewrite (H2 a na row Hna Hrow). apply lookup_lt_Some in Hna.
    by rewrite decide_True.
  - lia.
  - split; [done|]. intros a na row _ Hrow. by rewrite decide_False by lia.
  - intros k r r' Hk [H1 H2] Hstep.
    destruct (names_ !! k) as [name|] eqn:Hname; [simpl in Hstep|done].
    injection Hstep as <-. split; [by rewrite length_alter|].
    intros a na row Hna Hrow. destruct (decide (a = k)) as [->|Hak].
    + rewrite list_lookup_alter_eq, (H2 k na row Hna Hrow).
      rewrite decide_False by lia. rewrite decide_True by lia. simpl. congruence.
    + rewrite list_lookup_alter_ne by done. rewrite (H2 a na row Hna Hrow).
      destruct (decide (a < k)%nat); [rewrite decide_True by lia|
                                      rewrite decide_False by lia]; done.
Qed.

Lemma for_each_total_range {S} (P : nat → S → Prop) (body : S → nat → option S)
    (a b : nat) (st : S) :
  (a ≤ b)%nat → P a st →
  (∀ k s, (a ≤ k < b)%nat → P k s → ∃ s', body s k = Some s' ∧ P (Datatypes.S k) s') →
  ∃ st', for_each body st (range a b) = Some st' ∧ P b st'.
Proof.
  unfold range. intros Hab. remember (b - a)%nat as n eqn:Hn.
  revert a st Hab Hn. induction n as [|n IH]; intros a st Hab Hn HP Hbody.
  - exists st. split; [done|]. by replace b with a by lia.
  - destruct (Hbody a st) as (s1 & E & HP1); [lia|done|].
    destruct (IH (Datatypes.S a) s1) as (st' & E' & HP'); try done; try lia.
    + intros k s Hk. apply Hbody. lia.
    + exists st'. split; [|done]. simpl. by rewrite E.
Qed.

Lemma make_stat_table_total (stats : gmap pair_key pyval) (names_ : list string) :
  (∀ a b na nb, (a < b)%nat → names_ !! a = Some na → names_ !! b = Some nb →
                is_Some (stats !! (na, nb))) →
  is_Some (_make_stat_table stats names_).
Proof.
  intros Hall. unfold _make_stat_table.
  destruct (for_each_total_range (λ _ r, length r = length names_)
              (λ rows i,
                 n1 ← names_ !! i;
                 for_each (stat_row stats names_ i n1) rows
                   (range (i + 1) (length names_)))
              0 (length names_ - 1)
              (replicate (length names_) (replicate (length names_) (CVal (PNum 0)))))
    as (rows1 & -> & Hl1).
  - lia.
  - apply length_replicate.
  - intros i r Hi Hr.
    destruct (lookup_lt_is_Some_2 names_ i) as [n1 Hn1]; [lia|]. rewrite Hn1. simpl.
    destruct (for_each_total_range (λ _ r, length r = length names_)
                (stat_row stats names_ i n1) (i + 1) (length names_) r)
      as (r' & E & Hr'); [lia|done| |by exists r'].
    intros j r1 Hj Hr1. unfold stat_row.
    destruct (lookup_lt_is_Some_2 names_ j) as [n2 Hn2]; [lia|]. rewrite Hn2. simpl.
    destruct (Hall i j n1 n2) as [v Hv]; [lia|done|done|]. rewrite Hv. simpl.
    eexists. split; [done|]. unfold set_cell. by rewrite !length_alter.
  - simpl.
    destruct (for_each_total_range (λ _ r, length r = length names_)
                (λ rows i,
                   name ← names_ !! i; Some (alter (λ row, CName name :: row) i rows))
                0 (length names_) rows1) as (rows2 & -> & _); [lia|done| |by eexists].
    intros i r Hi Hr.
    destruct (lookup_lt_is_Some_2 names_ i) as [n1 Hn1]; [lia|]. rewrite Hn1. simpl.
    eexists. split; [done|]. by rewrite length_alter.
Qed.

(** X10. When [_make_stat_table] returns, the header is the corner label
    followed by the names, there is one row per name, each row starts with
    its name, the diagonal holds the integer [0], and for every two names
    the statistic of the pair, taken in the order of the names, is in both
    triangles.  It returns when every such pair has a statistic; a missing
    pair raises [KeyError]. *)
Theorem make_stat_table_cells (stats : gmap pair_key pyval) (names_ : list string) :
  (is_Some (_make_stat_table stats names_)
   ↔ ∀ a b na nb, (a < b)%nat → names_ !! a = Some na → names_ !! b = Some nb →
                  is_Some (stats !! (na, nb)))
  ∧ ∀ header rows,
      _make_stat_table stats names_ = Some (header, rows) →
      header = "Seq1 \ Seq2" :: names_
      ∧ length rows = length names_
      ∧ (∀ a na, names_ !! a = Some na →
                 rows !! a ≫= head = Some (CName na)
                 ∧ table_cell rows a a = Some (CVal (PNum 0)))
      ∧ ∀ a b na nb,
          (a < b)%nat → names_ !! a = Some na → names_ !! b = Some nb →
          ∃ v, stats !! (na, nb) = Some v
               ∧ table_cell rows a b = Some (CVal v)
               ∧ table_cell rows b a = Some (CVal v).
Proof.
  assert (∀ header rows,
      _make_stat_table stats names_ = Some (header, rows) →
      header = "Seq1 \ Seq2" :: names_
      ∧ length rows = length names_
      ∧ (∀ a na, names_ !! a = Some na →
                 rows !! a ≫= head = Some (CName na)
                 ∧ table_cell rows a a = Some (CVal (PNum 0)))
      ∧ ∀ a b na nb,
          (a < b)%nat → names_ !! a = Some na → names_ !! b = Some nb →
          ∃ v, stats !! (na, nb) = Some v
               ∧ table_cell rows a b = Some (CVal v)
               ∧ table_cell rows b a = Some (CVal v)) as Hcells.
  { intros header rows H. unfold _make_stat_table in H.
    destruct (for_each _ (replicate _ _) _) as [rows1|] eqn:E1;
      [|simpl in H; discriminate H].
    cbn [mbind option_bind] in H.
    destruct (for_each _ rows1 _) as [rows2|] eqn:E2; [|simpl in H; discriminate H].
    cbn [mbind option_bind] in H. injection H as <- <-.
    apply stat_rows_copied in E1 as ([Hlen Hrows] & Hdiag & Hc).
    apply name_column in E2 as [Hlen2 Hnames]; [|done].
    assert (∀ a b, (a < length names_)%nat →
                   table_cell rows2 a b = grid_cell rows1 a b) as Hcell.
    { intros a b Ha.
      destruct (lookup_lt_is_Some_2 names_ a Ha) as [na Hna].
      destruct (lookup_lt_is_Some_2 rows1 a) as [row Hrow]; [lia|].
      unfold table_cell, grid_cell. rewrite (Hnames a na row Hna Hrow), Hrow. done. }
    split; [done|]. split; [done|]. split.
    - intros a na Hna. apply lookup_lt_Some in Hna as Ha.
      destruct (lookup_lt_is_Some_2 rows1 a) as [row Hrow]; [lia|].
      split; [by rewrite (Hnames a na row Hna Hrow)|].
      rewrite Hcell by done. by apply Hdiag.
    - intros a b na nb Hab Hna Hnb.
      apply lookup_lt_Some in Hna as Ha. apply lookup_lt_Some in Hnb as Hb.
      destruct (Hc a b na nb) as (v & H1 & H2 & H3); try done; [lia|].
      exists v. rewrite !Hcell by done. done. }
  split; [|done]. split.
  - intros [[header rows] H] a b na nb Hab Hna Hnb.
    destruct (Hcells header rows H) as (_ & _ & _ & Hc).
    destruct (Hc a b na nb Hab Hna Hnb) as (v & Hv & _). by exists v.
  - apply make_stat_table_total.
Qed.

(** ** The views of a run are complete *)

Section CompleteViews.
Variable func : matrix → option stats.

Lemma run_redundants (c c' : calculator_state) (d : list (string * list string)) :
  NoDup (names c) → run func c = Some c' → duplicated c' = Some d →
  redundants_of d = flat_redundants d
  ∧ NoDup (flat_redundants d).*1
  ∧ (∀ add alias, (add, alias) ∈ flat_redundants d →
                  (alias ∉ (flat_redundants d).*1) ∧ alias ∈ names c)
  ∧ (∀ x, x ∈ (flat_redundants d).*1 ↔ x ∈ dupe_names c').
Proof.
  intros Hnd Hrun Hd.
  destruct (run_duplicated_items func c c' d Hnd Hrun Hd)
    as (st & Hp & -> & [I1 I2 I3 I4 I5 I6] & Hdupes & _).
  assert (∀ k, k ∈ (duped st).*1 → (k < length (names c))%nat) as Hkeys.
  { intros k Hk. destruct (I4 k Hk). lia. }
  assert (∀ j, j ∈ concat (duped st).*2 → (j < length (names c))%nat) as Hvals.
  { intros j Hj. by apply I5, I3. }
  assert (NoDup (concat (named_items c (duped st)).*2)) as Hnd2.
  { rewrite named_items_vals. apply NoDup_fmap_2_strong; [|done].
    intros a b Ha Hb. apply name_at_inj; auto. }
  split; [by apply redundants_of_fresh|].
  rewrite flat_redundants_keys. split; [done|]. split.
  - intros add alias (vals & Hin & Hadd)%flat_redundants_elem.
    apply named_items_elem in Hin as (k & v & Hkv & -> & ->).
    pose proof (elem_of_keys _ _ _ Hkv) as Hk. split.
    + rewrite named_items_vals. intros (j & E & Hj)%list_elem_of_fmap.
      apply name_at_inj in E; auto. subst j.
      destruct (I4 k Hk) as [_ Hnot]. by apply Hnot, I3.
    + apply list_elem_of_lookup. exists k. apply lookup_name_at. auto.
  - intros x. unfold dupe_names. rewrite Hdupes, named_items_vals. simpl.
    rewrite !list_elem_of_fmap. split.
    + intros (j & -> & Hj). exists j. split; [done|]. by apply elem_of_elements, I3.
    + intros (j & -> & Hj). exists j. split; [done|]. by apply I3, elem_of_elements.
Qed.

Lemma run_expanded_total (c c' : calculator_state) (field : Stats → pyval)
    (x y : string) :
  NoDup (names c) → symmetric (_dists c) → run func c = Some c' →
  x ∈ names c → y ∈ names c → x ≠ y →
  is_Some (_expand c' (view field c') !! (x, y)).
Proof.
  intros Hnd Hsym Hrun Hx Hy Hxy.
  assert (names c' = names c) as Hn.
  { by apply run_inv_full in Hrun as (? & ? & _ & _ & ? & _). }
  assert (∀ u v, u ∈ names c → v ∈ names c → u ≠ v →
                 u ∉ dupe_names c' → v ∉ dupe_names c' →
                 is_Some (view field c' !! (u, v))) as Hstore.
  { intros u v Hu Hv Huv Hud Hvd.
    destruct (run_store_complete func c c' u v) as [s Hs]; try done.
    unfold view. rewrite lookup_fmap, Hs. by eexists. }
  destruct (duplicated c') as [d|] eqn:Hd.
  - destruct (run_redundants c c' d Hnd Hrun Hd) as (HR & HndR & Hal & Hdupes).
    destruct (decide (d = [])) as [->|Hne].
    + unfold _expand. rewrite Hd. apply Hstore; try done;
        rewrite <- Hdupes; apply not_elem_of_nil.
    + rewrite (expand_with_duplicates c' d _ Hd Hne), HR, Hn.
      pose proof (expanded_all (names c) (view field c')
                    (symmetric_fmap _ _ (run_symmetric func c c' Hsym Hrun))
                    (flat_redundants d) HndR Hal) as Hexp.
      rewrite (Hexp x y Hx Hy Hxy). case_decide as Hdec; [by eexists|].
      apply Hstore; try done; rewrite <- Hdupes; tauto.
  - unfold _expand. rewrite Hd. apply Hstore; try done.
    + unfold duplicated in Hd. apply run_inv_full in Hrun
        as (st & dn & Hp & Hdn & _ & _ & _ & Hdupes & [I1 I2 I3 I4 I5 I6] & Hcase).
      destruct Hcase as [(Hno & _ & _)|(_ & named & _ & _ & E)]; [|congruence].
      assert (dn = []) as ->.
      { rewrite Hdn. assert (elements (dupes st) = []) as ->; [|done].
        apply elements_empty_iff, elem_of_equiv_empty. intros e He%I3.
        rewrite Hno in He. by apply elem_of_nil in He. }
      unfold dupe_names. rewrite Hdupes. apply not_elem_of_nil.
    + unfold duplicated in Hd. apply run_inv_full in Hrun
        as (st & dn & Hp & Hdn & _ & _ & _ & Hdupes & [I1 I2 I3 I4 I5 I6] & Hcase).
      destruct Hcase as [(Hno & _ & _)|(_ & named & _ & _ & E)]; [|congruence].
      assert (dn = []) as ->.
      { rewrite Hdn. assert (elements (dupes st) = []) as ->; [|done].
        apply elements_empty_iff, elem_of_equiv_empty. intros e He%I3.
        rewrite Hno in He. by apply elem_of_nil in He. }
      unfold dupe_names. rewrite Hdupes. apply not_elem_of_nil.
Qed.
End CompleteViews.

(** X11. After a run over distinct names that starts from a symmetric
    store, every statistic expanded by [_expand] has an entry for every
    ordered pair of different names of the alignment, duplicates included,
    so that [_make_stat_table] finds every key and returns its table. *)
Theorem run_tables_produced (func : matrix → option stats)
    (c c' : calculator_state) (field : Stats → pyval) :
  NoDup (names c) → symmetric (_dists c) → run func c = Some c' →
  (∀ x y, x ∈ names c' → y ∈ names c' → x ≠ y →
          is_Some (_expand c' (view field c') !! (x, y)))
  ∧ is_Some (_make_stat_table (_expand c' (view field c')) (names c')).
Proof.
  intros Hnd Hsym Hrun.
  assert (names c' = names c) as Hn.
  { by apply run_inv_full in Hrun as (? & ? & _ & _ & ? & _). }
  rewrite Hn.
  assert (∀ x y, x ∈ names c → y ∈ names c → x ≠ y →
                 is_Some (_expand c' (view field c') !! (x, y))) as Htotal.
  { intros x y. by apply (run_expanded_total func c c'). }
  split; [done|]. apply make_stat_table_total.
  intros a b na nb Hab Hna Hnb. apply Htotal.
  - by eapply list_elem_of_lookup_2.
  - by eapply list_elem_of_lookup_2.
  - intros ->. assert (a = b) by (by eapply NoDup_lookup). lia.
Qed.

Lemma run_tables_produced_witness :
  ∃ c', run hamming_func two_twins = Some c'
        ∧ is_Some (_make_stat_table (lengths c') (names c')).
Proof.
  destruct (run hamming_func two_twins) as [c'|] eqn:E;
    [|vm_compute in E; discriminate E].
  exists c'. split; [done|].
  apply (run_tables_produced hamming_func two_twins c' length_).
  - apply (bool_decide_unpack _). vm_compute. exact I.
  - intros x y. reflexivity.
  - exact E.
Defined.

(** ** More of the estimators *)

(** X12. For a matrix of counts with a positive total and a proportion of
    changes below [0.75], the variance that [_jc69_from_matrix] returns is a
    number and is not negative, so that the standard error of a JC69
    distance is the square root of a number that has one. *)
Theorem jc69_variance_not_negative (m : matrix) :
  counts m → 0 < matrix_sum m → (proportion m < 3 / 4)%R →
  ∃ d var,
    _jc69_from_matrix m
    = (PNum (IZR (matrix_sum m)), PNum (proportion m), PNum d, PNum var)
    ∧ (0 <= var)%R.
Proof.
  intros Hm Ht Hp. eexists _, _. split; [apply jc69_unfold; [lia|done]|].
  destruct (proportion_bounds m Hm Ht) as [Hp0 Hp1].
  apply IZR_lt in Ht as Ht'.
  apply Rmult_le_pos.
  - apply Rmult_le_pos; lra.
  - left. apply Rinv_0_lt_compat.
    apply Rmult_lt_0_compat; [|done]. apply Rmult_lt_0_compat; lra.
Qed.

Lemma jc69_variance_not_negative_witness :
  ∃ d var,
    _jc69_from_matrix two_changes_in_ten
    = (PNum 10, PNum (proportion two_changes_in_ten), PNum d, PNum var)
    ∧ (0 <= var)%R.
Proof.
  apply (jc69_variance_not_negative two_changes_in_ten).
  - repeat constructor; lia.
  - reflexivity.
  - unfold proportion. change (matrix_sum _) with 10. change (trace _) with 8. lra.
Defined.

Lemma logdetcommon_base (det : qmatrix → Q) (inv : qmatrix → qmatrix)
    (m : matrix) (b : logdet_base) :
  _logdetcommon det inv m = Some b →
  matrix_sum m ≠ 0 ∧ base_total b = matrix_sum m ∧ Q2R (base_p b) = proportion m.
Proof.
  unfold _logdetcommon.
  destruct (matrix_sum m =? 0) eqn:Et; [done|]. apply Z.eqb_neq in Et.
  destruct (matrix_sum m - trace m =? 0); [done|].
  destruct (Qle_bool _ 0); [done|].
  intros [= <-]. simpl. split; [done|]. split; [done|]. by apply Q2R_proportion.
Qed.

(** X13. The estimators agree on what they count: whatever the matrix,
    each of Hamming, JC69, LogDet (with or without the adjustment) and
    Paralinear returns either the invalid tuple or the same total and the
    same proportion of changes; LogDet and Paralinear are invalid for the
    same matrices, and a matrix that JC69 accepts is accepted by Hamming. *)
Theorem estimators_agree (det : qmatrix → Q) (inv : qmatrix → qmatrix)
    (m : matrix) :
  agrees m (_hamming m)
  ∧ agrees m (_jc69_from_matrix m)
  ∧ (∀ use_tk_adjustment, agrees m (_logdet det inv m use_tk_adjustment))
  ∧ agrees m (_paralinear det inv m)
  ∧ (∀ use_tk_adjustment,
       _logdet det inv m use_tk_adjustment = invalid ↔ _paralinear det inv m = invalid)
  ∧ (_hamming m = invalid → _jc69_from_matrix m = invalid).
Proof.
  split; [|split; [|split; [|split; [|split]]]].
  - destruct (decide (matrix_sum m = 0)) as [E|E].
    + left. unfold _hamming. by rewrite E.
    + right. rewrite hamming_unfold by done. by eexists _, _.
  - destruct (decide (matrix_sum m = 0)) as [E|E].
    { left. unfold _jc69_from_matrix. by rewrite E. }
    destruct (Rle_dec (3 / 4) (proportion m)) as [Hp|Hp].
    + left. by apply jc69_saturated.
    + right. rewrite jc69_unfold by (done || lra). by eexists _, _.
  - intros tk. unfold _logdet.
    destruct (_logdetcommon det inv m) as [b|] eqn:E; [|by left].
    apply logdetcommon_base in E as (_ & Ht & Hp). right.
    unfold num_Z, num_Q. rewrite Ht, Hp. destruct tk; by eexists _, _.
  - unfold _paralinear.
    destruct (_logdetcommon det inv m) as [b|] eqn:E; [|by left].
    apply logdetcommon_base in E as (_ & Ht & Hp). right.
    unfold num_Z, num_Q. rewrite Ht, Hp. by eexists _, _.
  - intros tk. unfold _logdet, _paralinear.
    destruct (_logdetcommon det inv m) as [b|]; [|done].
    destruct tk; split; intros H; discriminate H.
  - unfold _hamming, _jc69_from_matrix.
    destruct (matrix_sum m =? 0); [done|]. intros H. discriminate H.
Qed.

(** ** The coordinates of TN93 *)

Lemma elem_of_diff_coords (indices : list nat) (i j : nat) :
  (i, j) ∈ get_matrix_diff_coords indices ↔ i ∈ indices ∧ j ∈ indices ∧ i ≠ j.
Proof.
  unfold get_matrix_diff_coords. rewrite list_elem_of_bind. split.
  - intros (i' & Hin & Hi'). apply list_elem_of_bind in Hin as (j' & Hin & Hj').
    case_decide; [|by apply elem_of_nil in Hin].
    apply list_elem_of_singleton in Hin as [= -> ->]. done.
  - intros (Hi & Hj & Hij). exists i. split; [|done].
    apply list_elem_of_bind. exists j. split; [|done].
    rewrite decide_True by done. left.
Qed.

Lemma diff_coords_row_nodup (i : nat) (indices : list nat) :
  NoDup indices →
  NoDup (indices ≫= λ j, if decide (i ≠ j) then [(i, j)] else []).
Proof.
  intros Hnd. apply NoDup_bind; [| |done].
  - intros j1 j2 z _ _ H1 H2.
    destruct (decide (i ≠ j1)); [|by apply elem_of_nil in H1].
    destruct (decide (i ≠ j2)); [|by apply elem_of_nil in H2].
    apply list_elem_of_singleton in H1, H2. congruence.
  - intros j _. case_decide; [apply NoDup_singleton|constructor].
Qed.

Lemma diff_coords_nodup (indices : list nat) :
  NoDup indices → NoDup (get_matrix_diff_coords indices).
Proof.
  intros Hnd. unfold get_matrix_diff_coords. apply NoDup_bind; [| |done].
  - intros i1 i2 [a b] _ _ H1 H2.
    apply list_elem_of_bind in H1 as (j1 & H1 & _), H2 as (j2 & H2 & _).
    destruct (decide (i1 ≠ j1)); [|by apply elem_of_nil in H1].
    destruct (decide (i2 ≠ j2)); [|by apply elem_of_nil in H2].
    apply list_elem_of_singleton in H1, H2. congruence.
  - intros i _. by apply diff_coords_row_nodup.
Qed.

Lemma diff_coords_row_length (i : nat) (indices : list nat) :
  NoDup indices → i ∈ indices →
  S (length (indices ≫= λ j, if decide (i ≠ j) then [(i, j)] else []))
  = length indices.
Proof.
  induction 1 as [|x l Hx Hnd IH]; intros Hi; [by apply elem_of_nil in Hi|].
  rewrite bind_cons, length_app. cbn [length].
  destruct (decide (i = x)) as [->|Hix].
  - rewrite decide_False by (intros H; by apply H). simpl. f_equal.
    clear IH Hi Hnd. induction l as [|y l IH]; [done|].
    apply not_elem_of_cons in Hx as [Hxy Hx].
    rewrite bind_cons, length_app, decide_True by done. simpl. f_equal. by apply IH.
  - rewrite decide_True by done. simpl. f_equal. apply IH.
    by apply elem_of_cons in Hi as [?|?].
Qed.

Lemma bind_length_const {A B} (f : A → list B) (l : list A) (k : nat) :
  (∀ x, x ∈ l → length (f x) = k) → length (l ≫= f) = (length l * k)%nat.
Proof.
  induction l as [|x l IH]; intros Hf; [done|].
  rewrite bind_cons, length_app, Hf, IH; [simpl; lia| |left].
  intros y Hy. apply Hf. by right.
Qed.

(** X14. [get_matrix_diff_coords] lists exactly the ordered pairs of
    different indices; for [n] distinct indices it lists each pair once,
    [n (n - 1)] pairs in all. *)
Theorem diff_coords_pairs (indices : list nat) :
  (∀ i j, (i, j) ∈ get_matrix_diff_coords indices
          ↔ i ∈ indices ∧ j ∈ indices ∧ i ≠ j)
  ∧ (NoDup indices →
     NoDup (get_matrix_diff_coords indices)
     ∧ length (get_matrix_diff_coords indices)
       = (length indices * (length indices - 1))%nat).
Proof.
  split; [apply elem_of_diff_coords|]. intros Hnd.
  split; [by apply diff_coords_nodup|].
  unfold get_matrix_diff_coords. apply bind_length_const.
  intros i Hi. pose proof (diff_coords_row_length i indices Hnd Hi). lia.
Qed.

Lemma list_remove_perm (x : nat * nat) (l l' : list (nat * nat)) :
  list_remove x l = Some l' → l ≡ₚ x :: l'.
Proof.
  revert l'. induction l as [|y l IH]; intros l' H; [done|]. simpl in H.
  destruct (decide (y = x)) as [->|Hy]; [by injection H as <-|].
  destruct (list_remove x l) as [l1|]; [simpl in H|done]. injection H as <-.
  rewrite (IH l1 eq_refl). apply Permutation_swap.
Qed.

Lemma list_remove_elem (x : nat * nat) (l : list (nat * nat)) :
  x ∈ l → is_Some (list_remove x l).
Proof.
  induction l as [|y l IH]; intros Hx; [by apply elem_of_nil in Hx|]. simpl.
  destruct (decide (y = x)) as [->|Hy]; [by eexists|].
  apply elem_of_cons in Hx as [->|Hx]; [done|].
  destruct (IH Hx) as [l1 ->]. by eexists.
Qed.

Lemma removals (xs l : list (nat * nat)) :
  NoDup xs → (∀ x, x ∈ xs → x ∈ l) →
  ∃ l', for_each (λ tv coord, list_remove coord tv) l xs = Some l' ∧ l ≡ₚ xs ++ l'.
Proof.
  intros Hnd. revert l. induction Hnd as [|x xs Hx Hnd IH]; intros l Hin.
  - by exists l.
  - destruct (list_remove_elem x l) as [l1 E1]; [apply Hin; left|].
    pose proof (list_remove_perm x l l1 E1) as Hp.
    destruct (IH l1) as (l' & E & Hp').
    + intros y Hy. assert (y ∈ x :: l1) as Hy' by (rewrite <- Hp; apply Hin; by right).
      apply elem_of_cons in Hy' as [->|?]; done.
    + exists l'. simpl. rewrite E1. simpl. split; [done|].
      by rewrite Hp, Hp'.
Qed.

Lemma tn93_coords_partition (pur_indices pyr_indices : list nat) :
  NoDup (pur_indices ++ pyr_indices) →
  Forall (λ i, (i < 4)%nat) (pur_indices ++ pyr_indices) →
  ∃ pur_coords pyr_coords tv_coords,
    tn93_coords 4 pur_indices pyr_indices = Some (pur_coords, pyr_coords, tv_coords)
    ∧ pur_coords ++ pyr_coords ++ tv_coords
      ≡ₚ flatten_coord <$> get_matrix_diff_coords (seq 0 4).
Proof.
  intros Hnd Hall. unfold tn93_coords.
  apply NoDup_app in Hnd as (Hpur & Hdisj & Hpyr).
  rewrite Forall_app, !Forall_forall in Hall. destruct Hall as [Hpur4 Hpyr4].
  destruct (removals
              (get_matrix_diff_coords pur_indices ++ get_matrix_diff_coords pyr_indices)
              (get_matrix_diff_coords (seq 0 4))) as (tv & -> & Hp).
  - apply NoDup_app. split; [by apply diff_coords_nodup|].
    split; [|by apply diff_coords_nodup].
    intros [i j] (Hi & _ & _)%elem_of_diff_coords (Hi' & _ & _)%elem_of_diff_coords.
    by apply (Hdisj i).
  - intros [i j] [H|H]%elem_of_app; apply elem_of_diff_coords in H as (Hi & Hj & Hij);
      apply elem_of_diff_coords; rewrite !elem_of_seq.
    + pose proof (Hpur4 i Hi). pose proof (Hpur4 j Hj). simpl in *. repeat split; (lia || done).
    + pose proof (Hpyr4 i Hi). pose proof (Hpyr4 j Hj). simpl in *. repeat split; (lia || done).
  - eexists _, _, _. split; [done|].
    rewrite Hp, !fmap_app. by rewrite <- (assoc (++)).
Qed.

Lemma take_at_in_range (xs : list Q) (cs : list nat) :
  Forall (λ k, (k < length xs)%nat) cs →
  take_at xs cs = Some ((λ k, default 0%Q (xs !! k)) <$> cs).
Proof.
  intros Hall. unfold take_at. apply mapM_Some. induction Hall as [|k cs Hk _ IH].
  - constructor.
  - rewrite fmap_cons. constructor; [|done].
    destruct (lookup_lt_is_Some_2 xs k Hk) as [x ->]. done.
Qed.

Lemma Qsum_perm (l l' : list Q) : l ≡ₚ l' → (Qsum l == Qsum l')%Q.
Proof.
  induction 1 as [|x l l' _ IH|x y l|l1 l2 l3 _ IH1 _ IH2]; simpl.
  - reflexivity.
  - by rewrite IH.
  - ring.
  - by rewrite IH1.
Qed.

Lemma Qsum_app (l l' : list Q) : (Qsum (l ++ l') == Qsum l + Qsum l')%Q.
Proof.
  induction l as [|x l IH]; simpl; [ring|]. rewrite IH. ring.
Qed.

(** the counts off the diagonal of a matrix of four rows and columns *)
Lemma off_diagonal_sum_4 (m : matrix) :
  square 4 m →
  length (concat (to_float m)) = 16%nat
  ∧ length (zip_with Qplus (col_sums m) (row_sums m)) = 4%nat
  ∧ Q2R (Qsum ((λ k, default 0%Q (concat (to_float m) !! k))
                 <$> (flatten_coord <$> get_matrix_diff_coords (seq 0 4))))
    = (IZR (matrix_sum m) - IZR (trace m))%R.
Proof.
  intros [Hlen Hrows].
  destruct m as [|r0 [|r1 [|r2 [|r3 [|]]]]]; try discriminate Hlen.
  repeat match goal with
         | H : Forall _ (_ :: _) |- _ => apply Forall_cons in H as [? H]
         end.
  destruct r0 as [|a0 [|a1 [|a2 [|a3 [|]]]]]; try discriminate.
  destruct r1 as [|b0 [|b1 [|b2 [|b3 [|]]]]]; try discriminate.
  destruct r2 as [|c0 [|c1 [|c2 [|c3 [|]]]]]; try discriminate.
  destruct r3 as [|d0 [|d1 [|d2 [|d3 [|]]]]]; try discriminate.
  split; [reflexivity|]. split; [reflexivity|].
  change (flatten_coord <$> get_matrix_diff_coords (seq 0 4))
    with [1; 2; 3; 4; 6; 7; 8; 9; 11; 12; 13; 14]%nat.
  cbn. rewrite !Q2R_plus, !Q2R_inject_Z.
  unfold matrix_sum, trace, diag. cbn. rewrite !plus_IZR.
  replace (Q2R 0) with 0%R by (unfold Q2R; simpl; lra). lra.
Qed.

Lemma flatten_coord_bound (i j : nat) :
  (i < 4)%nat → (j < 4)%nat → (flatten_coord (i, j) < 16)%nat.
Proof. unfold flatten_coord. simpl. lia. Qed.

(** With coordinates that are, together, the positions off the diagonal, the
    TN93 estimator returns on a matrix of four rows and columns. *)
Lemma tn93_with_coords (m : matrix) (freqs : list Q)
    (pur_indices pyr_indices purc pyrc tvc : list nat) :
  Forall (λ i, (i < 4)%nat) pur_indices →
  Forall (λ i, (i < 4)%nat) pyr_indices →
  purc ++ pyrc ++ tvc ≡ₚ flatten_coord <$> get_matrix_diff_coords (seq 0 4) →
  square 4 m →
  ∃ r, _tn93_from_matrix m freqs pur_indices pyr_indices purc pyrc tvc = Some r
       ∧ agrees m r.
Proof.
  intros Hpur4 Hpyr4 Hperm Hm.
  destruct (off_diagonal_sum_4 m Hm) as (Hflat & Hfreqs & Hsum).
  assert (Forall (λ k, (k < 16)%nat) (purc ++ pyrc ++ tvc)) as Hrange.
  { rewrite Hperm. apply Forall_forall. intros k (ij & -> & Hin)%list_elem_of_fmap.
    destruct ij as [i j]. apply elem_of_diff_coords in Hin as (Hi & Hj & _).
    apply elem_of_seq in Hi, Hj. apply flatten_coord_bound; lia. }
  pose proof Hrange as Hrange'.
  rewrite !Forall_app in Hrange'. destruct Hrange' as (Hr1 & Hr2 & Hr3).
  unfold _tn93_from_matrix. cbv zeta.
  destruct (matrix_sum m =? 0) eqn:Et.
  { exists invalid. split; [done|by left]. }
  apply Z.eqb_neq in Et.
  set (fr := map (λ f : Q, (f / (2 * inject_Z (matrix_sum m)))%Q)
                 (zip_with Qplus (col_sums m) (row_sums m))).
  assert (length fr = 4%nat) as Hfr by (unfold fr; by rewrite length_map).
  rewrite (take_at_in_range (concat (to_float m)) (purc ++ pyrc ++ tvc))
    by (by rewrite Hflat).
  cbn [mbind option_bind].
  rewrite (take_at_in_range fr pur_indices) by (by rewrite Hfr).
  cbn [mbind option_bind].
  rewrite (take_at_in_range fr pyr_indices) by (by rewrite Hfr).
  cbn [mbind option_bind].
  rewrite (take_at_in_range (concat (to_float m)) purc) by (by rewrite Hflat).
  cbn [mbind option_bind].
  rewrite (take_at_in_range (concat (to_float m)) pyrc) by (by rewrite Hflat).
  cbn [mbind option_bind].
  rewrite (take_at_in_range (concat (to_float m)) tvc) by (by rewrite Hflat).
  cbn [mbind option_bind].
  match goal with
  | |- ∃ r, (if ?b then _ else _) = _ ∧ _ => destruct b
  end.
  { exists invalid. split; [done|by left]. }
  eexists. split; [done|]. right. eexists _, _. unfold num_Z, num_Q.
  do 3 f_equal.
  rewrite Q2R_div, Q2R_inject_Z
    by (apply Q2R_nonzero; rewrite Q2R_inject_Z; by apply not_0_IZR).
  unfold proportion. rewrite <- Hsum. f_equal. unfold Rdiv. apply Rmult_eq_compat_r.
  apply Qeq_eqR, Qsum_perm. by rewrite Hperm.
Qed.

(** X15. For purine and pyrimidine indices that are different states of a
    four-state alphabet, the coordinates that [TN93Pair.__init__] computes
    are, taken together, the twelve positions off the diagonal of the
    flattened matrix, each once; with them [_tn93_from_matrix] never raises
    on a four by four matrix, and what it returns is the invalid tuple or
    starts with the total and the proportion of changes of the matrix. *)
Theorem tn93_proportion (pur_indices pyr_indices : list nat) :
  NoDup (pur_indices ++ pyr_indices) →
  Forall (λ i, (i < 4)%nat) (pur_indices ++ pyr_indices) →
  ∃ pur_coords pyr_coords tv_coords,
    tn93_coords 4 pur_indices pyr_indices = Some (pur_coords, pyr_coords, tv_coords)
    ∧ pur_coords ++ pyr_coords ++ tv_coords
      ≡ₚ flatten_coord <$> get_matrix_diff_coords (seq 0 4)
    ∧ ∀ m freqs,
        square 4 m →
        ∃ r, _tn93_from_matrix m freqs pur_indices pyr_indices
               pur_coords pyr_coords tv_coords = Some r
             ∧ agrees m r.
Proof.
  intros Hnd Hall.
  destruct (tn93_coords_partition pur_indices pyr_indices Hnd Hall)
    as (purc & pyrc & tvc & Hcoords & Hperm).
  exists purc, pyrc, tvc. split; [done|]. split; [done|].
  intros m freqs Hm. rewrite Forall_app in Hall. destruct Hall as [Hpur4 Hpyr4].
  by apply tn93_with_coords.
Qed.

Lemma tn93_proportion_witness :
  ∃ pur_coords pyr_coords tv_coords,
    tn93_coords 4 [2; 3]%nat [1; 0]%nat = Some (pur_coords, pyr_coords, tv_coords)
    ∧ pur_coords ++ pyr_coords ++ tv_coords
      ≡ₚ flatten_coord <$> get_matrix_diff_coords (seq 0 4)
    ∧ ∀ m freqs,
        square 4 m →
        ∃ r, _tn93_from_matrix m freqs [2; 3]%nat [1; 0]%nat
               pur_coords pyr_coords tv_coords = Some r
             ∧ agrees m r.
Proof.
  apply (tn93_proportion [2; 3]%nat [1; 0]%nat).
  - apply (bool_decide_unpack _). vm_compute. exact I.
  - repeat constructor; lia.
Defined.

(** ** Runs that return *)

(** X16. [run] raises nothing on an alignment: when there is one indexed
    sequence per name, all of one length and with indices below the alphabet
    size, and the estimator returns on the square matrices of that size, the
    run returns, and it keeps the names. *)
Theorem run_never_raises (func : matrix → option stats) (c : calculator_state) :
  aligned c → (∀ m, square (_dim c) m → is_Some (func m)) →
  ∃ c', run func c = Some c' ∧ names c' = names c.
Proof.
  intros Hc Hfunc.
  destruct (run_returns func (_dim c) Hfunc c Hc eq_refl) as [c' Hrun].
  exists c'. split; [done|].
  by apply run_inv_full in Hrun as (? & ? & _ & _ & ? & _).
Qed.

Lemma run_never_raises_witness :
  ∃ c', run hamming_func two_twins = Some c' ∧ names c' = names two_twins.
Proof.
  apply (run_never_raises hamming_func two_twins).
  - split; [reflexivity|]. exists 2%nat. repeat constructor; lia.
  - intros m _. by eexists.
Defined.

(** X17. A TN93 calculator over a four-state alphabet, set up by
    [TN93Pair.__init__] from purine and pyrimidine indices that are
    different states, runs over every alignment without raising: the
    constructor finds every coordinate that it removes, and the estimator
    finds every position that it reads. *)
Theorem tn93_run_returns (pur_indices pyr_indices : list nat) (freqs : list Q)
    (c : calculator_state) :
  NoDup (pur_indices ++ pyr_indices) →
  Forall (λ i, (i < 4)%nat) (pur_indices ++ pyr_indices) →
  aligned c → _dim c = 4%nat →
  ∃ pur_coords pyr_coords tv_coords,
    tn93_coords (_dim c) pur_indices pyr_indices
    = Some (pur_coords, pyr_coords, tv_coords)
    ∧ is_Some (run (λ m, _tn93_from_matrix m freqs pur_indices pyr_indices
                           pur_coords pyr_coords tv_coords) c).
Proof.
  intros Hnd Hall Hc Hdim. rewrite Hdim.
  destruct (tn93_coords_partition pur_indices pyr_indices Hnd Hall)
    as (purc & pyrc & tvc & Hcoords & Hperm).
  exists purc, pyrc, tvc. split; [done|].
  rewrite Forall_app in Hall. destruct Hall as [Hpur4 Hpyr4].
  apply (run_returns _ 4%nat); [|done|done].
  intros m Hm.
  destruct (tn93_with_coords m freqs pur_indices pyr_indices purc pyrc tvc)
    as (r & -> & _); done.
Qed.

Lemma tn93_run_returns_witness :
  ∃ pur_coords pyr_coords tv_coords,
    tn93_coords (_dim two_twins) [2; 3]%nat [1; 0]%nat
    = Some (pur_coords, pyr_coords, tv_coords)
    ∧ is_Some (run (λ m, _tn93_from_matrix m (replicate 4 0%Q) [2; 3]%nat [1; 0]%nat
                           pur_coords pyr_coords tv_coords) two_twins).
Proof.
  apply (tn93_run_returns [2; 3]%nat [1; 0]%nat (replicate 4 0%Q) two_twins).
  - apply (bool_decide_unpack _). vm_compute. exact I.
  - repeat constructor; lia.
  - split; [reflexivity|]. exists 2%nat. repeat constructor; lia.
  - reflexivity.
Defined.

(** ** Standard errors without variances *)

Lemma run_variances_none (func : matrix → option stats) (c c' : calculator_state) :
  (∀ m r, func m = Some r → r.2 = PNone) →
  _dists c = ∅ → run func c = Some c' →
  ∀ key s, _dists c' !! key = Some s → variance s = PNone.
Proof.
  intros Hfunc Hempty Hrun.
  apply run_inv_full in Hrun as (st & dn & Hp & _ & _ & _ & _ & _ & _ & Hcase).
  destruct (pairwise_provenance func (λ _ s, variance s = PNone) c st)
    as [Hd _]; [| |done|].
  { intros key s (i & j & n1 & n2 & m & _ & _ & _ & _ & _ & _ & Hf).
    by apply Hfunc in Hf. }
  { intros key s. by rewrite Hempty, lookup_empty. }
  intros key s Hk.
  destruct Hcase as [(_ & E & _)|(_ & named & _ & E & _)]; rewrite E in Hk.
  - by eapply Hd.
  - apply map_lookup_filter_Some_1_1 in Hk. by eapply Hd.
Qed.

(** X19. [_hamming], and [_logdet] with the Tamura and Kumar adjustment,
    compute no variance.  After a run of either from the empty store the
    standard errors raise [TypeError] as soon as one pair has been stored,
    and are returned only when the store is empty. *)
Theorem stderr_without_variance (det : qmatrix → Q) (inv : qmatrix → qmatrix)
    (func : matrix → option stats) (c c' : calculator_state) :
  func = hamming_func ∨ func = (λ m, Some (_logdet det inv m true)) →
  _dists c = ∅ → run func c = Some c' →
  (∀ key s, _dists c' !! key = Some s → variance s = PNone)
  ∧ (stderr c' = Raise TypeError ↔ _dists c' ≠ ∅)
  ∧ (stderr c' = Ok (_expand c' ∅) ↔ _dists c' = ∅).
Proof.
  intros Hfunc Hempty Hrun.
  assert (∀ m r, func m = Some r → r.2 = PNone) as Hnone.
  { intros m r Hr. destruct Hfunc as [-> | ->]; injection Hr as <-.
    - unfold _hamming. by destruct (matrix_sum m =? 0).
    - unfold _logdet. by destruct (_logdetcommon det inv m). }
  pose proof (run_variances_none func c c' Hnone Hempty Hrun) as Hvar.
  split; [done|].
  pose proof (stderr_spec c') as H. destruct (stderr c') as [stats|e].
  - destruct H as [-> H].
    assert (_dists c' = ∅) as E.
    { apply map_empty. intros key. destruct (_dists c' !! key) as [s|] eqn:Hk; [|done].
      destruct (H key s Hk). by eapply Hvar. }
    rewrite E, fmap_empty. split; split; done.
  - destruct H as [-> (k & s & Hk & Hs)].
    assert (_dists c' ≠ ∅) as E.
    { intros E. by rewrite E, lookup_empty in Hk. }
    split; split; done.
Qed.

Lemma stderr_without_variance_witness :
  ∃ c', run hamming_func three_distinct = Some c'
        ∧ stderr c' = Raise TypeError.
Proof.
  destruct (run hamming_func three_distinct) as [c'|] eqn:E;
    [|vm_compute in E; discriminate E].
  exists c'. split; [done|].
  destruct (stderr_without_variance exact_det exact_inv hamming_func three_distinct c')
    as (_ & H & _).
  - by left.
  - reflexivity.
  - exact E.
  - apply H. vm_compute in E. injection E as <-. intros Hm.
    apply (f_equal (λ d : gmap pair_key Stats, d !! ("s1", "s2"))) in Hm.
    vm_compute in Hm. discriminate Hm.
Defined.


(** ** The purines and the pyrimidines *)

Lemma index_Some (states : list ascii) (ch : ascii) (i : nat) :
  index states ch = Some i → states !! i = Some ch.
Proof.
  unfold index. intros H. apply fmap_Some in H as ([j x] & Hf & ->).
  apply list_find_Some in Hf as (Hl & -> & _). done.
Qed.

Lemma index_elem (states : list ascii) (ch : ascii) :
  ch ∈ states → is_Some (index states ch).
Proof.
  intros Hin. unfold index.
  destruct (list_find_elem_of (λ s, s = ch) states ch Hin eq_refl) as [[i x] ->].
  by eexists.
Qed.

Lemma indices_of_two (states : list ascii) (c1 c2 : ascii) (l : list nat) :
  indices_of states [c1; c2] = inr l →
  ∃ i j, l = [i; j] ∧ states !! i = Some c1 ∧ states !! j = Some c2.
Proof.
  unfold indices_of. intros H.
  destruct (mapM (index states) [c1; c2]) as [l'|] eqn:E; [|done].
  injection H as ->. cbn in E.
  destruct (index states c1) as [i|] eqn:E1; [|done].
  destruct (index states c2) as [j|] eqn:E2; [|done].
  cbn in E. injection E as <-. exists i, j.
  split; [done|]. split; by apply index_Some.
Qed.

Lemma same_moltype_elem (ref query : list ascii) (ch : ascii) :
  _same_moltype ref query = true → ch ∈ ref → ch ∈ query.
Proof.
  unfold _same_moltype. intros H%bool_decide_eq_true Hin.
  apply (elem_of_list_to_set (C := gset ascii)). rewrite <- H.
  by apply elem_of_list_to_set.
Qed.

(** X22. Whenever [get_purine_indices] and [get_pyrimidine_indices] both
    return for a molecular type, they return the positions of [A] and [G]
    and of [C] and [T] (or [U]) among its states: four different positions
    of the state list. *)
Theorem nucleic_indices (DNA RNA moltype : list ascii) (pur pyr : list nat) :
  get_purine_indices DNA RNA moltype = inr pur →
  get_pyrimidine_indices DNA RNA moltype = inr pyr →
  ∃ a g c t,
    pur = [a; g] ∧ pyr = [c; t]
    ∧ moltype !! a = Some "A"%char ∧ moltype !! g = Some "G"%char
    ∧ moltype !! c = Some "C"%char
    ∧ (moltype !! t = Some "T"%char ∨ moltype !! t = Some "U"%char)
    ∧ NoDup (pur ++ pyr)
    ∧ Forall (λ i, (i < length moltype)%nat) (pur ++ pyr).
Proof.
  intros Hpur Hpyr. unfold get_purine_indices in Hpur.
  destruct (negb (_same_moltype RNA moltype) && negb (_same_moltype DNA moltype));
    [done|].
  apply indices_of_two in Hpur as (a & g & -> & Ha & Hg).
  assert (∃ c t, pyr = [c; t] ∧ moltype !! c = Some "C"%char
                 ∧ (moltype !! t = Some "T"%char ∨ moltype !! t = Some "U"%char))
    as (c & t & -> & Hc & Ht).
  { unfold get_pyrimidine_indices in Hpyr.
    destruct (_same_moltype RNA moltype).
    - apply indices_of_two in Hpyr as (c & t & -> & Hc & Ht). exists c, t. auto.
    - destruct (_same_moltype DNA moltype); [|done].
      apply indices_of_two in Hpyr as (c & t & -> & Hc & Ht). exists c, t. auto. }
  exists a, g, c, t. do 6 (split; [done|]). split.
  - simpl. repeat constructor; rewrite ?elem_of_cons, ?elem_of_nil;
      intros H; destruct Ht as [Ht|Ht];
      repeat match goal with
             | H : _ ∨ _ |- _ => destruct H as [H|H]
             end; try done; subst; congruence.
  - simpl. destruct Ht; repeat constructor; by eapply lookup_lt_Some.
Qed.

Lemma nucleic_indices_witness :
  ∃ a g c t,
    [2; 3]%nat = [a; g] ∧ [1; 0]%nat = [c; t]
    ∧ ["T"; "C"; "A"; "G"]%char !! a = Some "A"%char
    ∧ ["T"; "C"; "A"; "G"]%char !! g = Some "G"%char
    ∧ ["T"; "C"; "A"; "G"]%char !! c = Some "C"%char
    ∧ (["T"; "C"; "A"; "G"]%char !! t = Some "T"%char
       ∨ ["T"; "C"; "A"; "G"]%char !! t = Some "U"%char)
    ∧ NoDup ([2; 3]%nat ++ [1; 0]%nat)
    ∧ Forall (λ i, (i < length ["T"; "C"; "A"; "G"]%char)%nat) ([2; 3]%nat ++ [1; 0]%nat).
Proof.
  apply (nucleic_indices ["T"; "C"; "A"; "G"]%char ["U"; "C"; "A"; "G"]%char
           ["T"; "C"; "A"; "G"]%char [2; 3]%nat [1; 0]%nat).
  - vm_compute. reflexivity.
  - vm_compute. reflexivity.
Defined.

(** X23. The two index functions raise their [RuntimeError] exactly for a
    molecular type whose set of states is neither that of [DNA] nor that
    of [RNA], both at once; when [DNA] and [RNA] have the states [A], [C],
    [G] and [T] or [U], every other molecular type gets its indices, in
    whatever order it lists its states. *)
Theorem nucleic_indices_raise (DNA RNA moltype : list ascii) :
  (∀ ch, ch ∈ ["A"; "C"; "G"; "T"]%char → ch ∈ DNA) →
  (∀ ch, ch ∈ ["A"; "C"; "G"; "U"]%char → ch ∈ RNA) →
  if _same_moltype RNA moltype || _same_moltype DNA moltype then
    (∃ pur, get_purine_indices DNA RNA moltype = inr pur)
    ∧ (∃ pyr, get_pyrimidine_indices DNA RNA moltype = inr pyr)
  else
    get_purine_indices DNA RNA moltype = inl (RuntimeError "Non-nucleic acid MolType")
    ∧ get_pyrimidine_indices DNA RNA moltype
      = inl (RuntimeError "Non-nucleic acid MolType").
Proof.
  intros HDNA HRNA. unfold get_purine_indices, get_pyrimidine_indices.
  assert (∀ c1 c2, c1 ∈ moltype → c2 ∈ moltype →
                   ∃ l, indices_of moltype [c1; c2] = inr l) as Hidx.
  { intros c1 c2 H1 H2. unfold indices_of. cbn.
    destruct (index_elem moltype c1 H1) as [i ->].
    destruct (index_elem moltype c2 H2) as [j ->]. cbn. by eexists. }
  destruct (_same_moltype RNA moltype) eqn:ER; simpl.
  - split; apply Hidx; apply (same_moltype_elem RNA moltype _ ER), HRNA;
      apply (bool_decide_unpack _); vm_compute; exact I.
  - destruct (_same_moltype DNA moltype) eqn:ED; simpl; [|done].
    split; apply Hidx; apply (same_moltype_elem DNA moltype _ ED), HDNA;
      apply (bool_decide_unpack _); vm_compute; exact I.
Qed.

Lemma nucleic_indices_raise_witness :
  (∃ pur, get_purine_indices ["T"; "C"; "A"; "G"]%char ["U"; "C"; "A"; "G"]%char
            ["G"; "A"; "T"; "C"]%char = inr pur)
  ∧ (∃ pyr, get_pyrimidine_indices ["T"; "C"; "A"; "G"]%char ["U"; "C"; "A"; "G"]%char
              ["G"; "A"; "T"; "C"]%char = inr pyr).
Proof.
  apply (nucleic_indices_raise ["T"; "C"; "A"; "G"]%char ["U"; "C"; "A"; "G"]%char
           ["G"; "A"; "T"; "C"]%char).
  - intros ch Hch. repeat (apply elem_of_cons in Hch as [->|Hch];
      [apply (bool_decide_unpack _); vm_compute; exact I|]).
    by apply elem_of_nil in Hch.
  - intros ch Hch. repeat (apply elem_of_cons in Hch as [->|Hch];
      [apply (bool_decide_unpack _); vm_compute; exact I|]).
    by apply elem_of_nil in Hch.
Defined.

(** ** From an alignment to a run *)

Lemma take_at_is_Some {A} (xs : list A) (cs : list nat) :
  Forall (λ k, (k < length xs)%nat) cs →
  ∃ l, take_at xs cs = Some l ∧ length l = length cs ∧ ∀ x, x ∈ l → x ∈ xs.
Proof.
  unfold take_at. induction 1 as [|k cs Hk _ (l & E & Hl & Hin)].
  - exists []. split; [done|]. split; [done|]. intros x Hx. by apply elem_of_nil in Hx.
  - destruct (lookup_lt_is_Some_2 xs k Hk) as [x Hx].
    exists (x :: l). split; [|split].
    + cbn [mapM]. rewrite Hx. cbn [mbind option_bind]. rewrite E. done.
    + simpl. by rewrite Hl.
    + intros y [->|Hy]%elem_of_cons; [by eapply list_elem_of_lookup_2|by apply Hin].
Qed.

Lemma index_array_total (canonical_chars all_keys : list ascii) (invalid : Z) :
  all_keys ≠ [] →
  (∀ ch, ch ∈ canonical_chars → ch ∈ all_keys) →
  - 2 ^ 31 <= invalid < Z.of_nat (length canonical_chars) →
  ∃ tbl, get_moltype_index_array canonical_chars all_keys invalid = Some tbl
         ∧ length tbl = S (max_list (nat_of_ascii <$> all_keys))
         ∧ Forall (λ v, v < Z.of_nat (length canonical_chars)) tbl.
Proof.
  intros Hne Hsub Hinv. unfold get_moltype_index_array.
  destruct all_keys as [|k0 ks]; [done|]. cbv iota.
  set (all_keys := k0 :: ks) in *.
  set (n := (max_list (nat_of_ascii <$> all_keys) + 1)%nat).
  destruct (for_each_total_range
              (λ _ t, length t = n
                      ∧ Forall (λ v, v < Z.of_nat (length canonical_chars)) t)
              (λ (char_to_index : list Z) i,
                 c ← canonical_chars !! i;
                 let o := nat_of_ascii c in
                 if decide (o < length char_to_index)%nat
                 then Some (<[o := int32 (Z.of_nat i)]> char_to_index)
                 else None)
              0 (length canonical_chars) (replicate n (int32 invalid)))
    as (tbl & E & Hlen & Hall).
  - lia.
  - split; [apply length_replicate|]. apply Forall_replicate.
    pose proof (int32_le invalid). lia.
  - intros i t Hi [Hlen Hall].
    destruct (lookup_lt_is_Some_2 canonical_chars i) as [ch Hch]; [lia|].
    rewrite Hch. cbn [mbind option_bind].
    rewrite decide_True.
    + eexists. split; [done|]. split; [by rewrite length_insert|].
      apply Forall_insert; [done|]. pose proof (int32_le (Z.of_nat i)). lia.
    + rewrite Hlen. unfold n.
      assert (nat_of_ascii ch ≤ max_list (nat_of_ascii <$> all_keys))%nat; [|lia].
      apply max_list_elem_of_le, list_elem_of_fmap. exists ch. split; [done|].
      apply Hsub. by eapply list_elem_of_lookup_2.
  - exists tbl. split; [done|]. split; [|done]. rewrite Hlen. unfold n. lia.
Qed.

Lemma convert_seqs_total (char_to_indices : list Z) (c : calculator_state)
    (alignment : Alignment) (L dim : nat) :
  (∀ name, name ∈ aln_names alignment →
           length (get_gapped_seq alignment name) = L
           ∧ Forall (λ ch, (nat_of_ascii ch < length char_to_indices)%nat)
                    (get_gapped_seq alignment name)) →
  Forall (λ v, v < Z.of_nat dim) char_to_indices →
  ∃ seqs,
    _convert_seqs_to_indices char_to_indices c alignment
    = Some (MkState (aln_names alignment) seqs (_dim c) ∅ (_dupes c) (_duped c))
    ∧ length seqs = length (aln_names alignment)
    ∧ Forall (λ s, length s = L ∧ Forall (λ a, a < Z.of_nat dim) s) seqs.
Proof.
  intros Hseqs Htbl. unfold _convert_seqs_to_indices.
  assert (∀ (names_ : list string) (acc : list (list Z)),
            (∀ name, name ∈ names_ → name ∈ aln_names alignment) →
            Forall (λ s, length s = L ∧ Forall (λ a, a < Z.of_nat dim) s) acc →
            ∃ seqs,
              for_each (λ indexed_seqs_ name,
                          indexed ← seq_to_indices (get_gapped_seq alignment name)
                                       char_to_indices;
                          Some (indexed_seqs_ ++ [indexed]))
                       acc names_ = Some seqs
              ∧ length seqs = (length acc + length names_)%nat
              ∧ Forall (λ s, length s = L ∧ Forall (λ a, a < Z.of_nat dim) s) seqs)
    as Hloop.
  { induction names_ as [|name names_ IH]; intros acc Hin Hacc.
    - exists acc. simpl. split; [done|]. split; [lia|done].
    - destruct (Hseqs name) as [HL Hord]; [apply Hin; left|].
      destruct (take_at_is_Some char_to_indices
                  (nat_of_ascii <$> get_gapped_seq alignment name))
        as (indexed & E & Hlen & Helem).
      { by apply Forall_fmap. }
      change (seq_to_indices (get_gapped_seq alignment name) char_to_indices
              = Some indexed) in E.
      cbn [for_each]. rewrite E. cbn [mbind option_bind].
      destruct (IH (acc ++ [indexed])) as (seqs & E' & Hlen' & Hall').
      + intros n Hn. apply Hin. by right.
      + apply Forall_app. split; [done|]. constructor; [|done]. split.
        * by rewrite Hlen, length_fmap.
        * apply Forall_forall. intros a Ha. rewrite Forall_forall in Htbl.
          by apply Htbl, Helem.
      + exists seqs. split; [done|]. split; [|done].
        rewrite Hlen', length_app. simpl. lia. }
  destruct (Hloop (aln_names alignment) []) as (seqs & -> & Hlen & Hall);
    [done|constructor|].
  exists seqs. done.
Qed.

(** X24. For a molecular type whose canonical characters are among its
    characters, with an [invalid] that an [int32] holds, from [-2^31] on, and
    that is below the alphabet size, and an alignment of
    sequences of one length over the characters of the type, the
    constructor raises nothing and leaves a state that [run] accepts: the
    names of the alignment, one indexed sequence per name, every index below
    the alphabet size, and an empty store.  A run of an estimator that
    returns on the square matrices of that size then returns. *)
Theorem construction_runs (canonical_chars all_keys : list ascii) (invalid : Z)
    (alignment : Alignment) (L : nat) (func : matrix → option stats) :
  all_keys ≠ [] →
  (∀ ch, ch ∈ canonical_chars → ch ∈ all_keys) →
  - 2 ^ 31 <= invalid < Z.of_nat (length canonical_chars) →
  (∀ name, name ∈ aln_names alignment →
           length (get_gapped_seq alignment name) = L
           ∧ ∀ ch, ch ∈ get_gapped_seq alignment name → ch ∈ all_keys) →
  (∀ m, square (length canonical_chars) m → is_Some (func m)) →
  ∃ c, init canonical_chars all_keys invalid alignment = Some c
       ∧ names c = aln_names alignment
       ∧ _dim c = length canonical_chars
       ∧ _dists c = ∅
       ∧ aligned c
       ∧ is_Some (run func c).
Proof.
  intros Hne Hsub Hinv Hseqs Hfunc. unfold init.
  destruct (index_array_total canonical_chars all_keys invalid Hne Hsub Hinv)
    as (tbl & -> & Hlen & Htbl).
  cbn [mbind option_bind].
  destruct (convert_seqs_total tbl (MkState [] [] (length canonical_chars) ∅ None None)
              alignment L (length canonical_chars))
    as (seqs & -> & Hlen' & Hall); [|done|].
  { intros name Hname. destruct (Hseqs name Hname) as [HL Hch]. split; [done|].
    apply Forall_forall. intros ch Hin. rewrite Hlen.
    assert (nat_of_ascii ch ≤ max_list (nat_of_ascii <$> all_keys))%nat; [|lia].
    apply max_list_elem_of_le, list_elem_of_fmap. exists ch. split; [done|].
    by apply Hch. }
  eexists. split; [done|]. simpl. do 3 (split; [done|]).
  assert (aligned (MkState (aln_names alignment) seqs (length canonical_chars)
                     ∅ None None)) as Hal.
  { split; [done|]. by exists L. }
  split; [done|]. by apply (run_returns func (length canonical_chars)).
Qed.

Lemma construction_runs_witness :
  ∃ c, init ["T"; "C"; "A"; "G"]%char ["T"; "C"; "A"; "G"; "-"; "?"]%char (-9)
         (MkAlignment ["s1"; "s2"]
            (λ name, if decide (name = "s1") then ["A"; "C"; "-"]%char
                     else ["A"; "T"; "G"]%char)) = Some c
       ∧ names c = ["s1"; "s2"]
       ∧ _dim c = 4%nat
       ∧ _dists c = ∅
       ∧ aligned c
       ∧ is_Some (run hamming_func c).
Proof.
  apply (construction_runs ["T"; "C"; "A"; "G"]%char ["T"; "C"; "A"; "G"; "-"; "?"]%char
           (-9) (MkAlignment ["s1"; "s2"]
                   (λ name, if decide (name = "s1") then ["A"; "C"; "-"]%char
                            else ["A"; "T"; "G"]%char)) 3 hamming_func).
  - discriminate.
  - intros ch Hch. repeat (apply elem_of_cons in Hch as [->|Hch];
      [apply (bool_decide_unpack _); vm_compute; exact I|]).
    by apply elem_of_nil in Hch.
  - simpl. lia.
  - intros name Hname. simpl in Hname.
    repeat (apply elem_of_cons in Hname as [->|Hname];
      [split; [reflexivity|]; intros ch Hch; simpl in Hch;
       repeat (apply elem_of_cons in Hch as [->|Hch];
         [apply (bool_decide_unpack _); vm_compute; exact I|]);
       by apply elem_of_nil in Hch|]).
    by apply elem_of_nil in Hname.
  - intros m _. by eexists.
Defined.

(** ** The order of a pair *)

Lemma fill_returns_square (K : nat) (seq1 seq2 : list Z) (m : matrix) :
  _fill_diversity_matrix (zeros K) seq1 seq2 = Some m →
  square K m ∧ matrix_sum m = valid_columns seq1 seq2.
Proof.
  unfold _fill_diversity_matrix. case_bool_decide as Hlen; [|done]. intros Hfill.
  pose proof (jointly_valid_filter seq1 seq2) as Hpos.
  destruct (fill_pairs_inside K
              (filter (λ ab, jointly_valid ab = true) (zip seq1 seq2)) (zeros K))
    as (m0 & E & Hsq & Hsum).
  - apply zeros_square.
  - apply Forall_forall. intros [a b] Hab.
    rewrite Forall_forall in Hpos. destruct (Hpos _ Hab) as [Ha Hb]. simpl in *.
    destruct (decide (a < Z.of_nat K ∧ b < Z.of_nat K)) as [?|Hout]; [lia|].
    exfalso.
    assert (fill_pairs (zeros K)
              (filter (λ ab, jointly_valid ab = true) (zip seq1 seq2)) = None) as E.
    { apply (fill_pairs_raises K); [apply zeros_square|by apply Forall_forall|].
      apply Exists_exists. exists (a, b). split; [done|]. simpl. lia. }
    congruence.
  - rewrite E in Hfill. injection Hfill as <-. split; [done|].
    rewrite Hsum, matrix_sum_zeros, valid_columns_filter. lia.
Qed.

Lemma valid_columns_swap (seq1 seq2 : list Z) :
  valid_columns seq2 seq1 = valid_columns seq1 seq2.
Proof.
  revert seq2. induction seq1 as [|a s1 IH]; intros [|b s2]; simpl; try done.
  by rewrite IH, andb_comm.
Qed.

Lemma diag_from_lookup (m : matrix) (i k : nat) :
  diag_from i m !! k = (λ row, default 0 (row !! (i + k)%nat)) <$> m !! k.
Proof.
  revert i k. induction m as [|row m IH]; intros i k; [done|].
  destruct k as [|k]; simpl.
  - by rewrite Nat.add_0_r.
  - rewrite IH. by replace (S i + k)%nat with (i + S k)%nat by lia.
Qed.

Lemma diag_lookup_entry (m : matrix) (k : nat) :
  diag m !! k = if decide (k < length m)%nat then Some (entry m k k) else None.
Proof.
  unfold diag, entry. rewrite diag_from_lookup. simpl.
  case_decide as Hk.
  - destruct (lookup_lt_is_Some_2 m k Hk) as [row ->]. done.
  - rewrite lookup_ge_None_2; [done|lia].
Qed.

(** X25. The diversity matrices of a pair of sequences taken in the two
    orders have the same total and the same trace, so that [_hamming] and
    [_jc69_from_matrix] return the same statistics for both: the estimate
    that [run] stores under the two orderings of a pair does not depend on
    the order in which the two sequences were compared. *)
Theorem pair_order_irrelevant (K : nat) (seq1 seq2 : list Z) (m m' : matrix) :
  _fill_diversity_matrix (zeros K) seq1 seq2 = Some m →
  _fill_diversity_matrix (zeros K) seq2 seq1 = Some m' →
  matrix_sum m' = matrix_sum m
  ∧ trace m' = trace m
  ∧ _hamming m' = _hamming m
  ∧ _jc69_from_matrix m' = _jc69_from_matrix m.
Proof.
  intros Hm Hm'.
  destruct (fill_returns_square K seq1 seq2 m Hm) as [[Hlen _] Hsum].
  destruct (fill_returns_square K seq2 seq1 m' Hm') as [[Hlen' _] Hsum'].
  assert (matrix_sum m' = matrix_sum m) as Hs.
  { rewrite Hsum, Hsum'. apply valid_columns_swap. }
  assert (trace m' = trace m) as Ht.
  { unfold trace. f_equal. apply list_eq. intros k.
    rewrite !diag_lookup_entry, Hlen, Hlen'. case_decide; [|done]. f_equal.
    rewrite (fill_diversity_matrix_entries_aux K seq2 seq1 m' Hm').
    rewrite (fill_diversity_matrix_entries_aux K seq1 seq2 m Hm).
    apply columns_with_swap. }
  split; [done|]. split; [done|].
  unfold _hamming, _jc69_from_matrix. by rewrite Hs, Ht.
Qed.

Lemma pair_order_irrelevant_witness :
  matrix_sum [[0; 0; 0; 0]; [0; 1; 0; 0]; [1; 0; 0; 0]; [0; 0; 0; 0]]
  = matrix_sum [[0; 0; 1; 0]; [0; 1; 0; 0]; [0; 0; 0; 0]; [0; 0; 0; 0]]
  ∧ trace [[0; 0; 0; 0]; [0; 1; 0; 0]; [1; 0; 0; 0]; [0; 0; 0; 0]]
    = trace [[0; 0; 1; 0]; [0; 1; 0; 0]; [0; 0; 0; 0]; [0; 0; 0; 0]]
  ∧ _hamming [[0; 0; 0; 0]; [0; 1; 0; 0]; [1; 0; 0; 0]; [0; 0; 0; 0]]
    = _hamming [[0; 0; 1; 0]; [0; 1; 0; 0]; [0; 0; 0; 0]; [0; 0; 0; 0]]
  ∧ _jc69_from_matrix [[0; 0; 0; 0]; [0; 1; 0; 0]; [1; 0; 0; 0]; [0; 0; 0; 0]]
    = _jc69_from_matrix [[0; 0; 1; 0]; [0; 1; 0; 0]; [0; 0; 0; 0]; [0; 0; 0; 0]].
Proof.
  apply (pair_order_irrelevant 4 [0; 1] [2; 1]); reflexivity.
Defined.

(** ** The standard errors, as a table *)

Lemma make_stat_table_keys (stats : gmap pair_key pyval) (names_ : list string)
    (t : list string * list (list cell)) :
  _make_stat_table stats names_ = Some t → all_pairs_in names_ stats.
Proof.
  intros H a b na nb Hab Hna Hnb. unfold _make_stat_table in H.
  destruct (for_each _ (replicate _ _) _) as [rows1|] eqn:E1;
    [|simpl in H; discriminate H].
  apply stat_rows_copied in E1 as (_ & _ & Hc).
  apply lookup_lt_Some in Hnb as Hb.
  destruct (Hc a b na nb) as (v & Hv & _); try done; try lia;
    try (by exists v).
Qed.

(** X18. The [stderr] property has three outcomes.  It raises [TypeError]
    exactly when one stored variance is [None], whatever the other variances
    are.  When every stored variance is a number it raises [KeyError]
    exactly when, after the duplicates have been expanded, some pair of
    names has no entry, as for every pair before a run; otherwise it returns
    its table. *)
Theorem stderr_table_outcomes (c : calculator_state) :
  (stderr_table c = Raise TypeError
   ↔ ∃ k s, _dists c !! k = Some s ∧ variance s = PNone)
  ∧ (stderr_table c = Raise KeyError
     ↔ (∀ k s, _dists c !! k = Some s → variance s ≠ PNone)
       ∧ ¬ all_pairs_in (names c) (_expand c (sqrt_of <$> _dists c)))
  ∧ ((∃ t, stderr_table c = Ok t)
     ↔ (∀ k s, _dists c !! k = Some s → variance s ≠ PNone)
       ∧ all_pairs_in (names c) (_expand c (sqrt_of <$> _dists c)))
  ∧ ∀ e, stderr_table c = Raise e → e = TypeError ∨ e = KeyError.
Proof.
  pose proof (stderr_spec c) as H. unfold stderr_table.
  destruct (stderr c) as [stats|e].
  - destruct H as [-> Hnum].
    destruct (_make_stat_table _ (names c)) as [t|] eqn:E.
    + apply make_stat_table_keys in E as Hall.
      split; [|split; [|split]].
      * split; [done|]. intros (k & s & Hk & Hs). by apply Hnum in Hk.
      * split; [done|]. by intros [_ Hnot].
      * split; [done|]. intros _. by exists t.
      * done.
    + assert (¬ all_pairs_in (names c) (_expand c (sqrt_of <$> _dists c))) as Hnot.
      { intros Hall. apply make_stat_table_total in Hall as [t Ht]. congruence. }
      split; [|split; [|split]].
      * split; [done|]. intros (k & s & Hk & Hs). by apply Hnum in Hk.
      * done.
      * split; [by intros [t Ht]|]. by intros [_ Hall].
      * intros e [= <-]. by right.
  - destruct H as [-> (k & s & Hk & Hs)].
    split; [|split; [|split]].
    + split; [|done]. intros _. by exists k, s.
    + split; [done|]. intros [Hnum _]. by apply Hnum in Hk.
    + split; [by intros [t Ht]|]. intros [Hnum _]. by apply Hnum in Hk.
    + intros e [= <-]. by left.
Qed.

(** ** Statistics with and without the duplicates *)

(** X21. After a run over distinct names that starts from a symmetric
    store, the dictionary of a statistic, as the views and
    [get_pairwise_distances] build it from the store, has no entry for a
    pair with a duplicate, and [_expand] leaves the entry of every other
    pair of different names as it is: expanding the duplicates changes no
    statistic between unique sequences. *)
Theorem unique_pairs_unchanged (func : matrix → option stats)
    (c c' : calculator_state) (field : Stats → pyval) (x y : string) :
  NoDup (names c) → symmetric (_dists c) → run func c = Some c' →
  x ∈ names c → y ∈ names c → x ≠ y →
  (x ∈ dupe_names c' ∨ y ∈ dupe_names c' → view field c' !! (x, y) = None)
  ∧ ((x ∉ dupe_names c') → (y ∉ dupe_names c') →
     _expand c' (view field c') !! (x, y) = view field c' !! (x, y)).
Proof.
  intros Hnd Hsym Hrun Hx Hy Hxy.
  assert (names c' = names c) as Hn.
  { by apply run_inv_full in Hrun as (? & ? & _ & _ & ? & _). }
  split.
  - intros Hdup. apply run_inv_full in Hrun
      as (st & dn & Hp & Hdn & _ & _ & _ & Hdupes & _ & Hcase).
    assert (dupe_names c' = dn) as Hdn'.
    { unfold dupe_names. rewrite Hdupes. by destruct dn. }
    rewrite Hdn' in Hdup.
    destruct Hcase as [(Hno & _ & Hnone)|(_ & named & _ & E & _)].
    + exfalso. apply pairwise_inv in Hp as [I1 I2 I3 I4 I5 I6].
      assert (dn = []) as ->.
      { rewrite Hdn. assert (elements (dupes st) = []) as ->; [|done].
        apply elements_empty_iff, elem_of_equiv_empty. intros e He%I3.
        rewrite Hno in He. by apply elem_of_nil in He. }
      destruct Hdup as [H|H]; by apply elem_of_nil in H.
    + unfold view. rewrite lookup_fmap, E. unfold clean.
      rewrite map_lookup_filter.
      destruct (dists st !! (x, y)) as [s|]; [|done]. simpl.
      rewrite option_guard_False; [done|]. simpl. tauto.
  - intros Hxd Hyd. destruct (duplicated c') as [d|] eqn:Hd.
    + destruct (run_redundants func c c' d Hnd Hrun Hd) as (HR & HndR & Hal & Hdupes).
      destruct (decide (d = [])) as [->|Hne].
      * unfold _expand. by rewrite Hd.
      * rewrite (expand_with_duplicates c' d _ Hd Hne), HR, Hn.
        pose proof (expanded_all (names c) (view field c')
                      (symmetric_fmap _ _ (run_symmetric func c c' Hsym Hrun))
                      (flat_redundants d) HndR Hal) as Hexp.
        rewrite (Hexp x y Hx Hy Hxy). rewrite decide_False; [done|].
        rewrite !Hdupes. tauto.
    + unfold _expand. by rewrite Hd.
Qed.

Lemma unique_pairs_unchanged_witness :
  ∃ c', run hamming_func two_twins = Some c'
        ∧ view dist c' !! ("a", "b") = None
        ∧ _expand c' (view dist c') !! ("a", "c") = view dist c' !! ("a", "c").
Proof.
  destruct (run hamming_func two_twins) as [c'|] eqn:E;
    [|vm_compute in E; discriminate E].
  exists c'.
  assert (NoDup (names two_twins)) as Hnd
      by (apply (bool_decide_unpack _); vm_compute; exact I).
  assert (symmetric (_dists two_twins)) as Hsym by (intros x y; reflexivity).
  assert (dupe_names c' = ["d"; "b"]) as Hd.
  { vm_compute in E. injection E as <-. reflexivity. }
  split; [done|]. split.
  - apply (unique_pairs_unchanged hamming_func two_twins c' dist "a" "b" Hnd Hsym E);
      try (apply (bool_decide_unpack _); vm_compute; exact I).
    rewrite Hd. right. apply (bool_decide_unpack _). vm_compute. exact I.
  - apply (unique_pairs_unchanged hamming_func two_twins c' dist "a" "c" Hnd Hsym E);
      try (apply (bool_decide_unpack _); vm_compute; exact I);
      rewrite Hd; apply (bool_decide_unpack _); vm_compute; exact I.
Defined.
